(** * UserDataInitializationService: a shallow embedding

    The service seeds local state (settings, keybindings, snippets, UI state,
    extensions) from a remote sync store the first time a web workbench is
    opened.  It is asynchronous JavaScript running on one event loop, so the
    embedding is a labelled transition system: every transition is one
    synchronous section of the source (from a call or a resumption up to the
    next [await]), written in a small state-and-exception monad, and the
    labels are the things that can happen between two sections (an entry
    point is called, an awaited promise settles, a suspended frame resumes,
    the injected services change their answers).  A process lifetime is a
    list of labels; "every interleaving" is "every list".  The event loop
    runs resumptions in a fixed order; the system here lets them happen in
    any order, so what holds of every list holds of the real schedule.

    The collaborators are outside this file.  Three of their operations are
    awaited and may reject: the authentication session request, the remote
    read and the initializer's apply.  Their outcome arrives with the label.
    Three more are called once the session is there, outside every [try]:
    [URI.parse], the constructor of [UserDataSyncStoreClient] and
    [setAuthToken].  They are imported from modules that are not part of this
    development, so whether one of them throws on its arguments is a
    parameter, kept with the answers of the services (a process in which
    these functions stay what they are is a run whose labels never change
    that answer).  The gate queries and the logger are taken to return.

    [productService[CONFIGURATION_SYNC_STORE_KEY]] is an object the builder
    holds on to across its [await]: it is known by its identity, and its
    [url] is looked up when the source reads it. *)

From stdpp Require Import base list strings.

Set Default Proof Using "Type".

(** ** Data *)

(** [SyncResource] of [vs/platform/userDataSync/common/userDataSync], the five
    members the service switches over. *)
Inductive SyncResource : Type :=
| Settings
| Keybindings
| Snippets
| GlobalState
| Extensions.

#[global] Instance SyncResource_eq_dec : EqDecision SyncResource.
Proof. solve_decision. Defined.

Inductive StorageScope : Type := GLOBAL | WORKSPACE.

(** A thrown JavaScript value; the source only ever builds [new Error(msg)]. *)
Inductive JsError : Type := Error (message : string).

(** [productService[CONFIGURATION_SYNC_STORE_KEY]], of which only [url] is read. *)
Record IUserDataSyncStore : Type := { url : string }.

(** The identity of a store object. *)
Definition StoreRef : Type := nat.

(** The calls of lines 99 and 100 into imported modules, with the arguments
    that come from the configuration and the session. *)
Inductive Imported : Type :=
| URI_parse (value : string)
| NewUserDataSyncStoreClient (userDataSyncStoreUrl : string)
| SetAuthToken (token type : string).

Inductive ICredentialsProvider : Type := CredentialsProvider.

(** [environmentService.options]; both fields may be [undefined]. *)
Record IWorkbenchConstructionOptions : Type := {
  enableSyncByDefault : option bool;
  credentialsProvider : option ICredentialsProvider
}.

(** What the module constant [isWeb] and the injected services answer when the
    builder asks them.  [options] itself may be undefined ([options?.x]).
    [syncStore] is the object the product service hands out, [stores] what
    every store object holds at the moment, and [throws] the exception an
    imported call ends with, if it does. *)
Record Services : Type := {
  isWeb : bool;
  options : option IWorkbenchConstructionOptions;
  isNew : StorageScope -> bool;
  syncStore : option StoreRef;
  stores : StoreRef -> IUserDataSyncStore;
  throws : Imported -> option JsError
}.

Record AuthenticationSessionInfo : Type := {
  accessToken : string;
  providerId : string
}.

Record IUserData : Type := { ref : string; content : option string }.

(** What [new UserDataSyncStoreClient(URI.parse(url), ...)] followed by
    [setAuthToken] leaves when none of them throws; the URI is kept as the
    string it was parsed from. *)
Record UserDataSyncStoreClient : Type := {
  storeUrl : string;
  authToken : option (string * string)
}.

Definition newUserDataSyncStoreClient (u : string) : UserDataSyncStoreClient :=
  {| storeUrl := u; authToken := None |}.

Definition setAuthToken (c : UserDataSyncStoreClient) (token provider : string)
  : UserDataSyncStoreClient :=
  {| storeUrl := storeUrl c; authToken := Some (token, provider) |}.

Inductive IInstantiationService : Type := InstantiationService.

(** The five classes [createSyncResourceInitializer] instantiates. *)
Inductive Initializer : Type :=
| SettingsInitializer
| KeybindingsInitializer
| SnippetsInitializer
| GlobalStateInitializer
| ExtensionsInitializer.

Definition resourceOf (i : Initializer) : SyncResource :=
  match i with
  | SettingsInitializer => Settings
  | KeybindingsInitializer => Keybindings
  | SnippetsInitializer => Snippets
  | GlobalStateInitializer => GlobalState
  | ExtensionsInitializer => Extensions
  end.

(** A log message.  [getSyncAreaLabel] is imported from another module, so a
    template literal [`${before}${getSyncAreaLabel(k)}${after}`] is kept as
    its three parts. *)
Inductive Message : Type :=
| Text (s : string)
| Area (before : string) (k : SyncResource) (after : string).

(** Everything the service does to its collaborators, in program order. *)
Inductive Obs : Type :=
| LogTrace (m : Message)
| LogInfo (m : Message)
| LogError (e : JsError)
| AuthRequest
| RemoteRead (c : UserDataSyncStoreClient) (k : SyncResource)
| LocalApply (i : Initializer) (userData : IUserData).

(** How an awaited promise settles. *)
Inductive Settled (A : Type) : Type :=
| Resolves (a : A)
| Rejects (e : JsError).
Arguments Resolves {A} a.
Arguments Rejects {A} e.

(** ** Suspended frames *)

(** [_userDataSyncStoreClientPromise] once assigned: the builder is suspended
    at [await getCurrentAuthenticationSessionInfo(...)] holding the object in
    its local [userDataSyncStore], or the promise has settled. *)
Inductive ClientPromise : Type :=
| PromisePending (userDataSyncStore : StoreRef)
| PromiseFulfilled (c : option UserDataSyncStoreClient)
| PromiseRejected (e : JsError).

(** One invocation of the arrow function passed to [syncResources.map]. *)
Inductive CallbackFrame : Type :=
| CbAwaitsRead (k : SyncResource) (initializer : Initializer)
| CbAwaitsApply (k : SyncResource)
| CbFulfilled
| CbRejected (e : JsError).

(** One invocation of [initialize], seen through the promise the entry point
    handed to its caller. *)
Inductive CallStatus : Type :=
| AwaitingClient
| AwaitingAll (remaining : nat)
| Returned
| Raised (e : JsError).

Record Call : Type := {
  syncResources : list SyncResource;
  instantiationService : option IInstantiationService;
  status : CallStatus
}.

Record State : Type := mkState {
  services : Services;
  initialized : list SyncResource;
  _userDataSyncStoreClientPromise : option ClientPromise;
  calls : list Call;
  callbacks : list (nat * CallbackFrame);
  out : list Obs
}.

Definition init (w : Services) : State :=
  mkState w [] None [] [] [].

Definition set_services (w : Services) (s : State) : State :=
  mkState w (initialized s) (_userDataSyncStoreClientPromise s)
          (calls s) (callbacks s) (out s).

Definition set_promise (p : ClientPromise) (s : State) : State :=
  mkState (services s) (initialized s) (Some p) (calls s) (callbacks s) (out s).

Definition set_calls (cs : list Call) (s : State) : State :=
  mkState (services s) (initialized s) (_userDataSyncStoreClientPromise s)
          cs (callbacks s) (out s).

Definition set_callbacks (cbs : list (nat * CallbackFrame)) (s : State) : State :=
  mkState (services s) (initialized s) (_userDataSyncStoreClientPromise s)
          (calls s) cbs (out s).

Definition add_out (o : Obs) (s : State) : State :=
  mkState (services s) (initialized s) (_userDataSyncStoreClientPromise s)
          (calls s) (callbacks s) (out s ++ [o]).

Definition mark (k : SyncResource) (s : State) : State :=
  mkState (services s) (initialized s ++ [k]) (_userDataSyncStoreClientPromise s)
          (calls s) (callbacks s) (out s).

(** ** The monad of a synchronous section *)

Inductive Completion (A : Type) : Type :=
| Normal (a : A)
| Throws (e : JsError).
Arguments Normal {A} a.
Arguments Throws {A} e.

Definition M (A : Type) : Type := State -> Completion A * State.

Definition ret {A} (a : A) : M A := fun s => (Normal a, s).

Definition bind {A B} (m : M A) (f : A -> M B) : M B :=
  fun s =>
    match m s with
    | (Normal a, s') => f a s'
    | (Throws e, s') => (Throws e, s')
    end.

Definition throw {A} (e : JsError) : M A := fun s => (Throws e, s).

(** [try { body } catch (error) { handler }]: what [body] did to the state
    before it threw stays done. *)
Definition try_catch {A} (body : M A) (handler : JsError -> M A) : M A :=
  fun s =>
    match body s with
    | (Normal a, s') => (Normal a, s')
    | (Throws e, s') => handler e s'
    end.

(** Resuming from [await p] once [p] has settled. *)
Definition await {A} (r : Settled A) : M A :=
  match r with
  | Resolves a => ret a
  | Rejects e => throw e
  end.

#[global] Instance M_ret : MRet M := @ret.
#[global] Instance M_bind : MBind M := fun A B f m => bind m f.

Definition emit (o : Obs) : M unit := fun s => (Normal tt, add_out o s).

Definition logTrace (m : Message) : M unit := emit (LogTrace m).
Definition logInfo (m : Message) : M unit := emit (LogInfo m).
Definition logError (e : JsError) : M unit := emit (LogError e).

Definition ask : M Services := fun s => (Normal (services s), s).

(** [this.initialized.includes(syncResource)] *)
Definition includes (k : SyncResource) : M bool :=
  fun s => (Normal (bool_decide (k ∈ initialized s)), s).

(** [this.initialized.push(syncResource)] *)
Definition push (k : SyncResource) : M unit := fun s => (Normal tt, mark k s).

(** JavaScript truthiness of the two optional fields, through [options?.]. *)
Definition syncByDefault (w : Services) : bool :=
  match options w with
  | Some o => match enableSyncByDefault o with Some b => b | None => false end
  | None => false
  end.

Definition hasCredentialsProvider (w : Services) : bool :=
  match options w with
  | Some o => match credentialsProvider o with Some _ => true | None => false end
  | None => false
  end.

(** ** createUserDataSyncStoreClient *)

Inductive BuilderStep : Type :=
| BuilderReturns (c : option UserDataSyncStoreClient)
| BuilderAwaitsAuth (userDataSyncStore : StoreRef).

(** Every failing gate of the builder: a trace message and [return]. *)
Definition skip (reason : string) : M BuilderStep :=
  logTrace (Text reason);;
  mret (BuilderReturns None).

(** The async arrow function of [createUserDataSyncStoreClient], from its
    start to its first [await] or [return]. *)
Definition builder_start : M BuilderStep :=
  w ← ask;
  if negb (isWeb w) then
    skip "Skipping initializing user data in desktop"
  else if negb (syncByDefault w) then
    skip "Skipping initializing user data as sync is not enabled by default"
  else if negb (isNew w GLOBAL) then
    skip "Skipping initializing user data as application was opened before"
  else if negb (isNew w WORKSPACE) then
    skip "Skipping initializing user data as workspace was opened before"
  else
    match syncStore w with
    | None =>
        skip "Skipping initializing user data as sync service is not provided"
    | Some userDataSyncStore =>
        if negb (hasCredentialsProvider w) then
          skip "Skipping initializing user data as credentials provider is not provided"
        else
          (emit AuthRequest;;
           mret (BuilderAwaitsAuth userDataSyncStore))
    end.

(** A call into an imported module: it returns or it throws. *)
Definition imported (i : Imported) : M unit :=
  w ← ask;
  match throws w i with
  | Some e => throw e
  | None => mret tt
  end.

(** [userDataSyncStore.url], read from the object as it is now. *)
Definition read_url (userDataSyncStore : StoreRef) : M string :=
  w ← ask;
  mret (url (stores w userDataSyncStore)).

(** The same function from the settlement of the authentication promise to
    its [return].  Only the request for the session is inside a [try]. *)
Definition builder_resume (userDataSyncStore : StoreRef)
    (r : Settled (option AuthenticationSessionInfo))
  : M (option UserDataSyncStoreClient) :=
  authenticationSession ←
    try_catch (await r) (fun error => logError error;; mret None);
  match authenticationSession with
  | None =>
      logTrace (Text "Skipping initializing user data as authentication session is not set");;
      mret None
  | Some a =>
      u ← read_url userDataSyncStore;
      imported (URI_parse u);;
      imported (NewUserDataSyncStoreClient u);;
      imported (SetAuthToken (accessToken a) (providerId a));;
      mret (Some (setAuthToken (newUserDataSyncStoreClient u)
                               (accessToken a) (providerId a)))
  end.

(** [createUserDataSyncStoreClient()]: the builder starts only while the field
    is still undefined; a throw inside an async function rejects its promise. *)
Definition createUserDataSyncStoreClient (s : State) : State :=
  match _userDataSyncStoreClientPromise s with
  | Some _ => s
  | None =>
      match builder_start s with
      | (Normal (BuilderReturns c), s') => set_promise (PromiseFulfilled c) s'
      | (Normal (BuilderAwaitsAuth st), s') => set_promise (PromisePending st) s'
      | (Throws e, s') => set_promise (PromiseRejected e) s'
      end
  end.

Definition settle_builder (st : StoreRef)
    (r : Settled (option AuthenticationSessionInfo)) (s : State) : State :=
  match builder_resume st r s with
  | (Normal c, s') => set_promise (PromiseFulfilled c) s'
  | (Throws e, s') => set_promise (PromiseRejected e) s'
  end.

(** ** createSyncResourceInitializer and the per-resource callback *)

Definition createSyncResourceInitializer (syncResource : SyncResource)
    (inst : option IInstantiationService) : M Initializer :=
  match syncResource with
  | Settings => mret SettingsInitializer
  | Keybindings => mret KeybindingsInitializer
  | Snippets => mret SnippetsInitializer
  | GlobalState => mret GlobalStateInitializer
  | Extensions =>
      match inst with
      | None => throw (Error "Instantiation Service is required to initialize extension")
      | Some _ => mret ExtensionsInitializer
      end
  end.

(** The [catch (error)] block of the callback. *)
Definition on_error (syncResource : SyncResource) (error : JsError) : M CallbackFrame :=
  logInfo (Area "Error while initializing " syncResource "");;
  logError error;;
  mret CbFulfilled.

(** The callback from its start to [await userDataSyncStoreClient.read(...)]:
    the read is issued in this section, its result awaited in the next. *)
Definition callback_start (client : UserDataSyncStoreClient)
    (inst : option IInstantiationService) (syncResource : SyncResource)
  : M CallbackFrame :=
  try_catch
    (already ← includes syncResource;
     if (already : bool) then
       (logInfo (Area "" syncResource " initialized already.");;
        mret CbFulfilled)
     else
       (push syncResource;;
        logTrace (Area "Initializing " syncResource "");;
        initializer ← createSyncResourceInitializer syncResource inst;
        emit (RemoteRead client syncResource);;
        mret (CbAwaitsRead syncResource initializer)))
    (on_error syncResource).

(** From the settlement of the read to [await initializer.initialize(userData)]. *)
Definition callback_after_read (syncResource : SyncResource)
    (initializer : Initializer) (r : Settled IUserData) : M CallbackFrame :=
  try_catch
    (userData ← await r;
     emit (LocalApply initializer userData);;
     mret (CbAwaitsApply syncResource))
    (on_error syncResource).

(** From the settlement of the apply to the end of the callback. *)
Definition callback_after_apply (syncResource : SyncResource)
    (r : Settled unit) : M CallbackFrame :=
  try_catch
    (await r;;
     logInfo (Area "Initialized " syncResource "");;
     mret CbFulfilled)
    (on_error syncResource).

(** An async function that throws rejects the promise it returned. *)
Definition as_promise (m : M CallbackFrame) (s : State) : CallbackFrame * State :=
  match m s with
  | (Normal f, s') => (f, s')
  | (Throws e, s') => (CbRejected e, s')
  end.

(** [syncResources.map(async syncResource => ...)]: the callbacks start one
    after the other, each running to its first [await]. *)
Fixpoint map_callbacks (client : UserDataSyncStoreClient)
    (inst : option IInstantiationService) (rs : list SyncResource) (s : State)
  : list CallbackFrame * State :=
  match rs with
  | [] => ([], s)
  | k :: rs' =>
      let '(f, s1) := as_promise (callback_start client inst k) s in
      let '(fs, s2) := map_callbacks client inst rs' s1 in
      (f :: fs, s2)
  end.

Definition is_pending (f : CallbackFrame) : bool :=
  match f with
  | CbAwaitsRead _ _ | CbAwaitsApply _ => true
  | CbFulfilled | CbRejected _ => false
  end.

Fixpoint first_rejection (fs : list CallbackFrame) : option JsError :=
  match fs with
  | [] => None
  | CbRejected e :: _ => Some e
  | _ :: fs' => first_rejection fs'
  end.

(** [await Promise.all(promises)] right after the map: rejected by the first
    rejected promise, otherwise waiting for the ones still pending. *)
Definition promise_all (fs : list CallbackFrame) : CallStatus :=
  match first_rejection fs with
  | Some e => Raised e
  | None =>
      match length (List.filter is_pending fs) with
      | O => Returned
      | S n => AwaitingAll (S n)
      end
  end.

(** [Promise.all] when one more of its promises settles. *)
Definition settle_one (f : CallbackFrame) (st : CallStatus) : CallStatus :=
  match st, f with
  | AwaitingAll (S O), CbFulfilled => Returned
  | AwaitingAll (S n), CbFulfilled => AwaitingAll n
  | AwaitingAll _, CbRejected e => Raised e
  | _, _ => st
  end.

Definition set_status (st : CallStatus) (c : Call) : Call :=
  {| syncResources := syncResources c;
     instantiationService := instantiationService c;
     status := st |}.

(** ** initialize and the three entry points *)

(** [initialize(syncResources, instantiationService?)] up to
    [await this.createUserDataSyncStoreClient()]. *)
Definition initialize (rs : list SyncResource)
    (inst : option IInstantiationService) (s : State) : State :=
  let s' := createUserDataSyncStoreClient s in
  set_calls (calls s' ++ [{| syncResources := rs;
                             instantiationService := inst;
                             status := AwaitingClient |}]) s'.

Definition initializeRequiredResources : State -> State :=
  initialize [Settings; GlobalState] None.

Definition initializeOtherResources : State -> State :=
  initialize [Keybindings; Snippets] None.

Definition initializeExtensions (inst : option IInstantiationService) : State -> State :=
  initialize [Extensions] inst.

(** [initialize] from the settlement of the client promise to
    [await Promise.all(...)]. *)
Definition initialize_resume (c : nat) (call : Call) (p : ClientPromise)
    (s : State) : option State :=
  match p with
  | PromisePending _ => None
  | PromiseRejected e =>
      Some (set_calls (<[c := set_status (Raised e) call]> (calls s)) s)
  | PromiseFulfilled None =>
      Some (set_calls (<[c := set_status Returned call]> (calls s)) s)
  | PromiseFulfilled (Some userDataSyncStoreClient) =>
      let '(fs, s') :=
        map_callbacks userDataSyncStoreClient (instantiationService call)
                      (syncResources call) s in
      Some (set_callbacks (callbacks s' ++ map (pair c) fs)
              (set_calls (<[c := set_status (promise_all fs) call]> (calls s')) s'))
  end.

(** One callback moves to its next frame; [Promise.all] of its call hears of it. *)
Definition callback_moves (i c : nat) (r : CallbackFrame * State) : State :=
  let '(f, s') := r in
  let cs := match calls s' !! c with
            | Some call => <[c := set_status (settle_one f (status call)) call]> (calls s')
            | None => calls s'
            end in
  set_callbacks (<[i := (c, f)]> (callbacks s')) (set_calls cs s').

(** ** The transition system *)

Inductive Event : Type :=
| CallRequired
| CallOther
| CallExtensions (inst : option IInstantiationService)
| ServicesChange (w : Services)
| AuthSettles (r : Settled (option AuthenticationSessionInfo))
| ClientResume (c : nat)
| ReadSettles (i : nat) (r : Settled IUserData)
| ApplySettles (i : nat) (r : Settled unit).

Definition step (s : State) (ev : Event) : option State :=
  match ev with
  | CallRequired => Some (initializeRequiredResources s)
  | CallOther => Some (initializeOtherResources s)
  | CallExtensions inst => Some (initializeExtensions inst s)
  | ServicesChange w => Some (set_services w s)
  | AuthSettles r =>
      match _userDataSyncStoreClientPromise s with
      | Some (PromisePending st) => Some (settle_builder st r s)
      | _ => None
      end
  | ClientResume c =>
      match calls s !! c, _userDataSyncStoreClientPromise s with
      | Some call, Some p =>
          match status call with
          | AwaitingClient => initialize_resume c call p s
          | _ => None
          end
      | _, _ => None
      end
  | ReadSettles i r =>
      match callbacks s !! i with
      | Some (c, CbAwaitsRead k initializer) =>
          Some (callback_moves i c (as_promise (callback_after_read k initializer r) s))
      | _ => None
      end
  | ApplySettles i r =>
      match callbacks s !! i with
      | Some (c, CbAwaitsApply k) =>
          Some (callback_moves i c (as_promise (callback_after_apply k r) s))
      | _ => None
      end
  end.

Fixpoint run (s : State) (evs : list Event) : option State :=
  match evs with
  | [] => Some s
  | ev :: evs' =>
      match step s ev with
      | Some s' => run s' evs'
      | None => None
      end
  end.

(** A state the process can be in: some run from a fresh service reaches it. *)
Definition reachable (s : State) : Prop :=
  ∃ w evs, run (init w) evs = Some s.

(** ** Counting what was done *)

Definition count {A} (p : A -> bool) (l : list A) : nat :=
  length (List.filter p l).

Definition is_read (k : SyncResource) (o : Obs) : bool :=
  match o with
  | RemoteRead _ k' => bool_decide (k' = k)
  | _ => false
  end.

Definition is_apply (k : SyncResource) (o : Obs) : bool :=
  match o with
  | LocalApply i _ => bool_decide (resourceOf i = k)
  | _ => false
  end.

(** Remote reads issued, and payloads handed to an initializer, for one kind. *)
Definition reads (k : SyncResource) (s : State) : nat := count (is_read k) (out s).
Definition applies (k : SyncResource) (s : State) : nat := count (is_apply k) (out s).

Definition frame_awaits_read (k : SyncResource) (f : CallbackFrame) : bool :=
  match f with
  | CbAwaitsRead k' _ => bool_decide (k' = k)
  | _ => false
  end.

Definition frame_awaits_apply (k : SyncResource) (f : CallbackFrame) : bool :=
  match f with
  | CbAwaitsApply k' => bool_decide (k' = k)
  | _ => false
  end.

(** Callbacks suspended on the read, and on the apply, of one kind. *)
Definition pendingReads (k : SyncResource) (s : State) : nat :=
  count (fun x => frame_awaits_read k x.2) (callbacks s).
Definition pendingApplies (k : SyncResource) (s : State) : nat :=
  count (fun x => frame_awaits_apply k x.2) (callbacks s).

(** Does the event settle or resume the callback in slot [i]? *)
Definition targets (i : nat) (ev : Event) : bool :=
  match ev with
  | ReadSettles i' _ | ApplySettles i' _ => bool_decide (i' = i)
  | _ => false
  end.

(** The failure an event delivers to the service, if any. *)
Definition failure_of (ev : Event) : option JsError :=
  match ev with
  | AuthSettles (Rejects e) | ReadSettles _ (Rejects e) | ApplySettles _ (Rejects e) => Some e
  | _ => None
  end.

(** The entry-point calls of a run, as the argument lists they pass on. *)
Definition call_args (ev : Event)
  : option (list SyncResource * option IInstantiationService) :=
  match ev with
  | CallRequired => Some ([Settings; GlobalState], None)
  | CallOther => Some ([Keybindings; Snippets], None)
  | CallExtensions inst => Some ([Extensions], inst)
  | _ => None
  end.

Definition call_signature (c : Call)
  : list SyncResource * option IInstantiationService :=
  (syncResources c, instantiationService c).

Definition calls_made (evs : list Event)
  : list (list SyncResource * option IInstantiationService) :=
  omap call_args evs.

(** ** The gates as the specification lists them *)

(** Steps 1 to 6 of the connection builder, in order, each with the reason it
    logs when it fails. *)
Definition gate_chain : list ((Services -> bool) * string) :=
  [ (isWeb, "Skipping initializing user data in desktop");
    (syncByDefault, "Skipping initializing user data as sync is not enabled by default");
    ((fun w => isNew w GLOBAL), "Skipping initializing user data as application was opened before");
    ((fun w => isNew w WORKSPACE), "Skipping initializing user data as workspace was opened before");
    ((fun w => bool_decide (is_Some (syncStore w))),
       "Skipping initializing user data as sync service is not provided");
    (hasCredentialsProvider,
       "Skipping initializing user data as credentials provider is not provided") ].

(** First failing check wins. *)
Definition first_failing (w : Services) : option string :=
  snd <$> List.find (fun g => negb (g.1 w)) gate_chain.

Definition gates_pass (w : Services) : bool :=
  forallb (fun g => g.1 w) gate_chain.

(** The imported calls that build the client from the store object [st] and
    the session [a], in the order the source makes them, and the exception
    of the first one that throws. *)
Definition construction (w : Services) (st : StoreRef) (a : AuthenticationSessionInfo)
  : list Imported :=
  [ URI_parse (url (stores w st));
    NewUserDataSyncStoreClient (url (stores w st));
    SetAuthToken (accessToken a) (providerId a) ].

Definition construction_error (w : Services) (st : StoreRef)
    (a : AuthenticationSessionInfo) : option JsError :=
  head (omap (throws w) (construction w st a)).

(** The client the builder returns when nothing throws. *)
Definition built_client (w : Services) (st : StoreRef) (a : AuthenticationSessionInfo)
  : UserDataSyncStoreClient :=
  {| storeUrl := url (stores w st); authToken := Some (accessToken a, providerId a) |}.

(** Whatever session arrives, the client can be built from the configured
    store. *)
Definition client_can_be_built (w : Services) : Prop :=
  ∀ st a, syncStore w = Some st → construction_error w st a = None.

(** The run of the happy-path scenario: the services keep their answers and
    the authentication provider hands out a session. *)
Definition scenario_event (ev : Event) : bool :=
  match ev with
  | ServicesChange _ => false
  | AuthSettles (Resolves (Some _)) => true
  | AuthSettles _ => false
  | _ => true
  end.

(** ** The invariant of reachable states *)

Definition settled_with_client (s : State) : Prop :=
  ∃ client, _userDataSyncStoreClientPromise s = Some (PromiseFulfilled (Some client)).

(** A kind is read at most once, only after it was marked, and every marked
    kind other than [Extensions] has been read. *)
Definition reads_sound (s : State) : Prop :=
  ∀ k, reads k s ≤ 1 ∧ (1 ≤ reads k s → k ∈ initialized s) ∧
       (k ≠ Extensions → k ∈ initialized s → reads k s = 1).

Record Inv (s : State) : Prop := {
  inv_nodup : NoDup (initialized s);
  inv_reads : reads_sound s;
  inv_pending : ∀ k, pendingReads k s + applies k s ≤ reads k s;
  inv_pending_apply : ∀ k, pendingApplies k s ≤ applies k s;
  inv_initializer : ∀ i c k ini,
    callbacks s !! i = Some (c, CbAwaitsRead k ini) → resourceOf ini = k;
  inv_calls : ∀ c call e, calls s !! c = Some call → status call = Raised e →
    _userDataSyncStoreClientPromise s = Some (PromiseRejected e);
  inv_callbacks : ∀ i c e, callbacks s !! i ≠ Some (c, CbRejected e);
  inv_client : initialized s ≠ [] → settled_with_client s;
  inv_dispatched : ∀ c call,
    calls s !! c = Some call → status call ≠ AwaitingClient →
    _userDataSyncStoreClientPromise s = Some (PromiseFulfilled None) ∨
    (∃ e, _userDataSyncStoreClientPromise s = Some (PromiseRejected e)) ∨
    (settled_with_client s ∧ ∀ k, k ∈ syncResources call → k ∈ initialized s);
  inv_origin : ∀ k, k ∈ initialized s →
    ∃ c call, calls s !! c = Some call ∧ k ∈ syncResources call
}.

(** A marked kind with no read in flight. *)
Definition quiet (k : SyncResource) (s : State) : Prop :=
  k ∈ initialized s ∧ pendingReads k s = 0.

(** The gates pass, the client can be built, and the builder has neither
    given up nor failed; while it waits for the session it holds the
    configured store. *)
Definition on_track (s : State) : Prop :=
  gates_pass (services s) = true ∧
  client_can_be_built (services s) ∧
  _userDataSyncStoreClientPromise s ≠ Some (PromiseFulfilled None) ∧
  (∀ e, _userDataSyncStoreClientPromise s ≠ Some (PromiseRejected e)) ∧
  (∀ st, _userDataSyncStoreClientPromise s = Some (PromisePending st) →
         syncStore (services s) = Some st).

(** ** Example services and runs *)

Definition web_services : Services :=
  {| isWeb := true;
     options := Some {| enableSyncByDefault := Some true;
                        credentialsProvider := Some CredentialsProvider |};
     isNew := fun _ => true;
     syncStore := Some 0;
     stores := fun _ => {| url := "https://sync.example" |};
     throws := fun _ => None |}.

Definition desktop_services : Services :=
  {| isWeb := false;
     options := options web_services;
     isNew := isNew web_services;
     syncStore := syncStore web_services;
     stores := stores web_services;
     throws := throws web_services |}.

Definition a_session : Settled (option AuthenticationSessionInfo) :=
  Resolves (Some {| accessToken := "token"; providerId := "provider" |}).

Definition a_client : UserDataSyncStoreClient :=
  {| storeUrl := "https://sync.example"; authToken := Some ("token", "provider") |}.

Definition some_data : IUserData := {| ref := "1"; content := Some "{}" |}.

(** Two startup phases ask for the required resources before the client is
    there, a third asks for the others, and they resume out of order. *)
Definition overlapping_calls : list Event :=
  [ CallRequired; CallRequired; CallOther; AuthSettles a_session;
    ClientResume 1; ClientResume 2; ClientResume 0;
    ReadSettles 1 (Rejects (Error "offline"));
    ReadSettles 0 (Resolves some_data);
    ApplySettles 0 (Rejects (Error "disk full")) ].

(** A call of [initialize] suspended at its first [await]. *)
Definition suspended_call (rs : list SyncResource)
    (inst : option IInstantiationService) : Call :=
  {| syncResources := rs; instantiationService := inst; status := AwaitingClient |}.

Definition missing_service_error : JsError :=
  Error "Instantiation Service is required to initialize extension".

(** The state in which [initializeExtensions(undefined)] is about to resume
    with the client at hand. *)
Definition awaiting_extensions : State :=
  mkState web_services [] (Some (PromiseFulfilled (Some a_client)))
          [suspended_call [Extensions] None] [] [AuthRequest].

(** A desktop session whose services later answer like a web session. *)
Definition late_web_session : list Event :=
  [ CallRequired; ServicesChange web_services; ClientResume 0;
    CallRequired; CallOther; CallExtensions (Some InstantiationService);
    ClientResume 1; ClientResume 2; ClientResume 3 ].

(** A profile that was opened before and has no sync store either: the third
    gate fails first. *)
Definition reopened_services : Services :=
  {| isWeb := true;
     options := options web_services;
     isNew := fun _ => false;
     syncStore := None;
     stores := stores web_services;
     throws := throws web_services |}.

(** The client is at hand and [initializeOtherResources] is about to resume. *)
Definition awaiting_other : State :=
  mkState web_services [] (Some (PromiseFulfilled (Some a_client)))
          [suspended_call [Keybindings; Snippets] None] [] [AuthRequest].

(** Keybindings and snippets are both being read. *)
Definition reading_other : State :=
  mkState web_services [Keybindings; Snippets]
          (Some (PromiseFulfilled (Some a_client)))
          [{| syncResources := [Keybindings; Snippets];
              instantiationService := None;
              status := AwaitingAll 2 |}]
          [(0, CbAwaitsRead Keybindings KeybindingsInitializer);
           (0, CbAwaitsRead Snippets SnippetsInitializer)]
          [AuthRequest;
           LogTrace (Area "Initializing " Keybindings ""); RemoteRead a_client Keybindings;
           LogTrace (Area "Initializing " Snippets ""); RemoteRead a_client Snippets].

(** Required then other resources on a fresh web session, resumed out of
    order, with one read failing. *)
Definition required_then_other : list Event :=
  [ CallRequired; CallOther; AuthSettles a_session;
    ClientResume 1; ClientResume 0;
    ReadSettles 0 (Resolves some_data);
    ReadSettles 3 (Rejects (Error "offline")) ].

Definition required_again : list Event :=
  [ CallRequired; ClientResume 2; ApplySettles 0 (Resolves tt) ].

(** [initializeExtensions(undefined)] on a session that passes every gate. *)
Definition extensions_without_service : list Event :=
  [ CallExtensions None; AuthSettles a_session; ClientResume 0 ].

(** ** Further bookkeeping *)

Definition is_auth (o : Obs) : bool :=
  match o with
  | AuthRequest => true
  | _ => false
  end.

(** Sessions asked of the authentication provider. *)
Definition authRequests (s : State) : nat := count is_auth (out s).

Definition owned_pending (c : nat) (x : nat * CallbackFrame) : bool :=
  bool_decide (x.1 = c) && is_pending x.2.

(** Callbacks of call [c] that have not finished. *)
Definition pendingOf (c : nat) (s : State) : nat :=
  count (owned_pending c) (callbacks s).

(** What the callbacks of one resumed call may append to the output. *)
Definition dispatch_obs (client : UserDataSyncStoreClient) (o : Obs) : Prop :=
  match o with
  | LogTrace _ | LogInfo _ | LogError _ => True
  | RemoteRead c _ => c = client
  | AuthRequest | LocalApply _ _ => False
  end.

(** [Promise.all] of every call counts exactly the callbacks it still waits
    for, and every callback belongs to a call that has resumed. *)
Record Accounted (s : State) : Prop := {
  acc_owner : ∀ i c f, callbacks s !! i = Some (c, f) →
    ∃ call, calls s !! c = Some call ∧ status call ≠ AwaitingClient;
  acc_all : ∀ c call, calls s !! c = Some call →
    match status call with
    | AwaitingAll n => n = pendingOf c s ∧ 1 ≤ n
    | Returned => pendingOf c s = 0
    | AwaitingClient | Raised _ => True
    end
}.

(** One builder run at most, one client for every read, and no kind marked
    without a read except extensions after the missing-service error. *)
Record Traced (s : State) : Prop := {
  tr_auth : authRequests s ≤ 1 ∧
            (_userDataSyncStoreClientPromise s = None → authRequests s = 0);
  tr_client : ∀ c k, RemoteRead c k ∈ out s →
    _userDataSyncStoreClientPromise s = Some (PromiseFulfilled (Some c));
  tr_callbacks : callbacks s ≠ [] → settled_with_client s;
  tr_unread : Extensions ∈ initialized s →
    reads Extensions s = 1 ∨ LogError missing_service_error ∈ out s
}.

(** The builder waits for its session on a fresh web session. *)
Definition awaiting_session : State := initializeRequiredResources (init web_services).

(** The same once the product configuration hands out another store object,
    while the object the builder holds is as it was. *)
Definition awaiting_session_elsewhere : State :=
  set_services
    {| isWeb := true;
       options := options web_services;
       isNew := isNew web_services;
       syncStore := Some 1;
       stores := fun r => match r with
                          | 0 => {| url := "https://sync.example" |}
                          | _ => {| url := "https://elsewhere.example" |}
                          end;
       throws := throws web_services |}
    awaiting_session.

(** The same once the url of the object the builder holds was assigned. *)
Definition awaiting_session_moved : State :=
  set_services
    {| isWeb := true;
       options := options web_services;
       isNew := isNew web_services;
       syncStore := Some 0;
       stores := fun _ => {| url := "https://moved.example" |};
       throws := throws web_services |}
    awaiting_session.

Definition moved_client : UserDataSyncStoreClient :=
  {| storeUrl := "https://moved.example"; authToken := Some ("token", "provider") |}.

(** A web session whose configured store url has a scheme [URI.parse]
    refuses. *)
Definition uri_error : JsError := Error "[UriError]: Scheme contains illegal characters.".

Definition malformed_store_services : Services :=
  {| isWeb := true;
     options := options web_services;
     isNew := isNew web_services;
     syncStore := Some 0;
     stores := fun _ => {| url := "sync store://example" |};
     throws := fun i => match i with
                        | URI_parse value =>
                            if String.eqb value "sync store://example"
                            then Some uri_error else None
                        | _ => None
                        end |}.

(** Both startup calls on that session, resumed once the session is there. *)
Definition malformed_store_run : list Event :=
  [ CallRequired; CallOther; AuthSettles a_session; ClientResume 0; ClientResume 1 ].

(** A second [initializeOtherResources] is suspended while the reads of the
    first are still in flight. *)
Definition other_requested_again : State := initializeOtherResources reading_other.

(** How far a state is from rest: a suspended call still has to resume and
    may start a read and an apply for each of its kinds; a callback waiting
    for its read has two settlements ahead, one waiting for its apply one. *)
Definition call_work (call : Call) : nat :=
  match status call with
  | AwaitingClient => 1 + 2 * length (syncResources call)
  | _ => 0
  end.

Definition callback_work (x : nat * CallbackFrame) : nat :=
  match x.2 with
  | CbAwaitsRead _ _ => 2
  | CbAwaitsApply _ => 1
  | CbFulfilled | CbRejected _ => 0
  end.

Definition work (s : State) : nat :=
  sum_list_with call_work (calls s) + sum_list_with callback_work (callbacks s).

(** The client of every read, in the order the reads were issued. *)
Definition read_clients (os : list Obs) : list UserDataSyncStoreClient :=
  omap (fun o => match o with RemoteRead c _ => Some c | _ => None end) os.

(** The kinds read, in the order the reads were issued. *)
Definition read_kinds (os : list Obs) : list SyncResource :=
  omap (fun o => match o with RemoteRead _ k => Some k | _ => None end) os.

(** Can [createSyncResourceInitializer] build the initializer of the kind? *)
Definition constructible (inst : option IInstantiationService) (k : SyncResource) : bool :=
  match k, inst with
  | Extensions, None => false
  | _, _ => true
  end.

Definition unmarked (s : State) (k : SyncResource) : bool :=
  negb (bool_decide (k ∈ initialized s)).

(** * BulkCellEdits

    [BulkCellEdits.apply] is one async function with one [await] per group,
    so it is embedded by passing the calls it makes to its collaborators
    along, in program order.  The notebook model service answers the n-th
    [resolve] through an oracle; a fulfilled answer is the version of the
    notebook behind the reference.  The three synchronous calls of an
    iteration ([notebook.applyEdit], [ref.dispose], [progress.report]) go
    to objects from outside and stand in no [try]: a second oracle tells
    whether the call made in the n-th iteration throws.  [groupBy] and
    [compare] are imported from other modules and stay parameters. *)

Module BulkCellEdits.

Inductive ICellEditOperation : Type := CellEditOperation (id : nat).

Inductive WorkspaceEditMetadata : Type := EditMetadata (label : string).

(** [ResourceNotebookCellEdit]; the URI is kept as its [toString()]. *)
Record ResourceNotebookCellEdit : Type := {
  resource : string;
  cellEdit : ICellEditOperation;
  versionId : option nat;
  metadata : option WorkspaceEditMetadata
}.

(** What [apply] asks of the model service, the notebook and the progress:
    the answer of a [resolve], and every synchronous call made, whether it
    returned or threw. *)
Inductive Effect : Type :=
| Resolved (uri : string) (notebookVersion : nat)
| ResolveFailed (uri : string) (e : JsError)
| ApplyEdit (uri : string) (modelVersionId : nat) (cellEdits : list ICellEditOperation)
| Dispose (uri : string)
| Report.

(** How the promise of [apply] settles: fulfilled, rejected with a thrown
    value, or rejected with the [TypeError] of reading [first.resource] when
    [const [first] = group] found the group empty. *)
Inductive Outcome : Type :=
| Done
| Failed (e : JsError)
| FailedTypeError.

(** [typeof first.versionId === 'number' &&
     ref.object.notebook.versionId !== first.versionId] *)
Definition changed (first : ResourceNotebookCellEdit) (notebookVersion : nat) : bool :=
  match versionId first with
  | Some v => negb (notebookVersion =? v)
  | None => false
  end.

Definition changed_error (first : ResourceNotebookCellEdit) : JsError :=
  Error ("Notebook '" +:+ resource first +:+ "' has changed in the meantime").

(** A synchronous call to a collaborator in the n-th iteration: when it
    throws, [apply] ends there with its exception. *)
Definition call (throws : nat -> Effect -> option JsError) (n : nat) (c : Effect)
    (then_ : Outcome * list Effect) : Outcome * list Effect :=
  match throws n c with
  | Some e => (Failed e, [c])
  | None => (then_.1, c :: then_.2)
  end.

(** The [for] loop of [apply] from its n-th iteration on. *)
Fixpoint apply_groups (resolve : nat -> string -> Settled nat)
    (throws : nat -> Effect -> option JsError) (n : nat)
    (editsByNotebook : list (list ResourceNotebookCellEdit)) : Outcome * list Effect :=
  match editsByNotebook with
  | [] => (Done, [])
  | group :: rest =>
      match group with
      | [] => (FailedTypeError, [])
      | first :: _ =>
          match resolve n (resource first) with
          | Rejects e => (Failed e, [ResolveFailed (resource first) e])
          | Resolves notebookVersion =>
              let after :=
                if changed first notebookVersion then
                  call throws n (Dispose (resource first))
                    (Failed (changed_error first), [])
                else
                  call throws n
                    (ApplyEdit (resource first) notebookVersion (map cellEdit group))
                    (call throws n (Dispose (resource first))
                       (call throws n Report
                          (apply_groups resolve throws (S n) rest)))
              in (after.1, Resolved (resource first) notebookVersion :: after.2)
          end
      end
  end.

Section Apply.
Context (groupBy : (ResourceNotebookCellEdit -> ResourceNotebookCellEdit -> Z) ->
                   list ResourceNotebookCellEdit -> list (list ResourceNotebookCellEdit))
        (compare : string -> string -> Z).

(** [apply()] on [this._edits]. *)
Definition apply (_edits : list ResourceNotebookCellEdit)
    (resolve : nat -> string -> Settled nat)
    (throws : nat -> Effect -> option JsError) : Outcome * list Effect :=
  apply_groups resolve throws 0
    (groupBy (fun a b => compare (resource a) (resource b)) _edits).

End Apply.

(** The protocol of a notebook reference, over the calls made: at most one
    is open, edits go to the open reference with the version it was resolved
    at, and [dispose] is called on it once. *)
Fixpoint well_bracketed (open : option (string * nat)) (effects : list Effect) : bool :=
  match effects with
  | [] => match open with None => true | Some _ => false end
  | Resolved uri v :: rest =>
      match open with
      | None => well_bracketed (Some (uri, v)) rest
      | Some _ => false
      end
  | ApplyEdit uri v _ :: rest =>
      match open with
      | Some (uri', v') => bool_decide (uri = uri') && (v =? v') && well_bracketed open rest
      | None => false
      end
  | Dispose uri :: rest =>
      match open with
      | Some (uri', _) => bool_decide (uri = uri') && well_bracketed None rest
      | None => false
      end
  | ResolveFailed _ _ :: rest | Report :: rest => well_bracketed open rest
  end.

(** The edits handed to a notebook, call by call. *)
Definition applied (effects : list Effect) : list (string * list ICellEditOperation) :=
  omap (fun o => match o with
                 | ApplyEdit uri _ cellEdits => Some (uri, cellEdits)
                 | _ => None
                 end) effects.

Definition reports (effects : list Effect) : nat :=
  count (fun o => match o with Report => true | _ => false end) effects.

(** What a group asks of its notebook. *)
Definition request (group : list ResourceNotebookCellEdit)
  : option (string * list ICellEditOperation) :=
  match group with
  | [] => None
  | first :: _ => Some (resource first, map cellEdit group)
  end.

(** A group [apply] can go through with, as the n-th one. *)
Definition applicable (resolve : nat -> string -> Settled nat)
    (throws : nat -> Effect -> option JsError) (n : nat)
    (group : list ResourceNotebookCellEdit) : Prop :=
  ∃ first rest v,
    group = first :: rest ∧ resolve n (resource first) = Resolves v ∧
    (versionId first = None ∨ versionId first = Some v) ∧
    throws n (ApplyEdit (resource first) v (map cellEdit group)) = None ∧
    throws n (Dispose (resource first)) = None ∧
    throws n Report = None.

Definition is_applyEdit (c : Effect) : bool :=
  match c with
  | ApplyEdit _ _ _ => true
  | _ => false
  end.

(** Examples: two edits for one notebook, the second with a stale version. *)
Definition edit_a : ResourceNotebookCellEdit :=
  {| resource := "file:///a.ipynb"; cellEdit := CellEditOperation 1;
     versionId := Some 3; metadata := None |}.

Definition edit_a_stale : ResourceNotebookCellEdit :=
  {| resource := "file:///a.ipynb"; cellEdit := CellEditOperation 2;
     versionId := Some 1; metadata := None |}.

Definition edit_a_unversioned : ResourceNotebookCellEdit :=
  {| resource := "file:///a.ipynb"; cellEdit := CellEditOperation 2;
     versionId := None; metadata := None |}.

Definition edit_b : ResourceNotebookCellEdit :=
  {| resource := "file:///b.ipynb"; cellEdit := CellEditOperation 3;
     versionId := Some 7; metadata := None |}.

Definition all_at_version_3 : nat -> string -> Settled nat := fun _ _ => Resolves 3.

Definition never_throws : nat -> Effect -> option JsError := fun _ _ => None.

(** The notebook of the second group refuses its edits. *)
Definition second_applyEdit_throws : nat -> Effect -> option JsError :=
  fun n c => match n, c with
             | 1, ApplyEdit _ _ _ => Some (Error "Invalid cell range")
             | _, _ => None
             end.

End BulkCellEdits.

(** * ConfigBasedRecommendations

    [fetch] awaits the tips of one workspace folder after the other and
    assigns the four fields of the object in its last synchronous section;
    the tips service answers the n-th request through an oracle.  A
    JavaScript [Map] keeps its keys in insertion order and [set] on a key it
    has replaces the value in place, so the two maps are association lists.
    Each function is embedded as one invocation running alone, from its call
    to the settlement of its promise: the fields it reads after an [await]
    are the ones its own fetch assigned. *)

Module ConfigBasedRecommendations.

(** [IConfigBasedExtensionTip], of which [extensionId] and [important] are read. *)
Record IConfigBasedExtensionTip : Type := {
  extensionId : string;
  important : bool
}.

Inductive ExtensionRecommendationReason : Type := WorkspaceConfig.

(** [localize(key, message)], kept unevaluated. *)
Inductive LocalizedString : Type := localize (key : string) (message : string).

Record Reason : Type := {
  reasonId : ExtensionRecommendationReason;
  reasonText : LocalizedString
}.

(** [ExtensionRecommendation]; its [extensionId] field is [extensionId'] here. *)
Record ExtensionRecommendation : Type := {
  extensionId' : string;
  source : string;
  reason : Reason
}.

Definition toExtensionRecommendation (tip : IConfigBasedExtensionTip)
  : ExtensionRecommendation :=
  {| extensionId' := extensionId tip;
     source := "config";
     reason :=
       {| reasonId := WorkspaceConfig;
          reasonText :=
            localize "exeBasedRecommendation"
              "This extension is recommended because of the current workspace configuration" |} |}.

(** [Map<string, IConfigBasedExtensionTip>] *)
Definition TipMap : Type := list (string * IConfigBasedExtensionTip).

(** [map.set(key, value)] *)
Fixpoint Map_set (key : string) (value : IConfigBasedExtensionTip) (m : TipMap) : TipMap :=
  match m with
  | [] => [(key, value)]
  | (k, v) :: m' =>
      if decide (k = key) then (key, value) :: m' else (k, v) :: Map_set key value m'
  end.

(** [map.has(key)] *)
Definition Map_has (key : string) (m : TipMap) : bool := bool_decide (key ∈ m.*1).

(** [[...map.values()]] *)
Definition Map_values (m : TipMap) : list IConfigBasedExtensionTip := m.*2.

(** The fields of the object, whether the folder listener of [doActivate] is
    registered, and how often [_onDidChangeRecommendations] has fired. *)
Record Fields : Type := mkFields {
  importantTips : list IConfigBasedExtensionTip;
  otherTips : list IConfigBasedExtensionTip;
  _otherRecommendations : list ExtensionRecommendation;
  _importantRecommendations : list ExtensionRecommendation;
  listening : bool;
  fired : nat
}.

Definition initial : Fields := mkFields [] [] [] [] false 0.

(** [get recommendations()] *)
Definition recommendations (o : Fields) : list ExtensionRecommendation :=
  _importantRecommendations o ++ _otherRecommendations o.

(** The inner loop of [fetch] over the tips of one folder. *)
Fixpoint sort_tips (configBasedTips : list IConfigBasedExtensionTip)
    (important_map other_map : TipMap) : TipMap * TipMap :=
  match configBasedTips with
  | [] => (important_map, other_map)
  | tip :: rest =>
      if important tip then
        sort_tips rest (Map_set (extensionId tip) tip important_map) other_map
      else
        sort_tips rest important_map (Map_set (extensionId tip) tip other_map)
  end.

(** The outer loop of [fetch] from its n-th folder on; a rejected request
    rejects [fetch] there and then. *)
Fixpoint collect (getConfigBasedTips : nat -> string -> Settled (list IConfigBasedExtensionTip))
    (n : nat) (folders : list string) (important_map other_map : TipMap)
  : Completion (TipMap * TipMap) :=
  match folders with
  | [] => Normal (important_map, other_map)
  | folder :: rest =>
      match getConfigBasedTips n folder with
      | Rejects e => Throws e
      | Resolves configBasedTips =>
          let '(important_map', other_map') :=
            sort_tips configBasedTips important_map other_map in
          collect getConfigBasedTips (S n) rest important_map' other_map'
      end
  end.

(** [fetch()] with the folders [getWorkspace()] answered. *)
Definition fetch (folders : list string)
    (getConfigBasedTips : nat -> string -> Settled (list IConfigBasedExtensionTip))
    (o : Fields) : Completion unit * Fields :=
  match collect getConfigBasedTips 0 folders [] [] with
  | Throws e => (Throws e, o)
  | Normal (important_map, other_map) =>
      let importantTips' := Map_values important_map in
      let otherTips' :=
        List.filter (fun tip => negb (Map_has (extensionId tip) important_map))
                    (Map_values other_map) in
      (Normal tt,
       mkFields importantTips' otherTips'
                (map toExtensionRecommendation otherTips')
                (map toExtensionRecommendation importantTips')
                (listening o) (fired o))
  end.

(** [doActivate()]: the listener is registered after the first fetch. *)
Definition doActivate (folders : list string)
    (getConfigBasedTips : nat -> string -> Settled (list IConfigBasedExtensionTip))
    (o : Fields) : Completion unit * Fields :=
  match fetch folders getConfigBasedTips o with
  | (Throws e, o') => (Throws e, o')
  | (Normal _, o') =>
      (Normal tt,
       mkFields (importantTips o') (otherTips o') (_otherRecommendations o')
                (_importantRecommendations o') true (fired o'))
  end.

(** [IWorkspaceFoldersChangeEvent], folders by their URI. *)
Record IWorkspaceFoldersChangeEvent : Type := {
  added : list string;
  removed : list string;
  changed : list string
}.

(** [this.importantTips.some(current =>
      oldImportantRecommended.every(old => current.extensionId !== old.extensionId))] *)
Definition some_new (current old : list IConfigBasedExtensionTip) : bool :=
  existsb (fun c => forallb (fun o => negb (bool_decide (extensionId c = extensionId o))) old)
          current.

(** [onWorkspaceFoldersChanged(event)] with the folders [getWorkspace()]
    answers during its fetch. *)
Definition onWorkspaceFoldersChanged (event : IWorkspaceFoldersChangeEvent)
    (folders : list string)
    (getConfigBasedTips : nat -> string -> Settled (list IConfigBasedExtensionTip))
    (o : Fields) : Completion unit * Fields :=
  match added event with
  | [] => (Normal tt, o)
  | _ :: _ =>
      let oldImportantRecommended := importantTips o in
      match fetch folders getConfigBasedTips o with
      | (Throws e, o') => (Throws e, o')
      | (Normal _, o') =>
          if some_new (importantTips o') oldImportantRecommended then
            (Normal tt,
             mkFields (importantTips o') (otherTips o') (_otherRecommendations o')
                      (_importantRecommendations o') (listening o') (S (fired o')))
          else (Normal tt, o')
      end
  end.

(** Every tip the service handed out for the folders, in the order [fetch]
    sees them. *)
Fixpoint answered (getConfigBasedTips : nat -> string -> Settled (list IConfigBasedExtensionTip))
    (n : nat) (folders : list string) : list IConfigBasedExtensionTip :=
  match folders with
  | [] => []
  | folder :: rest =>
      match getConfigBasedTips n folder with
      | Resolves tips => tips ++ answered getConfigBasedTips (S n) rest
      | Rejects _ => []
      end
  end.

(** Keys are distinct and every value sits under its own id. *)
Definition keyed (m : TipMap) : Prop :=
  NoDup m.*1 ∧ ∀ k v, (k, v) ∈ m → extensionId v = k.

(** Examples: one folder recommends an extension as important, another the
    same extension as unimportant together with a second one. *)
Definition tip_python : IConfigBasedExtensionTip :=
  {| extensionId := "ms-python.python"; important := true |}.

Definition tip_python_other : IConfigBasedExtensionTip :=
  {| extensionId := "ms-python.python"; important := false |}.

Definition tip_docker : IConfigBasedExtensionTip :=
  {| extensionId := "ms-azuretools.vscode-docker"; important := false |}.

Definition two_folders : nat -> string -> Settled (list IConfigBasedExtensionTip) :=
  fun n _ =>
    match n with
    | O => Resolves [tip_python_other; tip_docker]
    | _ => Resolves [tip_python; tip_docker]
    end.

End ConfigBasedRecommendations.

(** * Lemmas *)

(** ** Counting *)

Section Counting.
Context {A : Type} (p : A -> bool).

Lemma count_app (l l' : list A) : count p (l ++ l') = count p l + count p l'.
Proof. unfold count. by rewrite List.filter_app, length_app. Qed.

Lemma count_snoc (l : list A) (x : A) :
  count p (l ++ [x]) = count p l + (if p x then 1 else 0).
Proof. rewrite count_app. unfold count. simpl. by destruct (p x). Qed.

Lemma count_cons (l : list A) (x : A) :
  count p (x :: l) = (if p x then 1 else 0) + count p l.
Proof. unfold count. simpl. by destruct (p x). Qed.

(** Overwriting one slot trades the old element's vote for the new one's. *)
Lemma count_insert (l : list A) (i : nat) (x y : A) :
  l !! i = Some x →
  count p (<[i := y]> l) + (if p x then 1 else 0)
  = count p l + (if p y then 1 else 0).
Proof.
  revert i. induction l as [|a l IH]; intros [|i] Hi; simplify_eq/=.
  - rewrite !count_cons. lia.
  - rewrite !count_cons. specialize (IH i Hi). lia.
Qed.

Lemma count_pos_lookup (l : list A) (i : nat) (x : A) :
  l !! i = Some x → p x = true → 1 ≤ count p l.
Proof.
  revert i. induction l as [|a l IH]; intros [|i] Hi Hp; simplify_eq/=.
  - rewrite count_cons, Hp. lia.
  - rewrite count_cons. specialize (IH i Hi Hp). lia.
Qed.

End Counting.

Lemma count_map {A B} (p : B -> bool) (q : A -> bool) (f : A -> B) (l : list A) :
  (∀ a, p (f a) = q a) → count p (map f l) = count q l.
Proof.
  intros Hpq. induction l as [|a l IH]; [done|].
  simpl. rewrite !count_cons. by rewrite IH, Hpq.
Qed.

(** ** The synchronous sections, case by case *)

Lemma createUserDataSyncStoreClient_memo s p :
  _userDataSyncStoreClientPromise s = Some p →
  createUserDataSyncStoreClient s = s.
Proof. intros H. unfold createUserDataSyncStoreClient. by rewrite H. Qed.

(** What the first section of the builder does, by the first failing gate. *)
Lemma builder_start_chain s :
  match first_failing (services s) with
  | Some reason =>
      builder_start s = (Normal (BuilderReturns None), add_out (LogTrace (Text reason)) s)
  | None =>
      ∃ st, syncStore (services s) = Some st ∧
            builder_start s = (Normal (BuilderAwaitsAuth st), add_out AuthRequest s)
  end.
Proof.
  unfold first_failing, builder_start, mbind, M_bind, bind, ask, skip. simpl.
  destruct (isWeb (services s)); simpl; [|done].
  destruct (syncByDefault (services s)); simpl; [|done].
  destruct (isNew (services s) GLOBAL); simpl; [|done].
  destruct (isNew (services s) WORKSPACE); simpl; [|done].
  destruct (syncStore (services s)) as [st|] eqn:Hst; simpl; [|done].
  destruct (hasCredentialsProvider (services s)); simpl; [|done].
  eauto.
Qed.

Lemma first_failing_gates_pass w :
  first_failing w = None ↔ gates_pass w = true.
Proof.
  unfold first_failing, gates_pass, gate_chain. simpl.
  destruct (isWeb w), (syncByDefault w), (isNew w GLOBAL), (isNew w WORKSPACE),
    (bool_decide (is_Some (syncStore w))), (hasCredentialsProvider w); simpl;
    split; congruence.
Qed.

(** The three ways the first section of a callback can go. *)
Lemma callback_start_cases client inst k s :
  (k ∈ initialized s ∧
   as_promise (callback_start client inst k) s
   = (CbFulfilled, add_out (LogInfo (Area "" k " initialized already.")) s))
  ∨ ((k ∉ initialized s) ∧ (k = Extensions → inst ≠ None) ∧
     ∃ ini, resourceOf ini = k ∧
       as_promise (callback_start client inst k) s
       = (CbAwaitsRead k ini,
          add_out (RemoteRead client k)
            (add_out (LogTrace (Area "Initializing " k "")) (mark k s))))
  ∨ ((k ∉ initialized s) ∧ k = Extensions ∧ inst = None ∧
     as_promise (callback_start client inst k) s
     = (CbFulfilled,
        add_out (LogError (Error "Instantiation Service is required to initialize extension"))
          (add_out (LogInfo (Area "Error while initializing " k ""))
             (add_out (LogTrace (Area "Initializing " k "")) (mark k s))))).
Proof.
  unfold as_promise, callback_start, try_catch, mbind, M_bind, bind, includes.
  destruct (decide (k ∈ initialized s)) as [Hin|Hin].
  - left. split; [done|]. by rewrite bool_decide_eq_true_2.
  - rewrite bool_decide_eq_false_2 by done.
    destruct k; simpl;
      try (right; left; split; [done|]; split; [done|]; eexists; split; [|reflexivity]; done).
    destruct inst as [i|]; simpl.
    + right; left. split; [done|]. split; [done|]. by exists ExtensionsInitializer.
    + right; right. done.
Qed.

(** Case analysis on the callback started first in [map_callbacks (k :: rs)]. *)
Ltac callback_cases client inst k s H :=
  let f := fresh "f" in let s1 := fresh "s1" in
  let fs := fresh "fs" in let s2 := fresh "s2" in
  let E1 := fresh "E1" in let E2 := fresh "E2" in
  let Hin := fresh "Hin" in let Hok := fresh "Hok" in
  let ini := fresh "ini" in let Hini := fresh "Hini" in let E := fresh "E" in
  simpl in H;
  destruct (as_promise (callback_start client inst k) s) as [f s1] eqn:E1;
  destruct (map_callbacks client inst _ s1) as [fs s2] eqn:E2;
  injection H as <- <-;
  destruct (callback_start_cases client inst k s)
    as [(Hin & E)|[(Hin & Hok & ini & Hini & E)|(Hin & -> & -> & E)]];
  rewrite E in E1; injection E1 as <- <-.

Lemma map_callbacks_fields client inst rs s fs s' :
  map_callbacks client inst rs s = (fs, s') →
  services s' = services s ∧
  _userDataSyncStoreClientPromise s' = _userDataSyncStoreClientPromise s ∧
  calls s' = calls s ∧ callbacks s' = callbacks s ∧ length fs = length rs.
Proof.
  revert s fs s'. induction rs as [|k rs IH]; intros s fs s' H.
  - by injection H as <- <-.
  - callback_cases client inst k s H;
      destruct (IH _ _ _ E2) as (-> & -> & -> & -> & Hlen); simpl; by rewrite Hlen.
Qed.

Lemma map_callbacks_initialized client inst rs s fs s' :
  map_callbacks client inst rs s = (fs, s') →
  (∀ k, k ∈ initialized s' ↔ k ∈ initialized s ∨ k ∈ rs) ∧
  (NoDup (initialized s) → NoDup (initialized s')).
Proof.
  revert s fs s'. induction rs as [|k rs IH]; intros s fs s' H.
  - injection H as <- <-. split; [|done]. intros k. rewrite elem_of_nil. tauto.
  - callback_cases client inst k s H; destruct (IH _ _ _ E2) as [Hiff Hnd]; simpl in *.
    + split; [|done]. intros k'. rewrite Hiff, elem_of_cons.
      destruct (decide (k' = k)) as [->|]; tauto.
    + split.
      * intros k'. rewrite Hiff, elem_of_app, list_elem_of_singleton, elem_of_cons. tauto.
      * intros Hs. apply Hnd, NoDup_app. split_and!; [done| |apply NoDup_singleton].
        intros x Hx. rewrite list_elem_of_singleton. by intros ->.
    + split.
      * intros k'. rewrite Hiff, elem_of_app, list_elem_of_singleton, elem_of_cons. tauto.
      * intros Hs. apply Hnd, NoDup_app. split_and!; [done| |apply NoDup_singleton].
        intros x Hx. rewrite list_elem_of_singleton. by intros ->.
Qed.

(** Every frame the map leaves behind is finished or waits for its own read,
    and each waiting frame stands for exactly one read issued. *)
Lemma map_callbacks_out client inst rs s fs s' :
  map_callbacks client inst rs s = (fs, s') →
  (∀ k, reads k s' = reads k s + count (frame_awaits_read k) fs) ∧
  (∀ k, applies k s' = applies k s) ∧
  (∀ k, count (frame_awaits_apply k) fs = 0) ∧
  (∀ j k ini, fs !! j = Some (CbAwaitsRead k ini) → resourceOf ini = k) ∧
  first_rejection fs = None.
Proof.
  revert s fs s'. induction rs as [|k rs IH]; intros s fs s' H.
  - by injection H as <- <-.
  - callback_cases client inst k s H;
      destruct (IH _ _ _ E2) as (Hr & Ha & Hfa & Hini' & Hrej);
      (split_and!;
       [ intros k'; rewrite Hr, count_cons; unfold reads; simpl;
         rewrite ?count_snoc; simpl; lia
       | intros k'; rewrite Ha; unfold applies; simpl; rewrite ?count_snoc; simpl; lia
       | intros k'; rewrite count_cons; simpl; by rewrite Hfa
       | intros [|j] k' ini' Hj; simplify_eq/=; eauto
       | done ]).
Qed.

Lemma map_callbacks_reads_sound client inst rs s fs s' :
  map_callbacks client inst rs s = (fs, s') → reads_sound s → reads_sound s'.
Proof.
  revert s fs s'. induction rs as [|k rs IH]; intros s fs s' H Hs.
  - by injection H as <- <-.
  - callback_cases client inst k s H; apply (IH _ _ _ E2); intros k';
      destruct (Hs k') as (Hle & Hmark & Hread); unfold reads in *; simpl;
      rewrite ?count_snoc; simpl.
    + rewrite Nat.add_0_r. done.
    + rewrite Nat.add_0_r, elem_of_app, list_elem_of_singleton.
      case_bool_decide as Hk; [subst k'|].
      * assert (count (is_read k) (out s) = 0) as -> by (destruct (count (is_read k) (out s)); [done|]; exfalso; apply Hin, Hmark; lia).
        split_and!; [lia|by right|done].
      * rewrite Nat.add_0_r. split_and!; [done|by left; apply Hmark|].
        intros Hne [?|?]; [by apply Hread|done].
    + rewrite !Nat.add_0_r, elem_of_app, list_elem_of_singleton.
      split_and!; [done|by left; apply Hmark|].
      intros Hne [?|?]; [by apply Hread|done].
Qed.

Lemma callback_after_read_resolves k ini userData s :
  as_promise (callback_after_read k ini (Resolves userData)) s
  = (CbAwaitsApply k, add_out (LocalApply ini userData) s).
Proof. done. Qed.

Lemma callback_after_read_rejects k ini e s :
  as_promise (callback_after_read k ini (Rejects e)) s
  = (CbFulfilled,
     add_out (LogError e) (add_out (LogInfo (Area "Error while initializing " k "")) s)).
Proof. done. Qed.

Lemma callback_after_apply_resolves k s :
  as_promise (callback_after_apply k (Resolves tt)) s
  = (CbFulfilled, add_out (LogInfo (Area "Initialized " k "")) s).
Proof. done. Qed.

Lemma callback_after_apply_rejects k e s :
  as_promise (callback_after_apply k (Rejects e)) s
  = (CbFulfilled,
     add_out (LogError e) (add_out (LogInfo (Area "Error while initializing " k "")) s)).
Proof. done. Qed.

Lemma builder_resume_rejects st e s :
  builder_resume st (Rejects e) s
  = (Normal None,
     add_out (LogTrace (Text "Skipping initializing user data as authentication session is not set"))
       (add_out (LogError e) s)).
Proof. done. Qed.

Lemma builder_resume_no_session st s :
  builder_resume st (Resolves None) s
  = (Normal None,
     add_out (LogTrace (Text "Skipping initializing user data as authentication session is not set")) s).
Proof. done. Qed.

(** With the session at hand the builder makes its three imported calls; the
    first that throws rejects the promise, and nothing is logged. *)
Lemma builder_resume_session st a s :
  builder_resume st (Resolves (Some a)) s
  = match construction_error (services s) st a with
    | Some e => (Throws e, s)
    | None => (Normal (Some (built_client (services s) st a)), s)
    end.
Proof.
  unfold builder_resume, construction_error, construction, imported, read_url,
    try_catch, mbind, M_bind, bind, ask, throw.
  simpl.
  destruct (throws (services s) (URI_parse _)); simpl; [done|].
  destruct (throws (services s) (NewUserDataSyncStoreClient _)); simpl; [done|].
  by destruct (throws (services s) (SetAuthToken _ _)).
Qed.

Lemma settle_builder_session st a s :
  settle_builder st (Resolves (Some a)) s
  = match construction_error (services s) st a with
    | Some e => set_promise (PromiseRejected e) s
    | None => set_promise (PromiseFulfilled (Some (built_client (services s) st a))) s
    end.
Proof.
  unfold settle_builder. rewrite builder_resume_session.
  by destruct (construction_error (services s) st a).
Qed.

(** ** Runs *)

Lemma run_app s evs evs' :
  run s (evs ++ evs') = run s evs ≫= λ s', run s' evs'.
Proof.
  revert s. induction evs as [|ev evs IH]; intros s; simpl; [done|].
  destruct (step s ev); simpl; [apply IH|done].
Qed.

Lemma run_snoc s evs ev s1 s2 :
  run s evs = Some s1 → step s1 ev = Some s2 → run s (evs ++ [ev]) = Some s2.
Proof. intros H1 H2. rewrite run_app, H1. simpl. by rewrite H2. Qed.

Lemma run_invariant (P : State → Prop) :
  (∀ s ev s', P s → step s ev = Some s' → P s') →
  ∀ evs s s', P s → run s evs = Some s' → P s'.
Proof.
  intros Hstep. induction evs as [|ev evs IH]; intros s s' HP Hrun; simpl in Hrun.
  - by injection Hrun as <-.
  - destruct (step s ev) as [s1|] eqn:E; [|done]. eauto.
Qed.

Lemma reachable_init w : reachable (init w).
Proof. by exists w, []. Qed.

Lemma reachable_run s evs s' : reachable s → run s evs = Some s' → reachable s'.
Proof.
  intros (w & evs0 & H0) H. exists w, (evs0 ++ evs). rewrite run_app, H0. done.
Qed.

Lemma reachable_step s ev s' : reachable s → step s ev = Some s' → reachable s'.
Proof. intros Hs H. apply (reachable_run s [ev]); [done|]. simpl. by rewrite H. Qed.

(** ** The invariant holds in every reachable state *)

Lemma createUserDataSyncStoreClient_effect s :
  services (createUserDataSyncStoreClient s) = services s ∧
  initialized (createUserDataSyncStoreClient s) = initialized s ∧
  calls (createUserDataSyncStoreClient s) = calls s ∧
  callbacks (createUserDataSyncStoreClient s) = callbacks s ∧
  (∀ k, reads k (createUserDataSyncStoreClient s) = reads k s) ∧
  (∀ k, applies k (createUserDataSyncStoreClient s) = applies k s) ∧
  match _userDataSyncStoreClientPromise s with
  | Some p => createUserDataSyncStoreClient s = s
  | None =>
      (∃ st, _userDataSyncStoreClientPromise (createUserDataSyncStoreClient s)
             = Some (PromisePending st)) ∨
      _userDataSyncStoreClientPromise (createUserDataSyncStoreClient s)
      = Some (PromiseFulfilled None)
  end.
Proof.
  unfold createUserDataSyncStoreClient.
  destruct (_userDataSyncStoreClientPromise s) as [p|] eqn:Hp.
  { done. }
  pose proof (builder_start_chain s) as H.
  destruct (first_failing (services s)) as [reason|].
  - rewrite H. simpl. split_and!; try done.
    + intros k. unfold reads. simpl. rewrite count_snoc. simpl. lia.
    + intros k. unfold applies. simpl. rewrite count_snoc. simpl. lia.
    + by right.
  - destruct H as (st & _ & ->). simpl. split_and!; try done.
    + intros k. unfold reads. simpl. rewrite count_snoc. simpl. lia.
    + intros k. unfold applies. simpl. rewrite count_snoc. simpl. lia.
    + left. by exists st.
Qed.

Lemma Inv_init w : Inv (init w).
Proof.
  split; simpl; try done.
  - apply NoDup_nil_2.
  - intros k. unfold reads, count. simpl. split_and!; [lia|lia|]. by intros _ ?%elem_of_nil.
  - intros k ?%elem_of_nil. done.
Qed.

Lemma Inv_initialize rs inst s : Inv s → Inv (initialize rs inst s).
Proof.
  intros [Hnd Hr Hp Hpa Hini Hcalls Hcbs Hcl Hdisp Horig].
  unfold initialize.
  destruct (createUserDataSyncStoreClient_effect s)
    as (Hsv & Hi & Hc & Hcb & Hrd & Hap & Hmemo).
  set (s1 := createUserDataSyncStoreClient s) in *.
  split; simpl.
  - by rewrite Hi.
  - intros k. unfold reads in *. simpl. rewrite Hrd, Hi. apply Hr.
  - intros k. unfold pendingReads, applies, reads in *. simpl.
    rewrite Hcb, Hrd, Hap. apply Hp.
  - intros k. unfold pendingApplies, applies in *. simpl. rewrite Hcb, Hap. apply Hpa.
  - rewrite Hcb. apply Hini.
  - intros c call e [Hl|[_ Hl]]%lookup_app_Some Hst.
    + rewrite Hc in Hl. pose proof (Hcalls _ _ _ Hl Hst) as E. rewrite E in Hmemo.
      simpl in Hmemo. by rewrite Hmemo.
    + destruct (c - length (calls s1)); by simplify_eq/=.
  - rewrite Hcb. apply Hcbs.
  - rewrite Hi. intros Hne. destruct (Hcl Hne) as [client E]. rewrite E in Hmemo.
    simpl in Hmemo. rewrite Hmemo. by exists client.
  - intros c call [Hl|[_ Hl]]%lookup_app_Some Hst.
    + rewrite Hc in Hl. destruct (Hdisp _ _ Hl Hst) as [E|[[e E]|[[client E] Hsub]]].
      * left. rewrite E in Hmemo. simpl in Hmemo. by rewrite Hmemo.
      * right; left. rewrite E in Hmemo. simpl in Hmemo. rewrite Hmemo. by exists e.
      * right; right. rewrite E in Hmemo. simpl in Hmemo. rewrite Hmemo.
        split; [by exists client|]. done.
    + destruct (c - length (calls s1)); by simplify_eq/=.
  - rewrite Hi, Hc. intros k Hk. destruct (Horig k Hk) as (c & call & Hl & Hin).
    exists c, call. split; [|done]. by apply lookup_app_l_Some.
Qed.

Lemma Inv_services w s : Inv s → Inv (set_services w s).
Proof. intros []. by split. Qed.

Lemma Inv_settle_builder st r s :
  Inv s → _userDataSyncStoreClientPromise s = Some (PromisePending st) →
  Inv (settle_builder st r s).
Proof.
  intros [Hnd Hr Hp Hpa Hini Hcalls Hcbs Hcl Hdisp Horig] Hpend.
  assert (initialized s = []) as Hnil.
  { destruct (initialized s) eqn:E; [done|].
    destruct Hcl as [client Hc]; [done|]. congruence. }
  assert (∀ c call, calls s !! c = Some call → status call = AwaitingClient) as Hwait.
  { intros c call Hl. destruct (status call) eqn:Est; [done|exfalso..];
      (destruct (Hdisp _ _ Hl) as [E|[[e' E]|[[client E] _]]];
       [by rewrite Est|congruence..]). }
  unfold settle_builder.
  destruct r as [[a|]|e];
    rewrite ?builder_resume_session, ?builder_resume_no_session, ?builder_resume_rejects;
    try destruct (construction_error (services s) st a);
    (split; simpl;
     [ done
     | intros k; destruct (Hr k); unfold reads in *; simpl; rewrite ?count_snoc; simpl;
       rewrite ?Nat.add_0_r; done
     | intros k; specialize (Hp k); unfold pendingReads, applies, reads in *; simpl;
       rewrite ?count_snoc; simpl; lia
     | intros k; specialize (Hpa k); unfold pendingApplies, applies in *; simpl;
       rewrite ?count_snoc; simpl; lia
     | done
     | intros c call e' Hl Hst; by rewrite (Hwait _ _ Hl) in Hst
     | done
     | by rewrite Hnil
     | intros c call Hl Hst; by rewrite (Hwait _ _ Hl) in Hst
     | done ]).
Qed.

Lemma lookup_set_status (cs : list Call) c call st c' call' :
  cs !! c = Some call →
  <[c := set_status st call]> cs !! c' = Some call' →
  (c' = c ∧ call' = set_status st call) ∨ (c' ≠ c ∧ cs !! c' = Some call').
Proof.
  intros Hc Hl. destruct (decide (c = c')) as [<-|Hne].
  - rewrite list_lookup_insert_eq in Hl by eauto using lookup_lt_Some. left. by simplify_eq.
  - rewrite list_lookup_insert_ne in Hl by done. right. done.
Qed.

Lemma lookup_set_status_args (cs : list Call) c call st c' call0 :
  cs !! c = Some call → cs !! c' = Some call0 →
  ∃ call', <[c := set_status st call]> cs !! c' = Some call' ∧
           syncResources call' = syncResources call0.
Proof.
  intros Hc Hl. destruct (decide (c = c')) as [<-|Hne].
  - exists (set_status st call). rewrite list_lookup_insert_eq by eauto using lookup_lt_Some.
    by simplify_eq.
  - exists call0. by rewrite list_lookup_insert_ne.
Qed.

Lemma first_rejection_None fs :
  first_rejection fs = None → ∀ j e, fs !! j ≠ Some (CbRejected e).
Proof.
  induction fs as [|f fs IH]; intros H [|j] e; try done.
  - destruct f; simplify_eq/=; done.
  - simpl. apply IH. by destruct f.
Qed.

Lemma promise_all_not_raised fs e :
  first_rejection fs = None → promise_all fs ≠ Raised e.
Proof. intros H. unfold promise_all. rewrite H. by destruct (length _). Qed.

Lemma promise_all_dispatched fs : promise_all fs ≠ AwaitingClient.
Proof. unfold promise_all. destruct (first_rejection fs); [done|]. by destruct (length _). Qed.

Lemma Inv_initialize_resume c call p s s' :
  Inv s → calls s !! c = Some call → _userDataSyncStoreClientPromise s = Some p →
  initialize_resume c call p s = Some s' → Inv s'.
Proof.
  intros [Hnd Hr Hp Hpa Hini Hcalls Hcbs Hcl Hdisp Horig] Hc Hpr H.
  destruct p as [st|[client|]|e]; simpl in H; [done| | |].
  - destruct (map_callbacks client (instantiationService call) (syncResources call) s)
      as [fs s1] eqn:E.
    injection H as <-.
    destruct (map_callbacks_fields _ _ _ _ _ _ E) as (Hsv & Hpm & Hcs & Hcb & Hlen).
    destruct (map_callbacks_initialized _ _ _ _ _ _ E) as (Hiff & Hnd').
    destruct (map_callbacks_out _ _ _ _ _ _ E) as (Hrd & Hap & Hfa & Hfi & Hrej).
    pose proof (map_callbacks_reads_sound _ _ _ _ _ _ E Hr) as Hr'.
    split; simpl.
    + by apply Hnd'.
    + intros k. destruct (Hr' k). unfold reads in *. done.
    + intros k. specialize (Hp k). specialize (Hrd k). specialize (Hap k).
      unfold pendingReads, applies, reads in *. simpl.
      rewrite Hcb, count_app, (count_map _ (frame_awaits_read k)) by done. lia.
    + intros k. specialize (Hpa k). specialize (Hfa k). specialize (Hap k).
      unfold pendingApplies, applies in *. simpl.
      rewrite Hcb, count_app, (count_map _ (frame_awaits_apply k)) by done. lia.
    + rewrite Hcb. intros i c' k ini [Hl|[_ Hl]]%lookup_app_Some; [eauto|].
      rewrite list_lookup_fmap in Hl.
      destruct (fs !! (i - length (callbacks s))) as [f|] eqn:Ef; simplify_eq/=. eauto.
    + rewrite Hcs, Hpm. intros c' call' e Hl Hst.
      destruct (lookup_set_status _ _ _ _ _ _ Hc Hl) as [[-> ->]|[_ Hl']]; [|eauto].
      simpl in Hst. by apply promise_all_not_raised in Hst.
    + rewrite Hcb. intros i c' e [Hl|[_ Hl]]%lookup_app_Some; [by eapply Hcbs|].
      rewrite list_lookup_fmap in Hl.
      destruct (fs !! (i - length (callbacks s))) as [f|] eqn:Ef; simplify_eq/=.
      by eapply first_rejection_None.
    + intros _. exists client. simpl. by rewrite Hpm.
    + rewrite Hcs. intros c' call' Hl Hst. right; right.
      split; [exists client; simpl; by rewrite Hpm|].
      destruct (lookup_set_status _ _ _ _ _ _ Hc Hl) as [[-> ->]|[_ Hl']]; simpl.
      * intros k Hk. apply Hiff. by right.
      * destruct (Hdisp _ _ Hl' Hst) as [E'|[[e E']|[_ Hsub]]]; [congruence..|].
        intros k Hk. apply Hiff. left. by apply Hsub.
    + rewrite Hcs. intros k [Hk|Hk]%Hiff.
      * destruct (Horig k Hk) as (c' & call0 & Hl & Hin).
        destruct (lookup_set_status_args _ _ _ (promise_all fs) _ _ Hc Hl)
          as (call' & Hl' & Hargs).
        exists c', call'. by rewrite Hargs.
      * exists c, (set_status (promise_all fs) call). split; [|done].
        apply list_lookup_insert_eq. eauto using lookup_lt_Some.
  - injection H as <-. split; simpl; try done.
    + intros c' call' e Hl Hst.
      destruct (lookup_set_status _ _ _ _ _ _ Hc Hl) as [[-> ->]|[_ Hl']]; [done|eauto].
    + intros c' call' Hl Hst. by left.
    + intros k Hk. destruct (Horig k Hk) as (c' & call0 & Hl & Hin).
      destruct (lookup_set_status_args _ _ _ Returned _ _ Hc Hl) as (call' & Hl' & Hargs).
      exists c', call'. by rewrite Hargs.
  - injection H as <-. split; simpl; try done.
    + intros c' call' e' Hl Hst.
      destruct (lookup_set_status _ _ _ _ _ _ Hc Hl) as [[-> ->]|[_ Hl']]; [|eauto].
      simpl in Hst. congruence.
    + intros c' call' Hl Hst. right; left. by exists e.
    + intros k Hk. destruct (Horig k Hk) as (c' & call0 & Hl & Hin).
      destruct (lookup_set_status_args _ _ _ (Raised e) _ _ Hc Hl) as (call' & Hl' & Hargs).
      exists c', call'. by rewrite Hargs.
Qed.

Lemma settle_one_raised f st e :
  settle_one f st = Raised e → st = Raised e ∨ f = CbRejected e.
Proof.
  destruct st as [|[|[|n]]| |e']; destruct f; simpl; intros; simplify_eq; auto.
Qed.

Lemma settle_one_dispatched f st :
  settle_one f st ≠ AwaitingClient → st ≠ AwaitingClient.
Proof. by destruct st. Qed.

(** A callback that moves on from its [await]: the state [s1] its section
    leaves differs from [s] only in the output, and the slot [i] and the
    [Promise.all] of call [c] are updated. *)
Lemma Inv_callback_moves s s1 i c f0 f :
  Inv s → callbacks s !! i = Some (c, f0) →
  services s1 = services s → initialized s1 = initialized s →
  _userDataSyncStoreClientPromise s1 = _userDataSyncStoreClientPromise s →
  calls s1 = calls s → callbacks s1 = callbacks s →
  (∀ k, reads k s1 = reads k s) →
  (∀ k, applies k s1 ≤ applies k s + (if frame_awaits_read k f0 then 1 else 0)) →
  (∀ k, (if frame_awaits_apply k f then 1 else 0) + applies k s
        ≤ applies k s1 + (if frame_awaits_apply k f0 then 1 else 0)) →
  (∀ k, frame_awaits_read k f = false) → (∀ e, f ≠ CbRejected e) →
  Inv (callback_moves i c (f, s1)).
Proof.
  intros [Hnd Hr Hp Hpa Hini Hcalls Hcbs Hcl Hdisp Horig]
    Hi Hsv Hin Hpm Hcs Hcb Hrd Hap1 Hap2 Hnr Hnj.
  unfold callback_moves.
  set (cs := match calls s1 !! c with
             | Some call => <[c:=set_status (settle_one f (status call)) call]> (calls s1)
             | None => calls s1
             end).
  assert (∀ c' call', cs !! c' = Some call' →
            ∃ call0, calls s !! c' = Some call0 ∧
                     syncResources call' = syncResources call0 ∧
                     (status call' = status call0 ∨
                      status call' = settle_one f (status call0))) as Hback.
  { intros c' call' Hl. subst cs. rewrite Hcs in Hl.
    destruct (calls s !! c) as [call|] eqn:Ec; [|eauto].
    destruct (lookup_set_status _ _ _ _ _ _ Ec Hl) as [[-> ->]|[_ Hl']]; eauto. }
  assert (∀ c' call0, calls s !! c' = Some call0 →
            ∃ call', cs !! c' = Some call' ∧
                     syncResources call' = syncResources call0) as Hforth.
  { intros c' call0 Hl. subst cs. rewrite Hcs.
    destruct (calls s !! c) as [call|] eqn:Ec; [|eauto].
    eapply lookup_set_status_args; eauto. }
  clearbody cs.
  split; simpl.
  - by rewrite Hin.
  - intros k. destruct (Hr k). specialize (Hrd k). unfold reads in *. simpl.
    by rewrite Hin, Hrd.
  - intros k. specialize (Hp k). specialize (Hrd k). specialize (Hap1 k).
    pose proof (count_insert (λ x, frame_awaits_read k x.2) _ _ _ (c, f) Hi) as Hcount.
    simpl in Hcount. rewrite Hnr in Hcount.
    unfold pendingReads, applies, reads in *. simpl. rewrite Hcb. lia.
  - intros k. specialize (Hpa k). specialize (Hap2 k).
    pose proof (count_insert (λ x, frame_awaits_apply k x.2) _ _ _ (c, f) Hi) as Hcount.
    simpl in Hcount.
    unfold pendingApplies, applies in *. simpl. rewrite Hcb. lia.
  - rewrite Hcb. intros i' c' k ini Hl.
    destruct (decide (i = i')) as [<-|Hne].
    + rewrite list_lookup_insert_eq in Hl by eauto using lookup_lt_Some.
      simplify_eq. specialize (Hnr k). simpl in Hnr. by rewrite bool_decide_eq_true_2 in Hnr.
    + rewrite list_lookup_insert_ne in Hl by done. eauto.
  - rewrite Hpm. intros c' call' e Hl Hst.
    destruct (Hback _ _ Hl) as (call0 & Hl0 & _ & [E|E]).
    + rewrite E in Hst. by eapply Hcalls.
    + rewrite E in Hst. apply settle_one_raised in Hst as [Hst|Hst]; [by eapply Hcalls|].
      by destruct (Hnj e).
  - rewrite Hcb. intros i' c' e Hl.
    destruct (decide (i = i')) as [<-|Hne].
    + rewrite list_lookup_insert_eq in Hl by eauto using lookup_lt_Some.
      simplify_eq. by eapply Hnj.
    + rewrite list_lookup_insert_ne in Hl by done. by eapply Hcbs.
  - rewrite Hin. intros Hne. destruct (Hcl Hne) as [client E]. exists client. simpl. congruence.
  - intros c' call' Hl Hst. destruct (Hback _ _ Hl) as (call0 & Hl0 & Hargs & Hstat).
    assert (status call0 ≠ AwaitingClient) as Hst0.
    { destruct Hstat as [E|E]; rewrite E in Hst; [done|by eapply settle_one_dispatched]. }
    rewrite Hpm, Hin, Hargs.
    destruct (Hdisp _ _ Hl0 Hst0) as [E|[[e E]|[[client E] Hsub]]];
      [by left|right; left; by exists e|right; right].
    split; [|done]. exists client. simpl. congruence.
  - rewrite Hin. intros k Hk. destruct (Horig k Hk) as (c' & call0 & Hl & Hk').
    destruct (Hforth _ _ Hl) as (call' & Hl' & Hargs). exists c', call'. by rewrite Hargs.
Qed.

Lemma Inv_step s ev s' : Inv s → step s ev = Some s' → Inv s'.
Proof.
  intros HI H. destruct ev as [| |inst|w|r|c|i r|i r]; simpl in H.
  - injection H as <-. by apply Inv_initialize.
  - injection H as <-. by apply Inv_initialize.
  - injection H as <-. by apply Inv_initialize.
  - injection H as <-. by apply Inv_services.
  - destruct (_userDataSyncStoreClientPromise s) as [[st| |]|] eqn:E; try done.
    injection H as <-. by apply Inv_settle_builder.
  - destruct (calls s !! c) as [call|] eqn:Ec; [|done].
    destruct (_userDataSyncStoreClientPromise s) as [p|] eqn:Ep; [|done].
    destruct (status call); try done. by eapply Inv_initialize_resume.
  - destruct (callbacks s !! i) as [[c [k ini| | |]]|] eqn:Ei; try done.
    injection H as <-.
    pose proof (inv_initializer s HI _ _ _ _ Ei) as Hk.
    destruct r as [userData|e].
    + rewrite callback_after_read_resolves.
      eapply Inv_callback_moves; try done; simpl.
      * intros k'. unfold reads. simpl. rewrite count_snoc. simpl. lia.
      * intros k'. unfold applies. simpl. rewrite count_snoc. simpl. rewrite Hk. lia.
      * intros k'. unfold applies. simpl. rewrite count_snoc. simpl. rewrite Hk.
        repeat case_bool_decide; simplify_eq; lia.
    + rewrite callback_after_read_rejects.
      eapply Inv_callback_moves; try done; simpl.
      * intros k'. unfold reads. simpl. rewrite !count_snoc. simpl. lia.
      * intros k'. unfold applies. simpl. rewrite !count_snoc. simpl. lia.
      * intros k'. unfold applies. simpl. rewrite !count_snoc. simpl. lia.
  - destruct (callbacks s !! i) as [[c [|k| |]]|] eqn:Ei; try done.
    injection H as <-.
    destruct r as [[]|e].
    + rewrite callback_after_apply_resolves.
      eapply Inv_callback_moves; try done; simpl.
      * intros k'. unfold reads. simpl. rewrite !count_snoc. simpl. lia.
      * intros k'. unfold applies. simpl. rewrite !count_snoc. simpl. lia.
      * intros k'. unfold applies. simpl. rewrite !count_snoc. simpl. lia.
    + rewrite callback_after_apply_rejects.
      eapply Inv_callback_moves; try done; simpl.
      * intros k'. unfold reads. simpl. rewrite !count_snoc. simpl. lia.
      * intros k'. unfold applies. simpl. rewrite !count_snoc. simpl. lia.
      * intros k'. unfold applies. simpl. rewrite !count_snoc. simpl. lia.
Qed.

Lemma reachable_Inv s : reachable s → Inv s.
Proof.
  intros (w & evs & H). eapply (run_invariant Inv); [apply Inv_step|apply Inv_init|done].
Qed.

(** ** What one transition can and cannot change *)

(** Case analysis on an enabled transition. *)
Ltac step_cases H :=
  match type of H with
  | step ?s ?ev = Some _ =>
      destruct ev as [| |xinst|xw|xr|xc|xi xr|xi xr]; simpl in H;
      [ injection H as <-
      | injection H as <-
      | injection H as <-
      | injection H as <-
      | destruct (_userDataSyncStoreClientPromise s) as [[xst| |]|] eqn:Hpromise;
        try done; injection H as <-
      | destruct (calls s !! xc) as [xcall|] eqn:Hcall; [|done];
        destruct (_userDataSyncStoreClientPromise s) as [xp|] eqn:Hpromise; [|done];
        destruct (status xcall) eqn:Hstatus; try done
      | destruct (callbacks s !! xi) as [[xc [xk xini| | |]]|] eqn:Hslot;
        try done; injection H as <-
      | destruct (callbacks s !! xi) as [[xc [|xk| |]]|] eqn:Hslot;
        try done; injection H as <- ]
  end.

Lemma settle_builder_fields st r s :
  initialized (settle_builder st r s) = initialized s ∧
  callbacks (settle_builder st r s) = callbacks s ∧
  calls (settle_builder st r s) = calls s ∧
  (∀ k, reads k (settle_builder st r s) = reads k s) ∧
  (∀ k, applies k (settle_builder st r s) = applies k s).
Proof.
  destruct r as [[a|]|e];
    [rewrite settle_builder_session; destruct (construction_error (services s) st a)
    |unfold settle_builder..];
    simpl; split_and!; try done;
    intros k; unfold reads, applies; simpl; rewrite ?count_snoc; simpl; lia.
Qed.

Lemma callback_moves_fields i c f s1 :
  initialized (callback_moves i c (f, s1)) = initialized s1 ∧
  _userDataSyncStoreClientPromise (callback_moves i c (f, s1))
  = _userDataSyncStoreClientPromise s1 ∧
  callbacks (callback_moves i c (f, s1)) = <[i := (c, f)]> (callbacks s1) ∧
  out (callback_moves i c (f, s1)) = out s1.
Proof. done. Qed.

(** The output only grows, so the number of reads never goes down. *)
Lemma step_reads_mono s ev s' k :
  step s ev = Some s' → reads k s ≤ reads k s'.
Proof.
  intros H. step_cases H.
  - destruct (createUserDataSyncStoreClient_effect s) as (_ & _ & _ & _ & Hrd & _).
    unfold initializeRequiredResources, initialize, reads in *. simpl. by rewrite <- Hrd.
  - destruct (createUserDataSyncStoreClient_effect s) as (_ & _ & _ & _ & Hrd & _).
    unfold initializeOtherResources, initialize, reads in *. simpl. by rewrite <- Hrd.
  - destruct (createUserDataSyncStoreClient_effect s) as (_ & _ & _ & _ & Hrd & _).
    unfold initializeExtensions, initialize, reads in *. simpl. by rewrite <- Hrd.
  - done.
  - destruct (settle_builder_fields xst xr s) as (_ & _ & _ & Hrd & _). by rewrite Hrd.
  - destruct xp as [?|[client|]|e]; simpl in H; [done| |by injection H as <-..].
    destruct (map_callbacks _ _ _ s) as [fs s1] eqn:E. injection H as <-.
    destruct (map_callbacks_out _ _ _ _ _ _ E) as (Hrd & _).
    specialize (Hrd k). unfold reads in *. simpl. lia.
  - destruct xr as [userData|e]; unfold reads; simpl; rewrite !count_snoc; lia.
  - destruct xr as [[]|e]; unfold reads; simpl; rewrite !count_snoc; lia.
Qed.

Lemma run_reads_mono evs s s' k :
  run s evs = Some s' → reads k s ≤ reads k s'.
Proof.
  revert s. induction evs as [|ev evs IH]; intros s H; simpl in H.
  - by injection H as <-.
  - destruct (step s ev) as [s1|] eqn:E; [|done].
    pose proof (step_reads_mono _ _ _ k E). specialize (IH _ H). lia.
Qed.

(** Once the client promise is fulfilled, nothing assigns the field again. *)
Lemma step_promise_settled s ev s' oc :
  _userDataSyncStoreClientPromise s = Some (PromiseFulfilled oc) →
  step s ev = Some s' →
  _userDataSyncStoreClientPromise s' = Some (PromiseFulfilled oc).
Proof.
  intros Hp H. step_cases H; try done.
  - unfold initializeRequiredResources, initialize.
    by rewrite (createUserDataSyncStoreClient_memo _ _ Hp).
  - unfold initializeOtherResources, initialize.
    by rewrite (createUserDataSyncStoreClient_memo _ _ Hp).
  - unfold initializeExtensions, initialize.
    by rewrite (createUserDataSyncStoreClient_memo _ _ Hp).
  - injection Hp as ->. destruct oc as [client|]; simpl in H; [|by injection H as <-].
    destruct (map_callbacks _ _ _ s) as [fs s1] eqn:E. injection H as <-.
    destruct (map_callbacks_fields _ _ _ _ _ _ E) as (_ & Hpm & _). simpl. congruence.
  - by destruct xr.
  - by destruct xr as [[]|].
Qed.

Lemma run_promise_settled evs s s' oc :
  _userDataSyncStoreClientPromise s = Some (PromiseFulfilled oc) →
  run s evs = Some s' →
  _userDataSyncStoreClientPromise s' = Some (PromiseFulfilled oc).
Proof.
  intros Hp H.
  by apply (run_invariant
              (λ s, _userDataSyncStoreClientPromise s = Some (PromiseFulfilled oc))
              (λ s ev s', step_promise_settled s ev s' oc) evs s s').
Qed.

(** Nor does anything assign it once it is rejected. *)
Lemma step_promise_rejected s ev s' e :
  _userDataSyncStoreClientPromise s = Some (PromiseRejected e) →
  step s ev = Some s' →
  _userDataSyncStoreClientPromise s' = Some (PromiseRejected e).
Proof.
  intros Hp H. step_cases H; try done.
  - unfold initializeRequiredResources, initialize.
    by rewrite (createUserDataSyncStoreClient_memo _ _ Hp).
  - unfold initializeOtherResources, initialize.
    by rewrite (createUserDataSyncStoreClient_memo _ _ Hp).
  - unfold initializeExtensions, initialize.
    by rewrite (createUserDataSyncStoreClient_memo _ _ Hp).
  - injection Hp as ->. simpl in H. by injection H as <-.
  - by destruct xr.
  - by destruct xr as [[]|].
Qed.

Lemma run_promise_rejected evs s s' e :
  _userDataSyncStoreClientPromise s = Some (PromiseRejected e) →
  run s evs = Some s' →
  _userDataSyncStoreClientPromise s' = Some (PromiseRejected e).
Proof.
  intros Hp H.
  by apply (run_invariant
              (λ s, _userDataSyncStoreClientPromise s = Some (PromiseRejected e))
              (λ s ev s', step_promise_rejected s ev s' e) evs s s').
Qed.

(** The one transition that rejects the client promise: a session arrives
    and one of the imported calls that build the client throws. *)
Lemma step_rejects s ev s' e :
  (∀ e0, _userDataSyncStoreClientPromise s ≠ Some (PromiseRejected e0)) →
  step s ev = Some s' →
  _userDataSyncStoreClientPromise s' = Some (PromiseRejected e) →
  ∃ a st, ev = AuthSettles (Resolves (Some a)) ∧
    _userDataSyncStoreClientPromise s = Some (PromisePending st) ∧
    construction_error (services s) st a = Some e.
Proof.
  intros Hno H Hp.
  assert (∀ rs inst, _userDataSyncStoreClientPromise (initialize rs inst s)
                     ≠ Some (PromiseRejected e)) as Hentry.
  { intros rs inst. unfold initialize. simpl.
    destruct (createUserDataSyncStoreClient_effect s) as (_ & _ & _ & _ & _ & _ & Hmemo).
    destruct (_userDataSyncStoreClientPromise s) as [p|] eqn:E.
    - rewrite Hmemo, E. apply Hno.
    - destruct Hmemo as [[st ->]| ->]; done. }
  step_cases H; try (by destruct (Hentry _ _ Hp)); try (by destruct (Hno e)).
  - destruct xr as [[a|]|e0]; [|done..].
    rewrite settle_builder_session in Hp.
    destruct (construction_error (services s) xst a) as [e0|] eqn:E; [|done].
    simpl in Hp. injection Hp as ->. by exists a, xst.
  - destruct xp as [?|[client|]|e0]; simpl in H; [done| | |].
    + destruct (map_callbacks _ _ _ s) as [fs s1] eqn:E. injection H as <-.
      destruct (map_callbacks_fields _ _ _ _ _ _ E) as (_ & Hpm & _).
      simpl in Hp. congruence.
    + injection H as <-. simpl in Hp. congruence.
    + by destruct (Hno e0).
  - destruct xr; simpl in Hp; by destruct (Hno e).
  - destruct xr as [[]|]; simpl in Hp; by destruct (Hno e).
Qed.

(** So a rejected client promise goes back to one point of the run. *)
Lemma run_rejects evs s s' e :
  (∀ e0, _userDataSyncStoreClientPromise s ≠ Some (PromiseRejected e0)) →
  run s evs = Some s' →
  _userDataSyncStoreClientPromise s' = Some (PromiseRejected e) →
  ∃ evs1 a evs2 s1 st,
    evs = evs1 ++ AuthSettles (Resolves (Some a)) :: evs2 ∧
    run s evs1 = Some s1 ∧
    _userDataSyncStoreClientPromise s1 = Some (PromisePending st) ∧
    construction_error (services s1) st a = Some e.
Proof.
  revert s. induction evs as [|ev evs IH]; intros s Hno H Hp; simpl in H.
  - injection H as <-. by destruct (Hno e).
  - destruct (step s ev) as [s1|] eqn:E; [|done].
    destruct (_userDataSyncStoreClientPromise s1) as [[st| |e1]|] eqn:E1.
    + destruct (IH s1) as (evs1 & a & evs2 & s2 & st' & -> & Hrun & Hpend & Hc);
        [congruence|done|done|].
      exists (ev :: evs1), a, evs2, s2, st'. simpl. by rewrite E.
    + destruct (IH s1) as (evs1 & a & evs2 & s2 & st' & -> & Hrun & Hpend & Hc);
        [congruence|done|done|].
      exists (ev :: evs1), a, evs2, s2, st'. simpl. by rewrite E.
    + pose proof (run_promise_rejected _ _ _ _ E1 H) as Hp'.
      assert (e1 = e) as -> by congruence.
      destruct (step_rejects _ _ _ _ Hno E E1) as (a & st & -> & Hpend & Hc).
      by exists [], a, evs, s, st.
    + destruct (IH s1) as (evs1 & a & evs2 & s2 & st' & -> & Hrun & Hpend & Hc);
        [congruence|done|done|].
      exists (ev :: evs1), a, evs2, s2, st'. simpl. by rewrite E.
Qed.

(** Without a client no transition reads. *)
Lemma step_absent_no_read s ev s' k :
  _userDataSyncStoreClientPromise s = Some (PromiseFulfilled None) →
  reads k s = 0 → step s ev = Some s' → reads k s' = 0.
Proof.
  intros Hp H0 H. step_cases H; try congruence.
  - unfold initializeRequiredResources, initialize.
    by rewrite (createUserDataSyncStoreClient_memo _ _ Hp).
  - unfold initializeOtherResources, initialize.
    by rewrite (createUserDataSyncStoreClient_memo _ _ Hp).
  - unfold initializeExtensions, initialize.
    by rewrite (createUserDataSyncStoreClient_memo _ _ Hp).
  - done.
  - injection Hp as ->. simpl in H. by injection H as <-.
  - destruct xr as [userData|e]; unfold reads in *; simpl; rewrite !count_snoc; simpl; lia.
  - destruct xr as [[]|e]; unfold reads in *; simpl; rewrite !count_snoc; simpl; lia.
Qed.

(** A slot of the callback table changes only when an event targets it. *)
Lemma step_slot_untouched s ev s' i x :
  targets i ev = false → callbacks s !! i = Some x → step s ev = Some s' →
  callbacks s' !! i = Some x.
Proof.
  intros Ht Hx H. step_cases H; try done.
  - unfold initializeRequiredResources, initialize. simpl.
    by destruct (createUserDataSyncStoreClient_effect s) as (_ & _ & _ & -> & _).
  - unfold initializeOtherResources, initialize. simpl.
    by destruct (createUserDataSyncStoreClient_effect s) as (_ & _ & _ & -> & _).
  - unfold initializeExtensions, initialize. simpl.
    by destruct (createUserDataSyncStoreClient_effect s) as (_ & _ & _ & -> & _).
  - by destruct (settle_builder_fields xst xr s) as (_ & -> & _).
  - destruct xp as [?|[client|]|e]; simpl in H; [done| |by injection H as <-..].
    destruct (map_callbacks _ _ _ s) as [fs s1] eqn:E. injection H as <-.
    destruct (map_callbacks_fields _ _ _ _ _ _ E) as (_ & _ & _ & Hcb & _).
    simpl. rewrite Hcb. by apply lookup_app_l_Some.
  - simpl in Ht. apply bool_decide_eq_false in Ht.
    destruct xr; simpl; by rewrite list_lookup_insert_ne.
  - simpl in Ht. apply bool_decide_eq_false in Ht.
    destruct xr as [[]|]; simpl; by rewrite list_lookup_insert_ne.
Qed.

Lemma run_slot_untouched evs s s' i x :
  forallb (λ ev, negb (targets i ev)) evs = true →
  callbacks s !! i = Some x → run s evs = Some s' → callbacks s' !! i = Some x.
Proof.
  revert s. induction evs as [|ev evs IH]; intros s Ht Hx H; simpl in *.
  - by injection H as <-.
  - apply andb_true_iff in Ht as [Ht1 Ht2]. apply negb_true_iff in Ht1.
    destruct (step s ev) as [s1|] eqn:E; [|done].
    eauto using step_slot_untouched.
Qed.

(** A kind already marked starts no new read. *)
Lemma map_callbacks_marked client inst rs s fs s' k :
  map_callbacks client inst rs s = (fs, s') → k ∈ initialized s →
  count (frame_awaits_read k) fs = 0.
Proof.
  revert s fs s'. induction rs as [|k0 rs IH]; intros s fs s' H Hk.
  - by injection H as <- <-.
  - callback_cases client inst k0 s H; rewrite count_cons; simpl.
    + by apply (IH _ _ _ E2).
    + rewrite bool_decide_eq_false_2 by (by intros ->).
      apply (IH _ _ _ E2). simpl. apply elem_of_app. by left.
    + apply (IH _ _ _ E2). simpl. apply elem_of_app. by left.
Qed.

(** A marked kind with no read in flight is never read or applied again. *)
Lemma step_quiet s ev s' k :
  Inv s → quiet k s → step s ev = Some s' →
  quiet k s' ∧ reads k s' = reads k s ∧ applies k s' = applies k s.
Proof.
  intros HI [Hk H0] H. unfold quiet. step_cases H.
  - destruct (createUserDataSyncStoreClient_effect s) as (_ & Hi & _ & Hcb & Hrd & Hap & _).
    unfold initializeRequiredResources, initialize, pendingReads, reads, applies in *.
    simpl. by rewrite Hi, Hcb, <- Hrd, <- Hap.
  - destruct (createUserDataSyncStoreClient_effect s) as (_ & Hi & _ & Hcb & Hrd & Hap & _).
    unfold initializeOtherResources, initialize, pendingReads, reads, applies in *.
    simpl. by rewrite Hi, Hcb, <- Hrd, <- Hap.
  - destruct (createUserDataSyncStoreClient_effect s) as (_ & Hi & _ & Hcb & Hrd & Hap & _).
    unfold initializeExtensions, initialize, pendingReads, reads, applies in *.
    simpl. by rewrite Hi, Hcb, <- Hrd, <- Hap.
  - done.
  - destruct (settle_builder_fields xst xr s) as (Hi & Hcb & _ & Hrd & Hap).
    unfold pendingReads. by rewrite Hi, Hcb, Hrd, Hap.
  - destruct xp as [?|[client|]|e]; simpl in H; [done| |by injection H as <-..].
    destruct (map_callbacks _ _ _ s) as [fs s1] eqn:E. injection H as <-.
    destruct (map_callbacks_fields _ _ _ _ _ _ E) as (_ & _ & _ & Hcb & _).
    destruct (map_callbacks_initialized _ _ _ _ _ _ E) as (Hiff & _).
    destruct (map_callbacks_out _ _ _ _ _ _ E) as (Hrd & Hap & _).
    pose proof (map_callbacks_marked _ _ _ _ _ _ _ E Hk) as Hnone.
    specialize (Hrd k). specialize (Hap k).
    unfold pendingReads, reads, applies in *. simpl.
    rewrite Hcb, count_app, (count_map _ (frame_awaits_read k)) by done.
    split_and!; [apply Hiff; by left|lia..].
  - assert (xk ≠ k) as Hne.
    { intros ->. unfold pendingReads in H0.
      pose proof (count_pos_lookup (λ x, frame_awaits_read k x.2) _ _ _ Hslot) as Hpos.
      simpl in Hpos. rewrite bool_decide_eq_true_2 in Hpos by done.
      specialize (Hpos eq_refl). lia. }
    pose proof (inv_initializer s HI _ _ _ _ Hslot) as Hini.
    pose proof (count_insert (λ x, frame_awaits_read k x.2) _ _ _
                  (xc, match xr with Resolves _ => CbAwaitsApply xk | Rejects _ => CbFulfilled end)
                  Hslot) as Hcount.
    simpl in Hcount. rewrite bool_decide_eq_false_2 in Hcount by done.
    destruct xr as [userData|e]; simpl in *;
      unfold pendingReads, reads, applies in *; simpl; rewrite ?count_snoc; simpl;
      rewrite ?Hini, ?(bool_decide_eq_false_2 (xk = k)) by done;
      rewrite H0 in Hcount; split_and!; first [done|lia].
  - pose proof (count_insert (λ x, frame_awaits_read k x.2) _ _ _ (xc, CbFulfilled) Hslot)
      as Hcount.
    simpl in Hcount.
    destruct xr as [[]|e]; simpl in *;
      unfold pendingReads, reads, applies in *; simpl; rewrite ?count_snoc; simpl;
      rewrite H0 in Hcount; split_and!; first [done|lia].
Qed.

Lemma run_quiet evs s s' k :
  Inv s → quiet k s → run s evs = Some s' →
  quiet k s' ∧ reads k s' = reads k s ∧ applies k s' = applies k s.
Proof.
  revert s. induction evs as [|ev evs IH]; intros s HI Hq H; simpl in H.
  - by injection H as <-.
  - destruct (step s ev) as [s1|] eqn:E; [|done].
    destruct (step_quiet _ _ _ _ HI Hq E) as (Hq1 & Hr1 & Ha1).
    destruct (IH s1 (Inv_step _ _ _ HI E) Hq1 H) as (Hq' & Hr' & Ha').
    split_and!; [done|congruence..].
Qed.

(** ** Calls made and calls recorded *)

Lemma map_signature_set_status (cs : list Call) c call st :
  cs !! c = Some call →
  map call_signature (<[c := set_status st call]> cs) = map call_signature cs.
Proof.
  revert c. induction cs as [|a cs IH]; intros [|c] Hc; simplify_eq/=; [done|].
  f_equal. by apply IH.
Qed.

Lemma callback_moves_signatures i c r s :
  calls r.2 = calls s →
  map call_signature (calls (callback_moves i c r)) = map call_signature (calls s).
Proof.
  destruct r as [f s1]. simpl. intros ->.
  destruct (calls s !! c) as [call|] eqn:E; [|done].
  by apply map_signature_set_status.
Qed.

Lemma step_signatures s ev s' :
  step s ev = Some s' →
  map call_signature (calls s')
  = map call_signature (calls s) ++ option_list (call_args ev).
Proof.
  intros H. step_cases H; simpl; rewrite ?app_nil_r; try done.
  - destruct (createUserDataSyncStoreClient_effect s) as (_ & _ & -> & _).
    by rewrite map_app.
  - destruct (createUserDataSyncStoreClient_effect s) as (_ & _ & -> & _).
    by rewrite map_app.
  - destruct (createUserDataSyncStoreClient_effect s) as (_ & _ & -> & _).
    by rewrite map_app.
  - by destruct (settle_builder_fields xst xr s) as (_ & _ & -> & _).
  - destruct xp as [?|[client|]|e]; simpl in H; [done| |injection H as <-..]; simpl;
      [|by apply map_signature_set_status..].
    destruct (map_callbacks _ _ _ s) as [fs s1] eqn:E. injection H as <-.
    destruct (map_callbacks_fields _ _ _ _ _ _ E) as (_ & _ & Hcs & _).
    simpl. rewrite Hcs. by apply map_signature_set_status.
  - by destruct xr; apply callback_moves_signatures.
  - by destruct xr as [[]|]; apply callback_moves_signatures.
Qed.

Lemma run_signatures evs s s' :
  run s evs = Some s' →
  map call_signature (calls s') = map call_signature (calls s) ++ calls_made evs.
Proof.
  revert s. induction evs as [|ev evs IH]; intros s H; simpl in H.
  - injection H as <-. by rewrite app_nil_r.
  - destruct (step s ev) as [s1|] eqn:E; [|done].
    rewrite (IH _ H), (step_signatures _ _ _ E), <- app_assoc. f_equal.
    unfold calls_made. simpl. by destruct (call_args ev).
Qed.

(** ** The happy-path scenario *)

Lemma createUserDataSyncStoreClient_on_track s :
  on_track s → on_track (createUserDataSyncStoreClient s).
Proof.
  intros (Hg & Hbuilt & Hp & Hrej & Hpend). unfold on_track.
  destruct (createUserDataSyncStoreClient_effect s) as (Hsv & _ & _ & _ & _ & _ & Hmemo).
  rewrite Hsv. split; [done|]. split; [done|].
  destruct (_userDataSyncStoreClientPromise s) as [p|] eqn:E.
  - simpl in Hmemo. by rewrite Hmemo, E.
  - unfold createUserDataSyncStoreClient. rewrite E.
    pose proof (builder_start_chain s) as Hb.
    apply first_failing_gates_pass in Hg. rewrite Hg in Hb.
    destruct Hb as (st & Hst & ->). simpl. split_and!; [done..|].
    intros st' Hst'. by injection Hst' as <-.
Qed.

Lemma step_on_track s ev s' :
  scenario_event ev = true → on_track s → step s ev = Some s' → on_track s'.
Proof.
  intros Hev Hs H. step_cases H; try done.
  - by apply createUserDataSyncStoreClient_on_track in Hs.
  - by apply createUserDataSyncStoreClient_on_track in Hs.
  - by apply createUserDataSyncStoreClient_on_track in Hs.
  - destruct Hs as (Hg & Hbuilt & _ & _ & Hpend).
    destruct xr as [[a|]|e]; try done.
    rewrite settle_builder_session, (Hbuilt xst a (Hpend xst Hpromise)).
    by split_and!.
  - destruct Hs as (Hg & Hbuilt & Hp & Hrej & Hpend).
    destruct xp as [?|[client|]|e]; simpl in H; [done| |done|by destruct (Hrej e)].
    destruct (map_callbacks _ _ _ s) as [fs s1] eqn:E. injection H as <-.
    destruct (map_callbacks_fields _ _ _ _ _ _ E) as (Hsv & Hpm & _).
    unfold on_track. simpl. rewrite ?Hsv, ?Hpm. by split_and!.
  - by destruct xr.
  - by destruct xr as [[]|].
Qed.

Lemma run_on_track evs s s' :
  forallb scenario_event evs = true → on_track s → run s evs = Some s' → on_track s'.
Proof.
  revert s. induction evs as [|ev evs IH]; intros s Hev Hs H; simpl in *.
  - by injection H as <-.
  - apply andb_true_iff in Hev as [Hev1 Hev2].
    destruct (step s ev) as [s1|] eqn:E; [|done].
    eauto using step_on_track.
Qed.

(** * The claims *)

(** C1: over every sequence of entry-point calls and every interleaving of
    their resumptions, each resource kind is read from the remote store at
    most once; the mechanism is that a callback suspended on its read has
    already put its kind in [initialized], in the section that issued the
    read. *)
Theorem each_kind_read_at_most_once w evs s :
  run (init w) evs = Some s →
  (∀ k, reads k s ≤ 1) ∧
  (∀ i c k ini, callbacks s !! i = Some (c, CbAwaitsRead k ini) → k ∈ initialized s) ∧
  (∀ client inst k f s1,
     as_promise (callback_start client inst k) s = (f, s1) →
     k ∈ initialized s1 ∧ (reads k s < reads k s1 → k ∉ initialized s)).
Proof.
  intros H. assert (Inv s) as HI by (apply reachable_Inv; by exists w, evs).
  split_and!.
  - intros k. by destruct (inv_reads s HI k).
  - intros i c k ini Hl.
    destruct (inv_reads s HI k) as (_ & Hmark & _). apply Hmark.
    pose proof (inv_pending s HI k) as Hp.
    pose proof (count_pos_lookup (λ x, frame_awaits_read k x.2) _ _ _ Hl) as Hpos.
    simpl in Hpos. rewrite bool_decide_eq_true_2 in Hpos by done.
    specialize (Hpos eq_refl). unfold pendingReads in Hp. lia.
  - intros client inst k f s1 E.
    destruct (callback_start_cases client inst k s)
      as [(Hin & E')|[(Hin & _ & ini & _ & E')|(Hin & _ & _ & E')]];
      rewrite E' in E; injection E as <- <-; simpl.
    + split; [done|]. unfold reads. simpl. rewrite count_snoc. simpl. lia.
    + split; [|done]. apply elem_of_app. right. by apply list_elem_of_singleton.
    + split; [|done]. apply elem_of_app. right. by apply list_elem_of_singleton.
Qed.

Lemma each_kind_read_at_most_once_witness :
  ∃ s, run (init web_services) overlapping_calls = Some s ∧ ∀ k, reads k s ≤ 1.
Proof.
  eexists. split.
  - vm_compute. reflexivity.
  - apply (each_kind_read_at_most_once web_services overlapping_calls). vm_compute. reflexivity.
Defined.

(** C10: [initialized] never holds a kind twice; a callback pushes its kind
    only when [includes] has just answered false, in the same section. *)
Theorem initialized_has_no_duplicates w evs s :
  run (init w) evs = Some s →
  NoDup (initialized s) ∧
  (∀ client inst k f s1,
     as_promise (callback_start client inst k) s = (f, s1) →
     initialized s1 = initialized s ∨
     ((k ∉ initialized s) ∧ initialized s1 = initialized s ++ [k])).
Proof.
  intros H. assert (Inv s) as HI by (apply reachable_Inv; by exists w, evs).
  split; [apply HI|].
  intros client inst k f s1 E.
  destruct (callback_start_cases client inst k s)
    as [(Hin & E')|[(Hin & _ & ini & _ & E')|(Hin & _ & _ & E')]];
    rewrite E' in E; injection E as <- <-; simpl; auto.
Qed.

Lemma initialized_has_no_duplicates_witness :
  ∃ s, run (init web_services) overlapping_calls = Some s ∧ NoDup (initialized s).
Proof.
  eexists. split.
  - vm_compute. reflexivity.
  - apply (initialized_has_no_duplicates web_services overlapping_calls). vm_compute. reflexivity.
Defined.

(** C3 as stated does not hold: on a web session whose store url [URI.parse]
    refuses, the builder throws once the session is there, the client
    promise is rejected, and the call of [initializeRequiredResources]
    rejects with the parser's exception. *)
Lemma initialize_raises_on_malformed_store_url :
  ∃ s call,
    run (init malformed_store_services) malformed_store_run = Some s ∧
    calls s !! 0 = Some call ∧
    syncResources call = [Settings; GlobalState] ∧
    status call = Raised uri_error ∧
    _userDataSyncStoreClientPromise s = Some (PromiseRejected uri_error).
Proof.
  eexists. eexists. split; [vm_compute; reflexivity|].
  split; [reflexivity|]. done.
Qed.

(** C3 (amended): a call of [initialize] rejects the promise its caller holds
    in one case only: the session has arrived and one of the imported calls
    that build the client ([URI.parse], the client constructor,
    [setAuthToken]) has thrown; the exception is the one that call threw,
    the client promise is rejected with it, and every call that resumes
    afterwards rejects with it too.  No callback ever rejects, and a failure
    delivered by the authentication provider, the remote read or the local
    apply ends up in the log. *)
Theorem initialize_raises_only_construction_errors w evs s :
  run (init w) evs = Some s →
  (∀ c call e, calls s !! c = Some call → status call = Raised e →
     _userDataSyncStoreClientPromise s = Some (PromiseRejected e) ∧
     ∃ evs1 a evs2 s1 st,
       evs = evs1 ++ AuthSettles (Resolves (Some a)) :: evs2 ∧
       run (init w) evs1 = Some s1 ∧
       _userDataSyncStoreClientPromise s1 = Some (PromisePending st) ∧
       construction_error (services s1) st a = Some e) ∧
  (∀ st a e, _userDataSyncStoreClientPromise s = Some (PromisePending st) →
     construction_error (services s) st a = Some e →
     ∃ s1, step s (AuthSettles (Resolves (Some a))) = Some s1 ∧ out s1 = out s ∧
       ∀ evs' s2 c call, run s1 evs' = Some s2 →
         calls s2 !! c = Some call → status call = AwaitingClient →
         ∃ s3, step s2 (ClientResume c) = Some s3 ∧
               calls s3 !! c = Some (set_status (Raised e) call) ∧ out s3 = out s2) ∧
  (∀ i c e, callbacks s !! i ≠ Some (c, CbRejected e)) ∧
  (∀ ev s' e, step s ev = Some s' → failure_of ev = Some e → LogError e ∈ out s').
Proof.
  intros H. assert (Inv s) as HI by (apply reachable_Inv; by exists w, evs).
  split_and!; [| |apply HI|].
  - intros c call e Hc Hst. pose proof (inv_calls s HI c call e Hc Hst) as Hp.
    split; [done|]. by apply (run_rejects evs (init w) s e).
  - intros st a e Hp Hc. eexists. split; [simpl; rewrite Hp; reflexivity|].
    rewrite settle_builder_session, Hc. split; [done|].
    intros evs' s2 c call Hrun Hl Hst.
    assert (_userDataSyncStoreClientPromise s2 = Some (PromiseRejected e)) as Hp2.
    { by apply (run_promise_rejected evs' (set_promise (PromiseRejected e) s)). }
    simpl. rewrite Hl, Hp2, Hst. simpl. eexists. split; [reflexivity|]. simpl.
    split; [|done]. apply list_lookup_insert_eq. eauto using lookup_lt_Some.
  - intros ev s' e Hs Hf. step_cases Hs; try done.
    + destruct xr as [?|e']; [done|]. injection Hf as ->.
      unfold settle_builder. rewrite builder_resume_rejects. simpl.
      rewrite !elem_of_app, !list_elem_of_singleton. auto.
    + destruct xr as [?|e']; [done|]. injection Hf as ->. simpl.
      rewrite !elem_of_app, !list_elem_of_singleton. auto.
    + destruct xr as [?|e']; [done|]. injection Hf as ->. simpl.
      rewrite !elem_of_app, !list_elem_of_singleton. auto.
Qed.

Lemma initialize_raises_only_construction_errors_witness :
  ∃ s, run (init malformed_store_services) malformed_store_run = Some s ∧
       ∀ c call e, calls s !! c = Some call → status call = Raised e →
         _userDataSyncStoreClientPromise s = Some (PromiseRejected e).
Proof.
  eexists. split.
  - vm_compute. reflexivity.
  - match goal with
    | |- ∀ c call e, calls ?s !! c = _ → _ =>
        assert (run (init malformed_store_services) malformed_store_run = Some s) as Hrun
          by (vm_compute; reflexivity)
    end.
    intros c call e Hc Hst.
    exact (proj1 (proj1 (initialize_raises_only_construction_errors _ _ _ Hrun)
                    c call e Hc Hst)).
Defined.

(** Resuming a call that asked for a single kind. *)
Lemma resume_single s c call client k :
  calls s !! c = Some call → status call = AwaitingClient →
  syncResources call = [k] →
  _userDataSyncStoreClientPromise s = Some (PromiseFulfilled (Some client)) →
  step s (ClientResume c)
  = Some (let '(f, s1) := as_promise (callback_start client (instantiationService call) k) s in
          set_callbacks (callbacks s1 ++ [(c, f)])
            (set_calls (<[c := set_status (promise_all [f]) call]> (calls s1)) s1)).
Proof.
  intros Hc Hst Hrs Hp. simpl. rewrite Hc, Hp, Hst. simpl. rewrite Hrs. simpl.
  by destruct (as_promise _ s).
Qed.

(** C2 as stated does not hold: the run [extensions_without_service] ends with
    the call returned to its caller and the missing-service error in the log,
    so no error reaches the caller of [initializeExtensions]. *)
Lemma initializeExtensions_without_service_returns :
  ∃ s call,
    run (init web_services) extensions_without_service = Some s ∧
    calls s !! 0 = Some call ∧
    syncResources call = [Extensions] ∧ instantiationService call = None ∧
    status call = Returned ∧ (∀ e, status call ≠ Raised e) ∧
    LogError missing_service_error ∈ out s.
Proof.
  eexists. eexists. split; [vm_compute; reflexivity|].
  split; [reflexivity|]. simpl. split_and!; try done.
  rewrite !elem_of_cons. auto 10.
Qed.

(** C2 (amended): [initializeExtensions] without an instantiation service
    does not raise the missing-service error to its caller.  The call
    suspends like any other.  When it resumes with a client, the error
    thrown by [createSyncResourceInitializer] is caught and logged and the
    call returns; with no client it returns at once; and when the client
    promise was rejected it is rejected with the error of that promise, as
    every call is, without marking or logging anything.  In no case is a
    remote read issued. *)
Theorem initializeExtensions_without_service_absorbed s c p :
  calls s !! c = Some (suspended_call [Extensions] None) →
  _userDataSyncStoreClientPromise s = Some p →
  (∀ st, p ≠ PromisePending st) →
  (∀ s0, ∃ s0', step s0 (CallExtensions None) = Some s0' ∧
       calls s0' = calls s0 ++ [suspended_call [Extensions] None] ∧
       ∀ k, reads k s0' = reads k s0) ∧
  ∃ s', step s (ClientResume c) = Some s' ∧
    calls s' !! c
    = Some (set_status match p with PromiseRejected e => Raised e | _ => Returned end
                       (suspended_call [Extensions] None)) ∧
    (∀ k, reads k s' = reads k s) ∧
    (∀ client, p = PromiseFulfilled (Some client) → Extensions ∉ initialized s →
       initialized s' = initialized s ++ [Extensions] ∧
       out s' = out s ++ [ LogTrace (Area "Initializing " Extensions "");
                           LogInfo (Area "Error while initializing " Extensions "");
                           LogError missing_service_error ]) ∧
    (∀ e, p = PromiseRejected e → initialized s' = initialized s ∧ out s' = out s).
Proof.
  intros Hc Hp Hsettled. split.
  { intros s0. eexists. split; [reflexivity|].
    destruct (createUserDataSyncStoreClient_effect s0) as (_ & _ & Hcs & _ & Hrd & _).
    unfold initializeExtensions, initialize. simpl. rewrite Hcs. split; [done|].
    intros k. by rewrite <- Hrd. }
  assert (c < length (calls s)) as Hlt by eauto using lookup_lt_Some.
  destruct p as [st|[client|]|e]; [by destruct (Hsettled st)| | |].
  - rewrite (resume_single s c _ client Extensions Hc) by done.
    destruct (callback_start_cases client None Extensions s)
      as [(Hin & E)|[(Hin & Hok & _)|(Hin & _ & _ & E)]]; [|by destruct Hok|];
      simpl instantiationService; rewrite E; eexists; (split; [reflexivity|]); simpl.
    + rewrite list_lookup_insert_eq by done. split_and!; [done| |done|done].
      intros k. unfold reads. simpl. rewrite count_snoc. simpl. lia.
    + rewrite list_lookup_insert_eq by done. split_and!; [done| | |done].
      * intros k. unfold reads. simpl. rewrite !count_snoc. simpl. lia.
      * intros _ _ _. split; [done|]. by rewrite <- !app_assoc.
  - simpl. rewrite Hc, Hp. simpl. eexists. split; [reflexivity|]. simpl.
    rewrite list_lookup_insert_eq by done. done.
  - simpl. rewrite Hc, Hp. simpl. eexists. split; [reflexivity|]. simpl.
    rewrite list_lookup_insert_eq by done. done.
Qed.

Lemma initializeExtensions_without_service_absorbed_witness :
  ∃ s', step awaiting_extensions (ClientResume 0) = Some s' ∧
        calls s' !! 0 = Some (set_status Returned (suspended_call [Extensions] None)) ∧
        ∀ k, reads k s' = reads k awaiting_extensions.
Proof.
  destruct (initializeExtensions_without_service_absorbed
              awaiting_extensions 0 (PromiseFulfilled (Some a_client)) eq_refl eq_refl)
    as (_ & s' & Hs & Hc & Hr & _).
  - intros st H. discriminate H.
  - exists s'. split_and!; assumption.
Defined.

(** What resuming [initializeExtensions(undefined)] with a client does when
    extensions are not marked yet. *)
Lemma initializeExtensions_marks s c client :
  calls s !! c = Some (suspended_call [Extensions] None) →
  _userDataSyncStoreClientPromise s = Some (PromiseFulfilled (Some client)) →
  Extensions ∉ initialized s →
  ∃ s1, step s (ClientResume c) = Some s1 ∧
    initialized s1 = initialized s ++ [Extensions] ∧
    callbacks s1 = callbacks s ++ [(c, CbFulfilled)] ∧
    out s1 = out s ++ [ LogTrace (Area "Initializing " Extensions "");
                        LogInfo (Area "Error while initializing " Extensions "");
                        LogError missing_service_error ].
Proof.
  intros Hc Hp Hnot.
  rewrite (resume_single s c _ client Extensions Hc) by done.
  destruct (callback_start_cases client None Extensions s)
    as [(Hin & _)|[(_ & Hok & _)|(_ & _ & _ & E)]]; [done|by destruct Hok|].
  simpl instantiationService. rewrite E. eexists. split; [reflexivity|]. simpl.
  split_and!; [done..|]. by rewrite <- !app_assoc.
Qed.

(** C9: when [initializeExtensions] resumes without an instantiation service
    and with the client at hand, [Extensions] is pushed before the initializer
    is built, so it stays marked: nothing that happens later, a call with a
    valid instantiation service included, reads or applies extensions; such a
    call only logs that they are initialized already. *)
Theorem extensions_marked_despite_missing_service s c client :
  reachable s →
  calls s !! c = Some (suspended_call [Extensions] None) →
  _userDataSyncStoreClientPromise s = Some (PromiseFulfilled (Some client)) →
  Extensions ∉ initialized s →
  ∃ s1, step s (ClientResume c) = Some s1 ∧
    initialized s1 = initialized s ++ [Extensions] ∧
    ∀ evs s2, run s1 evs = Some s2 →
      reads Extensions s2 = 0 ∧ applies Extensions s2 = 0 ∧
      ∀ c' inst, calls s2 !! c' = Some (suspended_call [Extensions] (Some inst)) →
        ∃ s3, step s2 (ClientResume c') = Some s3 ∧
              out s3 = out s2 ++ [LogInfo (Area "" Extensions " initialized already.")] ∧
              reads Extensions s3 = 0 ∧ applies Extensions s3 = 0.
Proof.
  intros Hreach Hc Hp Hnot.
  pose proof (reachable_Inv _ Hreach) as HI.
  destruct (initializeExtensions_marks s c client Hc Hp Hnot) as (s1 & Hstep & Hini & Hcb & Hout).
  exists s1. split_and!; [done..|].
  assert (reads Extensions s = 0) as Hr0.
  { destruct (inv_reads s HI Extensions) as (_ & Hmark & _).
    destruct (reads Extensions s); [done|]. destruct Hnot. apply Hmark. lia. }
  assert (pendingReads Extensions s = 0 ∧ applies Extensions s = 0) as [Hp0 Ha0].
  { pose proof (inv_pending s HI Extensions). lia. }
  assert (Inv s1) as HI1 by eauto using Inv_step.
  assert (quiet Extensions s1) as Hq1.
  { split.
    - rewrite Hini. apply elem_of_app. right. by apply list_elem_of_singleton.
    - unfold pendingReads in *. rewrite Hcb, count_snoc. simpl. lia. }
  assert (reads Extensions s1 = 0 ∧ applies Extensions s1 = 0) as [Hr1 Ha1].
  { unfold reads, applies in *. rewrite Hout, !count_app. unfold count at 2 4. simpl. lia. }
  intros evs s2 Hrun.
  destruct (run_quiet _ _ _ _ HI1 Hq1 Hrun) as ([Hin2 Hp2] & Hr2 & Ha2).
  split_and!; [lia..|].
  intros c' inst Hc'.
  assert (_userDataSyncStoreClientPromise s2 = Some (PromiseFulfilled (Some client))) as Hp2'.
  { eapply run_promise_settled; [|done]. by eapply step_promise_settled. }
  rewrite (resume_single s2 c' _ client Extensions Hc') by done.
  destruct (callback_start_cases client (Some inst) Extensions s2)
    as [(_ & E)|[(Hin & _)|(Hin & _)]]; [|done..].
  simpl instantiationService. rewrite E. eexists. split; [reflexivity|]. simpl.
  split; [done|]. unfold reads, applies in *. simpl. rewrite !count_snoc. simpl. lia.
Qed.

Lemma awaiting_extensions_reachable : reachable awaiting_extensions.
Proof. exists web_services, [CallExtensions None; AuthSettles a_session]. reflexivity. Qed.

Lemma extensions_marked_despite_missing_service_witness :
  ∃ s1, step awaiting_extensions (ClientResume 0) = Some s1 ∧
        initialized s1 = [Extensions] ∧
        ∀ evs s2, run s1 evs = Some s2 → reads Extensions s2 = 0.
Proof.
  destruct (extensions_marked_despite_missing_service awaiting_extensions 0 a_client
              awaiting_extensions_reachable eq_refl eq_refl (not_elem_of_nil Extensions))
    as (s1 & Hs & Hi & Hlater).
  exists s1. split_and!; [assumption..|].
  intros evs s2 Hrun. exact (proj1 (Hlater evs s2 Hrun)).
Defined.

(** C4: the client promise is assigned once.  While the field is set, a call
    neither runs a gate nor asks for a session nor logs; a fulfilled promise
    keeps its value, absent or not, whatever happens next; and when the
    builder has given up, no kind is ever read, not even after the services
    change their answers. *)
Theorem client_promise_is_memoized s :
  reachable s →
  (∀ p rs inst, _userDataSyncStoreClientPromise s = Some p →
     createUserDataSyncStoreClient s = s ∧
     out (initialize rs inst s) = out s ∧
     _userDataSyncStoreClientPromise (initialize rs inst s) = Some p) ∧
  (∀ oc evs s', _userDataSyncStoreClientPromise s = Some (PromiseFulfilled oc) →
     run s evs = Some s' →
     _userDataSyncStoreClientPromise s' = Some (PromiseFulfilled oc)) ∧
  (_userDataSyncStoreClientPromise s = None → gates_pass (services s) = false →
   ∀ rs inst, _userDataSyncStoreClientPromise (initialize rs inst s)
              = Some (PromiseFulfilled None)) ∧
  (_userDataSyncStoreClientPromise s = Some (PromiseFulfilled None) →
   ∀ evs s', run s evs = Some s' → ∀ k, reads k s' = 0).
Proof.
  intros Hreach. pose proof (reachable_Inv _ Hreach) as HI. split_and!.
  - intros p rs inst Hp. unfold initialize.
    rewrite (createUserDataSyncStoreClient_memo _ _ Hp). done.
  - intros oc evs s' Hp Hrun. by eapply run_promise_settled.
  - intros Hp Hg rs inst. unfold initialize, createUserDataSyncStoreClient. rewrite Hp.
    pose proof (builder_start_chain s) as Hb.
    destruct (first_failing (services s)) as [reason|] eqn:E.
    + by rewrite Hb.
    + apply first_failing_gates_pass in E. congruence.
  - intros Hp evs s' Hrun k.
    assert (reads k s = 0) as H0.
    { destruct (inv_reads s HI k) as (_ & Hmark & _).
      destruct (reads k s) eqn:E; [done|].
      destruct (inv_client s HI) as [client Hc]; [|congruence].
      intros Hnil. rewrite Hnil in Hmark. eapply not_elem_of_nil, Hmark. lia. }
    apply (run_invariant
             (λ s, _userDataSyncStoreClientPromise s = Some (PromiseFulfilled None) ∧
                   reads k s = 0)) with (evs := evs) (s := s) (s' := s'); [|done..].
    intros s1 ev s2 [Hp1 Hr1] Hstep. split.
    + by eapply step_promise_settled.
    + by eapply step_absent_no_read.
Qed.

Lemma client_promise_is_memoized_witness :
  ∃ s', run (initializeRequiredResources (init desktop_services)) (tail late_web_session)
        = Some s' ∧
        ∀ k, reads k s' = 0.
Proof.
  assert (reachable (initializeRequiredResources (init desktop_services))) as Hreach.
  { exists desktop_services, [CallRequired]. reflexivity. }
  eexists. split.
  - vm_compute. reflexivity.
  - apply (proj2 (proj2 (proj2 (client_promise_is_memoized _ Hreach))) eq_refl
             (tail late_web_session)).
    vm_compute. reflexivity.
Defined.

(** C7: the builder is a short-circuit chain over the six gates in the order
    of [gate_chain]: when a gate fails and every gate before it passes, the
    builder returns absent and logs that gate's reason and nothing else,
    whatever the later gates would say.  A session is requested only when all
    six pass, and a rejected request is logged and yields absent rather than
    a rejected promise.  With a session at hand the builder returns the
    client, built from the url its store object holds by then, unless one of
    the imported calls it makes throws. *)
Theorem builder_short_circuits s :
  (∀ n g reason,
     gate_chain !! n = Some (g, reason) → g (services s) = false →
     (∀ m g' reason', m < n → gate_chain !! m = Some (g', reason') →
                      g' (services s) = true) →
     builder_start s = (Normal (BuilderReturns None), add_out (LogTrace (Text reason)) s)) ∧
  (gates_pass (services s) = true ↔
   ∃ st, syncStore (services s) = Some st ∧
         builder_start s = (Normal (BuilderAwaitsAuth st), add_out AuthRequest s)) ∧
  (∀ st e,
     settle_builder st (Rejects e) s
     = set_promise (PromiseFulfilled None)
         (add_out (LogTrace (Text "Skipping initializing user data as authentication session is not set"))
            (add_out (LogError e) s))) ∧
  (∀ st,
     settle_builder st (Resolves None) s
     = set_promise (PromiseFulfilled None)
         (add_out (LogTrace (Text "Skipping initializing user data as authentication session is not set")) s)) ∧
  (∀ st a,
     settle_builder st (Resolves (Some a)) s
     = match construction_error (services s) st a with
       | Some e => set_promise (PromiseRejected e) s
       | None =>
           set_promise
             (PromiseFulfilled
                (Some {| storeUrl := url (stores (services s) st);
                         authToken := Some (accessToken a, providerId a) |})) s
       end).
Proof.
  split_and!; try done; [| |intros st a; apply settle_builder_session].
  - intros n g reason Hn Hg Hbefore.
    pose proof (builder_start_chain s) as Hb.
    assert (first_failing (services s) = Some reason) as E; [|by rewrite E in Hb].
    unfold first_failing.
    assert (∀ m g' reason', m < n → gate_chain !! m = Some (g', reason') →
              negb (g' (services s)) = false) as Hb'.
    { intros m g' r' Hm Hl. by rewrite (Hbefore m g' r' Hm Hl). }
    clear Hbefore Hb. revert n Hn Hb'. generalize gate_chain.
    induction l as [|[g0 r0] l IH]; intros [|n] Hn Hb'; simplify_eq/=.
    + by rewrite Hg.
    + rewrite (Hb' 0 g0 r0) by (done || lia). simpl.
      apply (IH n); [done|]. intros m g' r' Hm Hl. apply (Hb' (S m) g' r'); [lia|done].
  - pose proof (builder_start_chain s) as Hb. split.
    + intros Hg%first_failing_gates_pass. by rewrite Hg in Hb.
    + intros (st & _ & E). apply first_failing_gates_pass.
      destruct (first_failing (services s)); [|done]. rewrite E in Hb. done.
Qed.

Lemma builder_short_circuits_witness :
  builder_start (init reopened_services)
  = (Normal (BuilderReturns None),
     add_out (LogTrace (Text "Skipping initializing user data as application was opened before"))
             (init reopened_services)).
Proof.
  apply (proj1 (builder_short_circuits (init reopened_services)) 2 (fun w => isNew w GLOBAL)).
  - reflexivity.
  - reflexivity.
  - intros [|[|m]] g' reason' Hm Hl.
    + injection Hl as <- _. reflexivity.
    + injection Hl as <- _. reflexivity.
    + lia.
Defined.

(** The callback of a kind that is not marked yet and whose initializer can be
    built is left waiting for its read, whatever its siblings in the batch do. *)
Lemma map_callbacks_fetches client inst rs s fs s' j k :
  map_callbacks client inst rs s = (fs, s') →
  rs !! j = Some k → k ∉ initialized s → k ∉ take j rs →
  (k = Extensions → inst ≠ None) →
  ∃ ini, fs !! j = Some (CbAwaitsRead k ini) ∧ resourceOf ini = k.
Proof.
  revert s fs s' j. induction rs as [|k0 rs IH]; intros s fs s' j H Hj Hnot Hfirst Hok; [done|].
  destruct j as [|j]; simpl in Hj, Hfirst.
  - injection Hj as ->.
    callback_cases client inst k s H; [done|by exists ini|by destruct Hok].
  - apply not_elem_of_cons in Hfirst as [Hne Hfirst].
    callback_cases client inst k0 s H; simpl; apply (IH _ _ _ _ E2); try done;
      simpl; rewrite elem_of_app, list_elem_of_singleton; tauto.
Qed.

(** C5: a kind of the batch that is not marked yet is fetched when the call
    resumes, whatever the other kinds of the batch do in the same section;
    and while events hit only the other callbacks, failures of their reads
    and applies included, its own callback stays where it is: its read, once
    resolved, is applied, and the apply, once resolved, is logged. *)
Theorem sibling_failure_does_not_stop_a_kind s c call client j k :
  calls s !! c = Some call → status call = AwaitingClient →
  _userDataSyncStoreClientPromise s = Some (PromiseFulfilled (Some client)) →
  syncResources call !! j = Some k → k ∉ initialized s →
  k ∉ take j (syncResources call) →
  (k = Extensions → instantiationService call ≠ None) →
  ∃ s1 ini, step s (ClientResume c) = Some s1 ∧ resourceOf ini = k ∧
    reads k s < reads k s1 ∧
    callbacks s1 !! (length (callbacks s) + j) = Some (c, CbAwaitsRead k ini) ∧
    ∀ evs s2,
      forallb (λ ev, negb (targets (length (callbacks s) + j) ev)) evs = true →
      run s1 evs = Some s2 →
      ∀ userData, ∃ s3,
        step s2 (ReadSettles (length (callbacks s) + j) (Resolves userData)) = Some s3 ∧
        out s3 = out s2 ++ [LocalApply ini userData] ∧
        ∀ evs' s4,
          forallb (λ ev, negb (targets (length (callbacks s) + j) ev)) evs' = true →
          run s3 evs' = Some s4 →
          ∃ s5, step s4 (ApplySettles (length (callbacks s) + j) (Resolves tt)) = Some s5 ∧
                out s5 = out s4 ++ [LogInfo (Area "Initialized " k "")].
Proof.
  intros Hc Hst Hp Hj Hnot Hfirst Hok.
  destruct (map_callbacks client (instantiationService call) (syncResources call) s)
    as [fs s1] eqn:E.
  destruct (map_callbacks_fetches _ _ _ _ _ _ _ _ E Hj Hnot Hfirst Hok) as (ini & Hf & Hini).
  destruct (map_callbacks_fields _ _ _ _ _ _ E) as (_ & _ & _ & Hcb & _).
  destruct (map_callbacks_out _ _ _ _ _ _ E) as (Hrd & _).
  eexists. exists ini. split.
  { simpl. rewrite Hc, Hp, Hst. simpl. rewrite E. reflexivity. }
  set (i := length (callbacks s) + j).
  assert (∀ cs, callbacks (set_callbacks (callbacks s1 ++ map (pair c) fs) cs) !! i
                = Some (c, CbAwaitsRead k ini)) as Hslot.
  { intros cs. simpl. rewrite Hcb, lookup_app_r by (unfold i; lia).
    replace (i - length (callbacks s)) with j by (unfold i; lia).
    by rewrite list_lookup_fmap, Hf. }
  split_and!; [done| |apply Hslot|].
  - specialize (Hrd k). unfold reads in *. simpl.
    pose proof (count_pos_lookup (frame_awaits_read k) _ _ _ Hf) as Hpos.
    simpl in Hpos. rewrite bool_decide_eq_true_2 in Hpos by done.
    specialize (Hpos eq_refl). lia.
  - intros evs s2 Hev Hrun userData.
    pose proof (run_slot_untouched _ _ _ _ _ Hev (Hslot _) Hrun) as Hslot2.
    eexists. split; [simpl; rewrite Hslot2; reflexivity|]. split; [done|].
    intros evs' s4 Hev' Hrun'.
    eassert (callbacks s4 !! i = Some (c, CbAwaitsApply k)) as Hslot4.
    { eapply run_slot_untouched; [exact Hev'| |exact Hrun'].
      simpl. apply list_lookup_insert_eq. eauto using lookup_lt_Some. }
    eexists. split; [simpl; rewrite Hslot4; reflexivity|]. done.
Qed.

Lemma sibling_failure_does_not_stop_a_kind_witness :
  ∃ s1, step awaiting_other (ClientResume 0) = Some s1 ∧
        callbacks s1 !! 0 = Some (0, CbAwaitsRead Keybindings KeybindingsInitializer) ∧
        ∀ s2, run s1 [ReadSettles 1 (Rejects (Error "offline"))] = Some s2 →
              ∃ s3, step s2 (ReadSettles 0 (Resolves some_data)) = Some s3 ∧
                    out s3 = out s2 ++ [LocalApply KeybindingsInitializer some_data].
Proof.
  destruct (sibling_failure_does_not_stop_a_kind awaiting_other 0
              (suspended_call [Keybindings; Snippets] None) a_client 0 Keybindings
              eq_refl eq_refl eq_refl eq_refl
              (not_elem_of_nil Keybindings) (not_elem_of_nil Keybindings))
    as (s1 & ini & Hs & Hini & _ & Hslot & Hlater).
  - intros H. discriminate H.
  - exists s1.
    assert (ini = KeybindingsInitializer) as ->.
    { simpl in Hs. injection Hs as <-. simpl in Hslot. by injection Hslot as <-. }
    split_and!; [assumption..|].
    intros s2 Hrun.
    destruct (Hlater [ReadSettles 1 (Rejects (Error "offline"))] s2 eq_refl Hrun some_data)
      as (s3 & Hs3 & Hout & _).
    exists s3. split; assumption.
Defined.

(** C6: when the read or the apply of a kind fails, the error is logged, the
    kind stays in [initialized], and from then on nothing reads or applies
    that kind again, whichever entry points are called. *)
Theorem failed_kind_is_not_retried s i c f ev e k :
  reachable s → callbacks s !! i = Some (c, f) →
  (∃ ini, f = CbAwaitsRead k ini ∧ ev = ReadSettles i (Rejects e)) ∨
  (f = CbAwaitsApply k ∧ ev = ApplySettles i (Rejects e)) →
  ∃ s', step s ev = Some s' ∧ k ∈ initialized s' ∧
    out s' = out s ++ [LogInfo (Area "Error while initializing " k ""); LogError e] ∧
    callbacks s' !! i = Some (c, CbFulfilled) ∧
    ∀ evs s'', run s' evs = Some s'' →
      k ∈ initialized s'' ∧ reads k s'' = reads k s' ∧ applies k s'' = applies k s'.
Proof.
  intros Hreach Hslot Hcase.
  pose proof (reachable_Inv _ Hreach) as HI.
  destruct (inv_reads s HI k) as (Hle & Hmark & _).
  pose proof (inv_pending s HI k) as Hpend.
  pose proof (inv_pending_apply s HI k) as Hpenda.
  assert (i < length (callbacks s)) as Hlt by eauto using lookup_lt_Some.
  assert (∃ s', step s ev = Some s' ∧ initialized s' = initialized s ∧
            out s' = out s ++ [LogInfo (Area "Error while initializing " k ""); LogError e] ∧
            callbacks s' = <[i := (c, CbFulfilled)]> (callbacks s) ∧
            1 ≤ reads k s ∧
            pendingReads k s = (if frame_awaits_read k f then 1 else 0))
    as (s' & Hstep & Hini & Hout & Hcb & Hread & Hpr).
  { destruct Hcase as [(ini & -> & ->)|(-> & ->)]; simpl; rewrite Hslot;
      (eexists; split; [reflexivity|]); simpl; rewrite <- !app_assoc;
      (split_and!; [done..| |]).
    - pose proof (count_pos_lookup (λ x, frame_awaits_read k x.2) _ _ _ Hslot) as Hpos.
      simpl in Hpos. rewrite bool_decide_eq_true_2 in Hpos by done.
      specialize (Hpos eq_refl). unfold pendingReads in Hpend. lia.
    - pose proof (count_pos_lookup (λ x, frame_awaits_read k x.2) _ _ _ Hslot) as Hpos.
      simpl in Hpos. rewrite bool_decide_eq_true_2 in Hpos by done.
      specialize (Hpos eq_refl). rewrite bool_decide_eq_true_2 by done.
      unfold pendingReads in *. lia.
    - pose proof (count_pos_lookup (λ x, frame_awaits_apply k x.2) _ _ _ Hslot) as Hpos.
      simpl in Hpos. rewrite bool_decide_eq_true_2 in Hpos by done.
      specialize (Hpos eq_refl). unfold pendingApplies in Hpenda. lia.
    - pose proof (count_pos_lookup (λ x, frame_awaits_apply k x.2) _ _ _ Hslot) as Hpos.
      simpl in Hpos. rewrite bool_decide_eq_true_2 in Hpos by done.
      specialize (Hpos eq_refl). unfold pendingApplies in Hpenda. lia. }
  exists s'. split_and!; [done|rewrite Hini; apply Hmark; lia|done| |].
  - rewrite Hcb. by apply list_lookup_insert_eq.
  - assert (quiet k s') as Hq.
    { split; [rewrite Hini; apply Hmark; lia|].
      pose proof (count_insert (λ x, frame_awaits_read k x.2) _ _ _ (c, CbFulfilled) Hslot)
        as Hcount.
      simpl in Hcount. unfold pendingReads in *. rewrite Hcb. lia. }
    intros evs s'' Hrun.
    destruct (run_quiet _ _ _ _ (Inv_step _ _ _ HI Hstep) Hq Hrun) as ([Hin _] & Hr & Ha).
    done.
Qed.

Lemma reading_other_reachable : reachable reading_other.
Proof.
  exists web_services, [CallOther; AuthSettles a_session; ClientResume 0]. reflexivity.
Qed.

Lemma failed_kind_is_not_retried_witness :
  ∃ s', step reading_other (ReadSettles 1 (Rejects (Error "offline"))) = Some s' ∧
        Snippets ∈ initialized s' ∧
        ∀ evs s'', run s' evs = Some s'' →
          Snippets ∈ initialized s'' ∧ reads Snippets s'' = reads Snippets s' ∧
          applies Snippets s'' = applies Snippets s'.
Proof.
  destruct (failed_kind_is_not_retried reading_other 1 0
              (CbAwaitsRead Snippets SnippetsInitializer)
              (ReadSettles 1 (Rejects (Error "offline"))) (Error "offline") Snippets
              reading_other_reachable eq_refl
              (or_introl (ex_intro _ SnippetsInitializer (conj eq_refl eq_refl))))
    as (s' & Hs & Hin & _ & _ & Hlater).
  exists s'. split_and!; assumption.
Defined.

(** A kind no call has asked for is not marked. *)
Lemma unrequested_not_marked s k :
  Inv s → (∀ sig, sig ∈ map call_signature (calls s) → k ∉ sig.1) → k ∉ initialized s.
Proof.
  intros HI Hnone Hk. destruct (inv_origin s HI k Hk) as (c & call & Hl & Hin).
  apply (Hnone (call_signature call)); [|done].
  apply list_elem_of_lookup. exists c.
  change (map call_signature (calls s)) with (call_signature <$> calls s).
  by rewrite list_lookup_fmap, Hl.
Qed.

Lemma dispatched_on_track_read s c call k :
  Inv s → on_track s → calls s !! c = Some call → status call ≠ AwaitingClient →
  k ∈ syncResources call → k ≠ Extensions → reads k s = 1.
Proof.
  intros HI (_ & _ & Hp & Hrej & _) Hl Hst Hk Hne.
  destruct (inv_dispatched s HI _ _ Hl Hst) as [E|[[e E]|[_ Hsub]]];
    [done|by destruct (Hrej e)|].
  destruct (inv_reads s HI k) as (_ & _ & Hread). apply Hread; [done|]. by apply Hsub.
Qed.

(** C8 as stated does not hold: the session of [malformed_store_services]
    passes every gate and gets its authentication session, both calls are
    made and both resume, and yet nothing is read: [URI.parse] refuses the
    configured url, so the builder throws and both calls reject. *)
Lemma malformed_store_url_reads_nothing :
  gates_pass malformed_store_services = true ∧
  forallb scenario_event malformed_store_run = true ∧
  calls_made malformed_store_run
  = [([Settings; GlobalState], None); ([Keybindings; Snippets], None)] ∧
  ∃ s, run (init malformed_store_services) malformed_store_run = Some s ∧
       map status (calls s) = [Raised uri_error; Raised uri_error] ∧
       reads Settings s = 0 ∧ reads GlobalState s = 0 ∧
       reads Keybindings s = 0 ∧ reads Snippets s = 0.
Proof.
  split_and!; [reflexivity..|].
  eexists. split; [vm_compute; reflexivity|]. by split_and!.
Qed.

(** C8 (amended): on a session that passes every gate, gets its
    authentication session and whose client can be built from the
    configured store without an exception, once
    [initializeRequiredResources] and then [initializeOtherResources] have
    been called and have both resumed, in whatever interleaving, settings,
    UI state, keybindings and snippets have each been read exactly once and
    extensions not at all; calling [initializeRequiredResources] again adds
    no read for any kind. *)
Theorem required_then_other_read_once w evs s :
  gates_pass w = true →
  client_can_be_built w →
  forallb scenario_event evs = true →
  run (init w) evs = Some s →
  calls_made evs = [([Settings; GlobalState], None); ([Keybindings; Snippets], None)] →
  (∀ c call, calls s !! c = Some call → status call ≠ AwaitingClient) →
  (reads Settings s = 1 ∧ reads GlobalState s = 1 ∧
   reads Keybindings s = 1 ∧ reads Snippets s = 1 ∧ reads Extensions s = 0) ∧
  ∀ evs' s',
    run s evs' = Some s' → calls_made evs' = [([Settings; GlobalState], None)] →
    ∀ k, reads k s' = reads k s.
Proof.
  intros Hg Hbuilt Hev Hrun Hmade Hdone.
  assert (reachable s) as Hreach by (by exists w, evs).
  pose proof (reachable_Inv _ Hreach) as HI.
  assert (on_track s) as Htrack.
  { eapply run_on_track; [exact Hev| |exact Hrun]. by split_and!. }
  pose proof (run_signatures _ _ _ Hrun) as Hsig. simpl in Hsig. rewrite Hmade in Hsig.
  assert (reads Extensions s = 0) as Hext.
  { destruct (inv_reads s HI Extensions) as (_ & Hmark & _).
    destruct (reads Extensions s) eqn:E; [done|].
    exfalso. apply (unrequested_not_marked s Extensions HI); [|apply Hmark; lia].
    intros sig. rewrite Hsig, !elem_of_cons, elem_of_nil.
    intros [->|[->|[]]]; simpl; rewrite !elem_of_cons, elem_of_nil;
      intros [?|[?|[]]]; discriminate. }
  destruct (calls s) as [|c0 [|c1 [|c2 cs]]] eqn:Hcalls; try discriminate Hsig.
  injection Hsig as Hr0 Hi0 Hr1 Hi1.
  assert (∀ k, k ∈ [Settings; GlobalState; Keybindings; Snippets] → reads k s = 1) as Hone.
  { intros k Hk.
    assert (k ≠ Extensions) as Hne.
    { intros ->. rewrite !elem_of_cons, elem_of_nil in Hk.
      destruct Hk as [?|[?|[?|[?|[]]]]]; discriminate. }
    rewrite !elem_of_cons, elem_of_nil in Hk.
    destruct Hk as [->|[->|[->|[->|[]]]]].
    - apply (dispatched_on_track_read s 0 c0); try done.
      + by rewrite Hcalls.
      + by apply (Hdone 0).
      + rewrite Hr0, !elem_of_cons. auto.
    - apply (dispatched_on_track_read s 0 c0); try done.
      + by rewrite Hcalls.
      + by apply (Hdone 0).
      + rewrite Hr0, !elem_of_cons. auto.
    - apply (dispatched_on_track_read s 1 c1); try done.
      + by rewrite Hcalls.
      + by apply (Hdone 1).
      + rewrite Hr1, !elem_of_cons. auto.
    - apply (dispatched_on_track_read s 1 c1); try done.
      + by rewrite Hcalls.
      + by apply (Hdone 1).
      + rewrite Hr1, !elem_of_cons. auto. }
  split.
  { split_and!; [apply Hone; rewrite !elem_of_cons; auto..|done]. }
  intros evs' s' Hrun' Hmade' k.
  assert (Inv s') as HI' by (apply reachable_Inv; eauto using reachable_run).
  pose proof (run_reads_mono _ _ _ k Hrun') as Hmono.
  destruct (inv_reads s' HI' k) as (Hle & Hmark & _).
  destruct (decide (k = Extensions)) as [->|Hne].
  - rewrite Hext. destruct (reads Extensions s') eqn:E; [done|].
    exfalso. apply (unrequested_not_marked s' Extensions HI'); [|apply Hmark; lia].
    pose proof (run_signatures _ _ _ Hrun') as Hsig'. rewrite Hmade', Hcalls in Hsig'.
    simpl in Hsig'. unfold call_signature in Hsig' at 2 3. simpl in Hsig'.
    rewrite Hr0, Hr1, Hi0, Hi1 in Hsig'.
    intros sig. rewrite Hsig', !elem_of_cons, elem_of_nil.
    intros [->|[->|[->|[]]]]; simpl; rewrite !elem_of_cons, elem_of_nil;
      intros [?|[?|[]]]; discriminate.
  - assert (reads k s = 1); [|lia].
    apply Hone. rewrite !elem_of_cons. destruct k; auto 10. done.
Qed.

Lemma required_then_other_read_once_witness :
  ∃ s, run (init web_services) required_then_other = Some s ∧
       (reads Settings s = 1 ∧ reads GlobalState s = 1 ∧
        reads Keybindings s = 1 ∧ reads Snippets s = 1 ∧ reads Extensions s = 0) ∧
       ∀ s', run s required_again = Some s' → ∀ k, reads k s' = reads k s.
Proof.
  eexists. split; [vm_compute; reflexivity|].
  match goal with
  | |- context [reads Settings ?s] =>
      destruct (required_then_other_read_once web_services required_then_other s)
        as [Hfirst Hagain]
  end.
  - reflexivity.
  - intros st a _. reflexivity.
  - reflexivity.
  - vm_compute. reflexivity.
  - reflexivity.
  - intros [|[|c]] call Hl; vm_compute in Hl.
    + injection Hl as <-. discriminate.
    + injection Hl as <-. discriminate.
    + discriminate Hl.
  - split; [exact Hfirst|].
    intros s' Hrun. apply (Hagain required_again s' Hrun). reflexivity.
Defined.

(** * Scenarios, evaluated *)

(** A desktop session: one trace line, no read, the call returns. *)
Example desktop_session_reads_nothing :
  run (init desktop_services) [CallRequired; ClientResume 0]
  = Some (mkState desktop_services [] (Some (PromiseFulfilled None))
            [{| syncResources := [Settings; GlobalState];
                instantiationService := None;
                status := Returned |}]
            []
            [LogTrace (Text "Skipping initializing user data in desktop")]).
Proof. reflexivity. Qed.

(** The read of snippets fails, keybindings are applied all the same, and a
    second [initializeOtherResources] finds both initialized already. *)
Example snippets_fail_keybindings_apply :
  (λ s, (initialized s, map status (calls s), map snd (callbacks s), out s))
    <$> run reading_other
          [ ReadSettles 1 (Rejects (Error "offline"));
            ReadSettles 0 (Resolves some_data);
            ApplySettles 0 (Resolves tt);
            CallOther; ClientResume 1 ]
  = Some ([Keybindings; Snippets],
          [Returned; Returned],
          [CbFulfilled; CbFulfilled; CbFulfilled; CbFulfilled],
          [ AuthRequest;
            LogTrace (Area "Initializing " Keybindings ""); RemoteRead a_client Keybindings;
            LogTrace (Area "Initializing " Snippets ""); RemoteRead a_client Snippets;
            LogInfo (Area "Error while initializing " Snippets "");
            LogError (Error "offline");
            LocalApply KeybindingsInitializer some_data;
            LogInfo (Area "Initialized " Keybindings "");
            LogInfo (Area "" Keybindings " initialized already.");
            LogInfo (Area "" Snippets " initialized already.") ]).
Proof. reflexivity. Qed.

(** A session that fails the first gate stays without a client after its
    services start answering like a web session. *)
Example late_web_session_reads_nothing :
  (λ s, (_userDataSyncStoreClientPromise s, initialized s, map status (calls s),
         count (λ o, match o with RemoteRead _ _ => true | _ => false end) (out s)))
    <$> run (init desktop_services) late_web_session
  = Some (Some (PromiseFulfilled None), [], [Returned; Returned; Returned; Returned], 0).
Proof. reflexivity. Qed.

(** * Beyond the claims: the initialization service *)

(** ** What one transition appends *)

Lemma count_pos_elem_of {A} (p : A -> bool) (l : list A) (x : A) :
  x ∈ l → p x = true → 1 ≤ count p l.
Proof. intros [i Hi]%list_elem_of_lookup Hp. by eapply count_pos_lookup. Qed.

Lemma count_zero_not_elem_of {A} (p : A -> bool) (l : list A) (x : A) :
  count p l = 0 → p x = true → x ∉ l.
Proof. intros H0 Hp Hx. pose proof (count_pos_elem_of p l x Hx Hp). lia. Qed.

Lemma map_callbacks_appends client inst rs s fs s' :
  map_callbacks client inst rs s = (fs, s') →
  ∃ ks os,
    initialized s' = initialized s ++ ks ∧ out s' = out s ++ os ∧
    Forall (dispatch_obs client) os ∧
    (Extensions ∈ ks →
     RemoteRead client Extensions ∈ os ∨ LogError missing_service_error ∈ os).
Proof.
  revert s fs s'. induction rs as [|k rs IH]; intros s fs s' H.
  - injection H as <- <-. exists [], []. rewrite !app_nil_r.
    split_and!; [done|done|constructor|by intros ?%elem_of_nil].
  - callback_cases client inst k s H;
      destruct (IH _ _ _ E2) as (ks & os & Hi & Ho & Hall & Hext); simpl in Hi, Ho.
    + exists ks, (LogInfo (Area "" k " initialized already.") :: os).
      rewrite Hi, Ho, <- app_assoc. split_and!; [done|done|by constructor|].
      intros Hk. rewrite !elem_of_cons. destruct (Hext Hk); auto.
    + exists (k :: ks),
        (LogTrace (Area "Initializing " k "") :: RemoteRead client k :: os).
      rewrite Hi, Ho, <- !app_assoc. split_and!; [done|done|by repeat constructor|].
      rewrite !elem_of_cons. intros [<-|Hk]; [auto|]. destruct (Hext Hk); auto.
    + exists (Extensions :: ks),
        (LogTrace (Area "Initializing " Extensions "")
           :: LogInfo (Area "Error while initializing " Extensions "")
           :: LogError missing_service_error :: os).
      rewrite Hi, Ho, <- !app_assoc. split_and!; [done|done|by repeat constructor|].
      rewrite !elem_of_cons. auto.
Qed.

(** Closes the side conditions of [step_appends] for a transition that
    appends only log lines and applies and marks nothing. *)
Ltac plain_appends :=
  split_and!;
  [ rewrite ?elem_of_app, ?elem_of_cons, ?elem_of_nil; intuition congruence
  | intros ? ?; rewrite ?elem_of_app, ?elem_of_cons, ?elem_of_nil; intuition congruence
  | rewrite elem_of_nil; intuition
  | try done; try (intros; congruence) ].

(** Both [initialized] and the output are only ever extended, and what a
    transition appends tells which transition it was. *)
Lemma step_appends s ev s' :
  step s ev = Some s' →
  ∃ ks os,
    initialized s' = initialized s ++ ks ∧ out s' = out s ++ os ∧
    (AuthRequest ∈ os →
     _userDataSyncStoreClientPromise s = None ∧ os = [AuthRequest] ∧
     _userDataSyncStoreClientPromise s' ≠ None) ∧
    (∀ c k, RemoteRead c k ∈ os →
       _userDataSyncStoreClientPromise s = Some (PromiseFulfilled (Some c))) ∧
    (Extensions ∈ ks →
     (∃ c, RemoteRead c Extensions ∈ os) ∨ LogError missing_service_error ∈ os) ∧
    (_userDataSyncStoreClientPromise s' = None →
     _userDataSyncStoreClientPromise s = None).
Proof.
  assert (∀ rs inst, ∃ ks os,
            initialized (initialize rs inst s) = initialized s ++ ks ∧
            out (initialize rs inst s) = out s ++ os ∧
            (AuthRequest ∈ os →
             _userDataSyncStoreClientPromise s = None ∧ os = [AuthRequest] ∧
             _userDataSyncStoreClientPromise (initialize rs inst s) ≠ None) ∧
            (∀ c k, RemoteRead c k ∈ os →
               _userDataSyncStoreClientPromise s = Some (PromiseFulfilled (Some c))) ∧
            (Extensions ∈ ks →
             (∃ c, RemoteRead c Extensions ∈ os) ∨ LogError missing_service_error ∈ os) ∧
            (_userDataSyncStoreClientPromise (initialize rs inst s) = None →
             _userDataSyncStoreClientPromise s = None)) as Hentry.
  { intros rs inst. unfold initialize, createUserDataSyncStoreClient.
    destruct (_userDataSyncStoreClientPromise s) as [p|] eqn:Hp.
    - exists [], []. simpl. rewrite Hp, !app_nil_r.
      split; [done|]. split; [done|]. plain_appends.
    - pose proof (builder_start_chain s) as Hb.
      destruct (first_failing (services s)) as [reason|].
      + rewrite Hb. exists [], [LogTrace (Text reason)]. simpl. rewrite app_nil_r.
        split; [done|]. split; [done|]. plain_appends.
      + destruct Hb as (st & _ & ->). exists [], [AuthRequest]. simpl. rewrite app_nil_r.
        split; [done|]. split; [done|]. split_and!; try done.
        * intros c k [?|?%elem_of_nil]%elem_of_cons; done.
        * by intros ?%elem_of_nil. }
  intros H. step_cases H; try apply Hentry.
  - exists [], []. simpl. rewrite !app_nil_r. split; [done|]. split; [done|]. plain_appends.
  - exists [].
    destruct xr as [[a|]|e];
      [rewrite settle_builder_session; destruct (construction_error (services s) xst a)
      |unfold settle_builder..];
      simpl; rewrite app_nil_r;
      eexists; (split; [reflexivity|]);
      (split; [first [rewrite <- ?app_assoc; reflexivity|symmetry; apply app_nil_r]|]);
      plain_appends.
  - destruct xp as [?|[client|]|e]; simpl in H; [done| | |].
    + destruct (map_callbacks _ _ _ s) as [fs s1] eqn:E. injection H as <-.
      destruct (map_callbacks_appends _ _ _ _ _ _ E) as (ks & os & Hi & Ho & Hall & Hext).
      destruct (map_callbacks_fields _ _ _ _ _ _ E) as (_ & Hpm & _).
      exists ks, os. simpl. rewrite Hpm. split_and!; try done.
      * intros Ha. rewrite Forall_forall in Hall. by destruct (Hall _ Ha).
      * intros c k Hr. rewrite Forall_forall in Hall. specialize (Hall _ Hr).
        simpl in Hall. by subst.
      * intros Hk. destruct (Hext Hk); eauto.
      * congruence.
    + injection H as <-. exists [], []. simpl. rewrite !app_nil_r.
      split; [done|]. split; [done|]. plain_appends.
    + injection H as <-. exists [], []. simpl. rewrite !app_nil_r.
      split; [done|]. split; [done|]. plain_appends.
  - exists []. destruct xr as [userData|e]; simpl; rewrite app_nil_r, <- ?app_assoc;
      eexists; (split; [reflexivity|]); (split; [reflexivity|]); plain_appends.
  - exists []. destruct xr as [[]|e]; simpl; rewrite app_nil_r, <- ?app_assoc;
      eexists; (split; [reflexivity|]); (split; [reflexivity|]); plain_appends.
Qed.

Lemma count_pos_exists {A} (p : A -> bool) (l : list A) :
  1 ≤ count p l → ∃ x, x ∈ l ∧ p x = true.
Proof.
  induction l as [|a l IH]; [unfold count; simpl; lia|].
  rewrite count_cons. destruct (p a) eqn:E.
  - intros _. exists a. split; [apply list_elem_of_here|done].
  - intros H. destruct IH as (x & Hx & Hp); [lia|]. exists x. split; [by apply list_elem_of_further|done].
Qed.

Lemma step_callbacks_client s ev s' :
  step s ev = Some s' → callbacks s' ≠ [] →
  callbacks s ≠ [] ∨ settled_with_client s.
Proof.
  intros H Hne. step_cases H.
  - left. unfold initializeRequiredResources, initialize in Hne. simpl in Hne.
    by destruct (createUserDataSyncStoreClient_effect s) as (_ & _ & _ & <- & _).
  - left. unfold initializeOtherResources, initialize in Hne. simpl in Hne.
    by destruct (createUserDataSyncStoreClient_effect s) as (_ & _ & _ & <- & _).
  - left. unfold initializeExtensions, initialize in Hne. simpl in Hne.
    by destruct (createUserDataSyncStoreClient_effect s) as (_ & _ & _ & <- & _).
  - by left.
  - left. by destruct (settle_builder_fields xst xr s) as (_ & <- & _).
  - destruct xp as [?|[client|]|e]; simpl in H; [done| | |].
    + right. by exists client.
    + injection H as <-. by left.
    + injection H as <-. by left.
  - left. intros Hnil. by rewrite Hnil in Hslot.
  - left. intros Hnil. by rewrite Hnil in Hslot.
Qed.

Lemma Traced_init w : Traced (init w).
Proof.
  split; simpl; try done.
  - unfold authRequests, count. simpl. split; [lia|done].
  - by intros c k ?%elem_of_nil.
  - by intros ?%elem_of_nil.
Qed.

Lemma Traced_step s ev s' : Inv s → Traced s → step s ev = Some s' → Traced s'.
Proof.
  intros HI [[Hle H0] Hcl Hcb Hun] H.
  pose proof (Inv_step _ _ _ HI H) as HI'.
  destruct (step_appends _ _ _ H) as (ks & os & Hi & Ho & Hauth & Hread & Hext & Hnone).
  split.
  - unfold authRequests in *. rewrite Ho, count_app.
    destruct (count is_auth os) eqn:E.
    + split; [lia|]. intros Hn. rewrite H0 by auto. done.
    + destruct (count_pos_exists is_auth os) as (x & Hx & Hp); [lia|].
      destruct x; try done. destruct (Hauth Hx) as (Hn & -> & Hn').
      rewrite (H0 Hn) in *. unfold count in E. simpl in E. injection E as <-.
      split; [lia|done].
  - intros c k. rewrite Ho. intros [Hin|Hin]%elem_of_app.
    + eapply step_promise_settled; eauto.
    + eapply step_promise_settled; eauto.
  - intros Hne. destruct (step_callbacks_client _ _ _ H Hne) as [Hne0|[client Hc]].
    + destruct (Hcb Hne0) as [client Hc]. exists client. by eapply step_promise_settled.
    + exists client. by eapply step_promise_settled.
  - destruct (inv_reads s' HI' Extensions) as (Hle1 & _).
    pose proof (step_reads_mono _ _ _ Extensions H) as Hmono.
    rewrite Hi, Ho. intros [Hk|Hk]%elem_of_app.
    + destruct (Hun Hk) as [Hr|Hl]; [left; lia|right; apply elem_of_app; by left].
    + destruct (Hext Hk) as [[c Hc]|Hl]; [left|right; apply elem_of_app; by right].
      assert (1 ≤ reads Extensions s'); [|lia].
      unfold reads. rewrite Ho. apply (count_pos_elem_of _ _ (RemoteRead c Extensions)).
      * apply elem_of_app. by right.
      * done.
Qed.

Lemma reachable_Traced s : reachable s → Traced s.
Proof.
  intros (w & evs & H).
  enough (Inv s ∧ Traced s) as [_ ?] by done.
  eapply (run_invariant (λ s, Inv s ∧ Traced s)); [|split; [apply Inv_init|apply Traced_init]|done].
  intros s1 ev s2 [HI HT] Hs. split; [by eapply Inv_step|by eapply Traced_step].
Qed.

(** ** [Promise.all] counts what is pending *)

Lemma count_owned_none (cbs : list (nat * CallbackFrame)) c :
  (∀ i f, cbs !! i ≠ Some (c, f)) → count (owned_pending c) cbs = 0.
Proof.
  induction cbs as [|[c' f] cbs IH]; intros Hno; [done|].
  rewrite count_cons. unfold owned_pending at 1. simpl.
  rewrite bool_decide_eq_false_2.
  - simpl. apply IH. intros i f'. apply (Hno (S i)).
  - intros ->. by apply (Hno 0 f).
Qed.

Lemma count_owned_fresh c c' fs :
  count (owned_pending c') (map (pair c) fs)
  = if decide (c = c') then count is_pending fs else 0.
Proof.
  destruct (decide (c = c')) as [->|Hne].
  - apply count_map. intros f. unfold owned_pending. simpl.
    by rewrite bool_decide_eq_true_2.
  - rewrite (count_map _ (λ _, false)).
    + induction fs as [|f fs IH]; [done|]. by rewrite count_cons.
    + intros f. unfold owned_pending. simpl. by rewrite bool_decide_eq_false_2.
Qed.

Lemma promise_all_counts fs :
  first_rejection fs = None →
  match promise_all fs with
  | AwaitingAll n => n = count is_pending fs ∧ 1 ≤ n
  | Returned => count is_pending fs = 0
  | AwaitingClient | Raised _ => False
  end.
Proof.
  intros H. unfold promise_all, count. rewrite H.
  destruct (length (List.filter is_pending fs)); [done|]. split; [done|lia].
Qed.

Lemma Accounted_init w : Accounted (init w).
Proof. by split. Qed.

Lemma Accounted_initialize rs inst s : Accounted s → Accounted (initialize rs inst s).
Proof.
  intros [Hown Hall]. unfold initialize.
  destruct (createUserDataSyncStoreClient_effect s) as (_ & _ & Hcs & Hcb & _).
  split; simpl; unfold pendingOf; simpl; rewrite Hcs, Hcb.
  - intros i c f Hl. destruct (Hown _ _ _ Hl) as (call & Hc & Hst).
    exists call. split; [by apply lookup_app_l_Some|done].
  - intros c call [Hl|[_ Hl]]%lookup_app_Some.
    + apply (Hall _ _ Hl).
    + destruct (c - length (calls s)); by simplify_eq/=.
Qed.

(** A suspended call owns no callback yet. *)
Lemma suspended_owns_nothing s c call :
  Accounted s → calls s !! c = Some call → status call = AwaitingClient →
  ∀ i f, callbacks s !! i ≠ Some (c, f).
Proof.
  intros [Hown _] Hc Hst i f Hl. destruct (Hown _ _ _ Hl) as (call' & Hc' & Hne).
  congruence.
Qed.

Lemma Accounted_set_status s c call st :
  Accounted s → calls s !! c = Some call →
  st ≠ AwaitingClient →
  match st with
  | AwaitingAll n => n = pendingOf c s ∧ 1 ≤ n
  | Returned => pendingOf c s = 0
  | AwaitingClient | Raised _ => True
  end →
  Accounted (set_calls (<[c := set_status st call]> (calls s)) s).
Proof.
  intros [Hown Hall] Hc Hne Hst. split; simpl.
  - intros i c' f Hl. destruct (Hown _ _ _ Hl) as (call' & Hc' & Hst').
    destruct (decide (c = c')) as [<-|Hcc].
    + exists (set_status st call). split; [|done].
      apply list_lookup_insert_eq. eauto using lookup_lt_Some.
    + exists call'. by rewrite list_lookup_insert_ne.
  - intros c' call' Hl.
    destruct (lookup_set_status _ _ _ _ _ _ Hc Hl) as [[-> ->]|[_ Hl']]; [done|].
    apply (Hall _ _ Hl').
Qed.

Lemma Accounted_initialize_resume c call p s s' :
  Inv s → Accounted s → calls s !! c = Some call → status call = AwaitingClient →
  initialize_resume c call p s = Some s' → Accounted s'.
Proof.
  intros HI HA Hc Hst H.
  pose proof (suspended_owns_nothing _ _ _ HA Hc Hst) as Hnone.
  pose proof (count_owned_none _ _ Hnone) as Hzero.
  destruct p as [st|[client|]|e]; simpl in H; [done| | |].
  - destruct (map_callbacks client (instantiationService call) (syncResources call) s)
      as [fs s1] eqn:E.
    injection H as <-.
    destruct (map_callbacks_fields _ _ _ _ _ _ E) as (_ & _ & Hcs & Hcb & _).
    destruct (map_callbacks_out _ _ _ _ _ _ E) as (_ & _ & _ & _ & Hrej).
    pose proof (promise_all_counts fs Hrej) as Hpa.
    destruct HA as [Hown Hall]. split; simpl; unfold pendingOf; simpl; rewrite Hcs, Hcb.
    + intros i c' f [Hl|[_ Hl]]%lookup_app_Some.
      * destruct (Hown _ _ _ Hl) as (call' & Hc' & Hst').
        exists call'. split; [|done]. rewrite list_lookup_insert_ne; [done|congruence].
      * rewrite list_lookup_fmap in Hl.
        destruct (fs !! (i - length (callbacks s))) as [f'|]; simplify_eq/=.
        exists (set_status (promise_all fs) call). split.
        -- apply list_lookup_insert_eq. eauto using lookup_lt_Some.
        -- apply promise_all_dispatched.
    + intros c' call' Hl. rewrite count_app, count_owned_fresh.
      destruct (lookup_set_status _ _ _ _ _ _ Hc Hl) as [[-> ->]|[Hne Hl']].
      * simpl. rewrite decide_True by done. unfold pendingOf in Hzero. rewrite Hzero.
        destruct (promise_all fs); simpl; [done|lia|lia|done].
      * rewrite decide_False by done. rewrite Nat.add_0_r. apply (Hall _ _ Hl').
  - injection H as <-. by apply Accounted_set_status.
  - injection H as <-. by apply Accounted_set_status.
Qed.

Lemma Accounted_callback_moves s s1 i c f0 f :
  Inv s → Accounted s → callbacks s !! i = Some (c, f0) → is_pending f0 = true →
  calls s1 = calls s → callbacks s1 = callbacks s →
  (f = CbFulfilled ∨ ∃ k, f = CbAwaitsApply k) →
  Accounted (callback_moves i c (f, s1)).
Proof.
  intros HI [Hown Hall] Hi Hp0 Hcs Hcb Hf.
  destruct (Hown _ _ _ Hi) as (call & Hc & Hst).
  assert (i < length (callbacks s)) as Hlt by eauto using lookup_lt_Some.
  assert (c < length (calls s)) as Hclt by eauto using lookup_lt_Some.
  assert (∀ c', count (owned_pending c') (<[i := (c, f)]> (callbacks s))
                + (if bool_decide (c = c') then 1 else 0)
                = count (owned_pending c') (callbacks s)
                  + (if bool_decide (c = c') && is_pending f then 1 else 0)) as Hcount.
  { intros c'.
    pose proof (count_insert (owned_pending c') _ _ _ (c, f) Hi) as Hx.
    unfold owned_pending at 2 4 in Hx. simpl in Hx. rewrite Hp0, andb_true_r in Hx.
    done. }
  assert (status call ≠ AwaitingClient ∧ settle_one f (status call) ≠ AwaitingClient) as [_ Hst'].
  { split; [done|]. by destruct (status call) as [|[|[|n]]| |], Hf as [->|[k ->]]. }
  unfold callback_moves. rewrite Hcs, Hcb, Hc. split; simpl; unfold pendingOf; simpl.
  - intros i' c' f' Hl.
    assert (∃ call0, calls s !! c' = Some call0 ∧ status call0 ≠ AwaitingClient)
      as (call0 & Hc0 & Hst0).
    { destruct (decide (i = i')) as [<-|Hne].
      - rewrite list_lookup_insert_eq in Hl by done. simplify_eq. eauto.
      - rewrite list_lookup_insert_ne in Hl by done. eauto. }
    destruct (decide (c = c')) as [<-|Hcc].
    + eexists. split; [by apply list_lookup_insert_eq|done].
    + exists call0. by rewrite list_lookup_insert_ne.
  - intros c' call' Hl. specialize (Hcount c').
    destruct (lookup_set_status _ _ _ _ _ _ Hc Hl) as [[-> ->]|[Hne Hl']].
    + rewrite bool_decide_eq_true_2 in Hcount by done. simpl in Hcount.
      pose proof (Hall _ _ Hc) as Hold. unfold pendingOf in Hold.
      simpl. destruct Hf as [->|[k ->]]; simpl in Hcount.
      * destruct (status call) as [|[|[|n]]| |e] eqn:Est; simpl; try done; try lia.
      * destruct (status call) as [|[|[|n]]| |e] eqn:Est; simpl; try done; try lia.
    + rewrite bool_decide_eq_false_2 in Hcount by done. simpl in Hcount.
      pose proof (Hall _ _ Hl') as Hold. unfold pendingOf in Hold.
      rewrite Nat.add_0_r in Hcount. rewrite Nat.add_0_r in Hcount. by rewrite Hcount.
Qed.

Lemma Accounted_step s ev s' : Inv s → Accounted s → step s ev = Some s' → Accounted s'.
Proof.
  intros HI HA H. step_cases H.
  - by apply Accounted_initialize.
  - by apply Accounted_initialize.
  - by apply Accounted_initialize.
  - destruct HA. by split.
  - destruct (settle_builder_fields xst xr s) as (_ & Hcb & Hcs & _).
    destruct HA as [Hown Hall]. split; unfold pendingOf; by rewrite Hcb, Hcs.
  - by eapply Accounted_initialize_resume.
  - destruct xr as [userData|e].
    + rewrite callback_after_read_resolves. eapply Accounted_callback_moves; eauto.
    + rewrite callback_after_read_rejects. eapply Accounted_callback_moves; eauto.
  - destruct xr as [[]|e].
    + rewrite callback_after_apply_resolves. eapply Accounted_callback_moves; eauto.
    + rewrite callback_after_apply_rejects. eapply Accounted_callback_moves; eauto.
Qed.

Lemma reachable_Accounted s : reachable s → Accounted s.
Proof.
  intros (w & evs & H).
  enough (Inv s ∧ Accounted s) as [_ ?] by done.
  eapply (run_invariant (λ s, Inv s ∧ Accounted s));
    [|split; [apply Inv_init|apply Accounted_init]|done].
  intros s1 ev s2 [HI HT] Hs. split; [by eapply Inv_step|by eapply Accounted_step].
Qed.

(** ** Properties of every run *)

(** X1: a kind is handed to its initializer at most once, and never more
    often than it was read. *)
Theorem each_kind_applied_at_most_once w evs s :
  run (init w) evs = Some s →
  ∀ k, applies k s ≤ reads k s ∧ applies k s ≤ 1.
Proof.
  intros H k. assert (Inv s) as HI by (apply reachable_Inv; by exists w, evs).
  pose proof (inv_pending s HI k). destruct (inv_reads s HI k) as (Hle & _). lia.
Qed.

Lemma each_kind_applied_at_most_once_witness :
  ∃ s, run (init web_services) overlapping_calls = Some s ∧
       ∀ k, applies k s ≤ reads k s ∧ applies k s ≤ 1.
Proof.
  eexists. split.
  - vm_compute. reflexivity.
  - apply (each_kind_applied_at_most_once web_services overlapping_calls).
    vm_compute. reflexivity.
Defined.

(** X2: over a whole process lifetime the authentication provider is asked
    for a session at most once, and not at all before the first call. *)
Theorem session_requested_at_most_once w evs s :
  run (init w) evs = Some s →
  authRequests s ≤ 1 ∧
  (_userDataSyncStoreClientPromise s = None → authRequests s = 0).
Proof.
  intros H. assert (Traced s) as HT by (apply reachable_Traced; by exists w, evs).
  apply HT.
Qed.

Lemma session_requested_at_most_once_witness :
  ∃ s, run (init web_services) overlapping_calls = Some s ∧ authRequests s ≤ 1.
Proof.
  eexists. split.
  - vm_compute. reflexivity.
  - apply (session_requested_at_most_once web_services overlapping_calls).
    vm_compute. reflexivity.
Defined.

(** X3: every remote read of the process goes through one client, the one
    the builder returned when the session arrived: it carries the token of
    that session and the url the store object held by the builder had at
    that moment, whatever the object held when the builder took it and
    whichever object the product configuration hands out by then.  A read
    also tells that none of the imported calls threw. *)
Theorem reads_use_the_one_client s st a evs s' :
  reachable s →
  _userDataSyncStoreClientPromise s = Some (PromisePending st) →
  run s (AuthSettles (Resolves (Some a)) :: evs) = Some s' →
  ∀ c k, RemoteRead c k ∈ out s' →
    construction_error (services s) st a = None ∧
    c = {| storeUrl := url (stores (services s) st);
           authToken := Some (accessToken a, providerId a) |}.
Proof.
  intros Hreach Hp Hrun c k Hin.
  assert (Traced s') as HT by (apply reachable_Traced; eauto using reachable_run).
  pose proof (tr_client s' HT c k Hin) as Hc.
  simpl in Hrun. rewrite Hp, settle_builder_session in Hrun.
  destruct (construction_error (services s) st a) as [e|].
  - pose proof (run_promise_rejected evs (set_promise (PromiseRejected e) s) s' e
                  eq_refl Hrun) as Hp'.
    congruence.
  - pose proof (run_promise_settled evs (set_promise _ s) s' _ eq_refl Hrun) as Hp'.
    rewrite Hp' in Hc. by injection Hc as <-.
Qed.

Lemma reads_use_the_one_client_witness :
  ∃ s', run awaiting_session_moved [AuthSettles a_session; ClientResume 0] = Some s' ∧
        RemoteRead moved_client Settings ∈ out s' ∧
        ∀ c k, RemoteRead c k ∈ out s' → c = moved_client.
Proof.
  assert (reachable awaiting_session_moved) as Hreach.
  { exists web_services, [CallRequired; ServicesChange (services awaiting_session_moved)].
    reflexivity. }
  eexists. split; [vm_compute; reflexivity|]. split.
  - simpl. rewrite !elem_of_cons. auto.
  - intros c k Hin.
    apply (reads_use_the_one_client awaiting_session_moved 0
             {| accessToken := "token"; providerId := "provider" |}
             [ClientResume 0] _ Hreach eq_refl) in Hin; [apply Hin|].
    vm_compute. reflexivity.
Defined.

(** When the product configuration hands out another object instead, the
    client still reads from the store the builder took. *)
Example another_store_object_is_not_used :
  (λ s, read_clients (out s))
    <$> run awaiting_session_elsewhere [AuthSettles a_session; ClientResume 0]
  = Some [a_client; a_client].
Proof. reflexivity. Qed.

(** X4: the promise an entry point returned is fulfilled only when every
    callback that call started has finished; while it waits on
    [Promise.all] its counter is the number of its callbacks still pending,
    at least one; and a call that has not resumed owns no callback. *)
Theorem call_returns_when_its_callbacks_are_done s c call :
  reachable s → calls s !! c = Some call →
  (status call = Returned →
   ∀ i f, callbacks s !! i = Some (c, f) → f = CbFulfilled) ∧
  (∀ n, status call = AwaitingAll n → n = pendingOf c s ∧ 1 ≤ n) ∧
  (status call = AwaitingClient → ∀ i f, callbacks s !! i ≠ Some (c, f)).
Proof.
  intros Hreach Hc.
  pose proof (reachable_Inv _ Hreach) as HI.
  pose proof (reachable_Accounted _ Hreach) as HA.
  pose proof (acc_all s HA _ _ Hc) as Hall.
  split_and!.
  - intros Hst i f Hl. rewrite Hst in Hall.
    destruct f as [k ini|k| |e]; [exfalso..|done|by destruct (inv_callbacks s HI i c e)].
    + eapply (count_zero_not_elem_of (owned_pending c) (callbacks s)); [exact Hall| |].
      2:{ by eapply list_elem_of_lookup_2. }
      unfold owned_pending. simpl. by rewrite bool_decide_eq_true_2.
    + eapply (count_zero_not_elem_of (owned_pending c) (callbacks s)); [exact Hall| |].
      2:{ by eapply list_elem_of_lookup_2. }
      unfold owned_pending. simpl. by rewrite bool_decide_eq_true_2.
  - intros n Hst. by rewrite Hst in Hall.
  - intros Hst. by eapply suspended_owns_nothing.
Qed.

Lemma call_returns_when_its_callbacks_are_done_witness :
  2 = pendingOf 0 reading_other ∧ 1 ≤ 2.
Proof.
  exact (proj1 (proj2 (call_returns_when_its_callbacks_are_done reading_other 0 _
                          reading_other_reachable eq_refl)) 2 eq_refl).
Defined.

Lemma map_callbacks_all_marked client inst rs s :
  (∀ k, k ∈ rs → k ∈ initialized s) →
  ∃ s', map_callbacks client inst rs s = (map (λ _, CbFulfilled) rs, s') ∧
        services s' = services s ∧ initialized s' = initialized s ∧
        _userDataSyncStoreClientPromise s' = _userDataSyncStoreClientPromise s ∧
        calls s' = calls s ∧ callbacks s' = callbacks s ∧
        out s' = out s ++ map (λ k, LogInfo (Area "" k " initialized already.")) rs.
Proof.
  revert s. induction rs as [|k rs IH]; intros s Hall.
  - exists s. simpl. by rewrite app_nil_r.
  - destruct (callback_start_cases client inst k s)
      as [(_ & E)|[(Hin & _)|(Hin & _)]];
      [|destruct Hin; apply Hall, list_elem_of_here..].
    destruct (IH (add_out (LogInfo (Area "" k " initialized already.")) s))
      as (s' & E' & Hsv & Hi & Hp & Hcs & Hcb & Ho).
    { intros k' Hk'. simpl. apply Hall. by apply list_elem_of_further. }
    exists s'. simpl. rewrite E, E'. simpl in *. rewrite Ho, <- app_assoc. done.
Qed.

(** X5: a call all of whose kinds are already marked returns as soon as it
    resumes.  It logs "initialized already" once per kind, marks and reads
    nothing, and does not wait for the reads or applies another call may
    still have in flight for those kinds. *)
Theorem marked_kinds_are_not_awaited s c call client :
  calls s !! c = Some call → status call = AwaitingClient →
  _userDataSyncStoreClientPromise s = Some (PromiseFulfilled (Some client)) →
  (∀ k, k ∈ syncResources call → k ∈ initialized s) →
  ∃ s', step s (ClientResume c) = Some s' ∧
    calls s' !! c = Some (set_status Returned call) ∧
    initialized s' = initialized s ∧
    out s' = out s ++ map (λ k, LogInfo (Area "" k " initialized already."))
                          (syncResources call) ∧
    ∀ k, pendingReads k s' = pendingReads k s ∧ pendingApplies k s' = pendingApplies k s.
Proof.
  intros Hc Hst Hp Hall.
  destruct (map_callbacks_all_marked client (instantiationService call) _ s Hall)
    as (s1 & E & Hsv & Hi & Hp1 & Hcs & Hcb & Ho).
  eexists. split; [simpl; rewrite Hc, Hp, Hst; simpl; rewrite E; reflexivity|].
  simpl. rewrite Hcs, Hcb. split_and!; try done.
  - rewrite list_lookup_insert_eq by eauto using lookup_lt_Some.
    f_equal. f_equal. unfold promise_all.
    assert (∀ rs : list SyncResource,
              first_rejection (map (λ _, CbFulfilled) rs) = None ∧
              List.filter is_pending (map (λ _, CbFulfilled) rs) = []) as Hdone.
    { induction rs as [|? ? [? ?]]; [done|]. simpl. done. }
    destruct (Hdone (syncResources call)) as [-> ->]. done.
  - intros k. unfold pendingReads, pendingApplies. simpl.
    rewrite !count_app, !map_map.
    rewrite (count_map _ (λ _ : SyncResource, false)) by done.
    rewrite (count_map (λ x, frame_awaits_apply k x.2) (λ _ : SyncResource, false)) by done.
    assert (∀ rs : list SyncResource, count (λ _, false) rs = 0) as Hz.
    { induction rs as [|? ? IHrs]; [done|]. by rewrite count_cons. }
    rewrite !Hz. lia.
Qed.

Lemma marked_kinds_are_not_awaited_witness :
  ∃ s', step other_requested_again (ClientResume 1) = Some s' ∧
        map status (calls s') = [AwaitingAll 2; Returned] ∧
        pendingReads Keybindings s' = 1 ∧ pendingReads Snippets s' = 1.
Proof.
  destruct (marked_kinds_are_not_awaited other_requested_again 1
              (suspended_call [Keybindings; Snippets] None) a_client
              eq_refl eq_refl eq_refl)
    as (s' & Hs & _ & _ & _ & _).
  - intros k. simpl. done.
  - exists s'. split; [exact Hs|].
    vm_compute in Hs. injection Hs as <-. vm_compute. done.
Defined.

(** X6: a kind in [initialized] has been read exactly once, with one
    exception: extensions can be marked without any read, and then the
    missing-service error is in the log. *)
Theorem only_extensions_can_be_marked_unread w evs s k :
  run (init w) evs = Some s → k ∈ initialized s →
  reads k s = 1 ∨
  (k = Extensions ∧ reads k s = 0 ∧ LogError missing_service_error ∈ out s).
Proof.
  intros H Hk. assert (reachable s) as Hreach by (by exists w, evs).
  pose proof (reachable_Inv _ Hreach) as HI.
  pose proof (reachable_Traced _ Hreach) as HT.
  destruct (inv_reads s HI k) as (Hle & _ & Hread).
  destruct (decide (k = Extensions)) as [->|Hne]; [|left; by apply Hread].
  destruct (tr_unread s HT Hk) as [?|Hlog]; [by left|].
  destruct (reads Extensions s) as [|[|n]] eqn:E; [right; done|by left|lia].
Qed.

Lemma only_extensions_can_be_marked_unread_witness :
  ∃ s, run (init web_services) extensions_without_service = Some s ∧
       (reads Extensions s = 1 ∨
        (Extensions = Extensions ∧ reads Extensions s = 0 ∧
         LogError missing_service_error ∈ out s)).
Proof.
  eexists. split; [vm_compute; reflexivity|].
  apply (only_extensions_can_be_marked_unread web_services extensions_without_service).
  - vm_compute. reflexivity.
  - simpl. apply list_elem_of_here.
Defined.

(** X7: from any state on, whatever happens, [initialized] and the output
    are only extended at their end: no kind is ever unmarked or reordered
    and nothing logged or done is ever taken back. *)
Theorem initialized_and_output_only_grow s evs s' :
  run s evs = Some s' →
  initialized s `prefix_of` initialized s' ∧ out s `prefix_of` out s'.
Proof.
  revert s. induction evs as [|ev evs IH]; intros s H; simpl in H.
  - by injection H as <-.
  - destruct (step s ev) as [s1|] eqn:E; [|done].
    destruct (step_appends _ _ _ E) as (ks & os & Hi & Ho & _).
    destruct (IH _ H) as [Hi' Ho']. split.
    + etrans; [|exact Hi']. rewrite Hi. by apply prefix_app_r.
    + etrans; [|exact Ho']. rewrite Ho. by apply prefix_app_r.
Qed.


Lemma initialized_and_output_only_grow_witness :
  ∃ s', run reading_other [ReadSettles 1 (Rejects (Error "offline")); CallOther;
                           ClientResume 1] = Some s' ∧
        initialized reading_other `prefix_of` initialized s' ∧
        out reading_other `prefix_of` out s'.
Proof.
  eexists. split; [vm_compute; reflexivity|].
  apply (initialized_and_output_only_grow reading_other
           [ReadSettles 1 (Rejects (Error "offline")); CallOther; ClientResume 1]).
  vm_compute. reflexivity.
Defined.

Lemma step_absent_auth s ev s' :
  _userDataSyncStoreClientPromise s = Some (PromiseFulfilled None) →
  step s ev = Some s' → authRequests s' = authRequests s.
Proof.
  intros Hp H. destruct (step_appends _ _ _ H) as (ks & os & _ & Ho & Hauth & _).
  unfold authRequests. rewrite Ho, count_app.
  destruct (count is_auth os) eqn:E; [lia|].
  destruct (count_pos_exists is_auth os) as (x & Hx & Hpx); [lia|].
  destruct x; try done. destruct (Hauth Hx) as (Hn & _). congruence.
Qed.

(** X8: once the builder has settled on no client, the service is inert for
    the rest of the process: no kind is marked, no callback is started,
    nothing is applied, no session is requested, and every call that
    resumes simply returns. *)
Theorem absent_client_makes_the_service_inert s evs s' :
  reachable s →
  _userDataSyncStoreClientPromise s = Some (PromiseFulfilled None) →
  run s evs = Some s' →
  initialized s' = [] ∧ callbacks s' = [] ∧
  (∀ k, applies k s' = 0) ∧ authRequests s' = authRequests s ∧
  ∀ c call, calls s' !! c = Some call →
    status call = AwaitingClient ∨ status call = Returned.
Proof.
  intros Hreach Hp Hrun.
  assert (reachable s') as Hreach' by eauto using reachable_run.
  pose proof (reachable_Inv _ Hreach') as HI.
  pose proof (reachable_Traced _ Hreach') as HT.
  pose proof (reachable_Accounted _ Hreach') as HA.
  pose proof (run_promise_settled _ _ _ _ Hp Hrun) as Hp'.
  assert (initialized s' = []) as Hnil.
  { destruct (initialized s') eqn:E; [done|].
    destruct (inv_client s' HI) as [client Hc]; [by rewrite E|congruence]. }
  assert (callbacks s' = []) as Hcb.
  { destruct (callbacks s') eqn:E; [done|].
    destruct (tr_callbacks s' HT) as [client Hc]; [by rewrite E|congruence]. }
  split_and!; [done|done| | |].
  - intros k. pose proof (inv_pending s' HI k) as Hpend.
    destruct (inv_reads s' HI k) as (_ & Hmark & _).
    destruct (reads k s') eqn:E; [lia|].
    exfalso. eapply not_elem_of_nil. rewrite <- Hnil. apply Hmark. lia.
  - revert Hrun Hp. clear. revert s.
    induction evs as [|ev evs IH]; intros s Hrun Hp; simpl in Hrun.
    + by injection Hrun as <-.
    + destruct (step s ev) as [s1|] eqn:E; [|done].
      rewrite (IH s1 Hrun (step_promise_settled _ _ _ _ Hp E)).
      by eapply step_absent_auth.
  - intros c call Hc. pose proof (acc_all s' HA _ _ Hc) as Hall.
    destruct (status call) as [|n| |e] eqn:Est; [by left| |by right|].
    + destruct Hall as [-> Hpos]. unfold pendingOf in Hpos. rewrite Hcb in Hpos.
      unfold count in Hpos. simpl in Hpos. lia.
    + pose proof (inv_calls s' HI c call e Hc Est). congruence.
Qed.

Lemma absent_client_makes_the_service_inert_witness :
  ∃ s', run (initializeRequiredResources (init desktop_services)) (tail late_web_session)
        = Some s' ∧
        initialized s' = [] ∧ callbacks s' = [].
Proof.
  assert (reachable (initializeRequiredResources (init desktop_services))) as Hreach.
  { exists desktop_services, [CallRequired]. reflexivity. }
  eexists. split; [vm_compute; reflexivity|].
  match goal with
  | |- initialized ?s' = [] ∧ _ =>
      destruct (absent_client_makes_the_service_inert
                  (initializeRequiredResources (init desktop_services))
                  (tail late_web_session) s' Hreach eq_refl)
        as (Hi & Hc & _)
  end.
  - vm_compute. reflexivity.
  - split; assumption.
Defined.

(** ** Every call can run to its end *)

Lemma sum_list_with_insert {A} (w : A → nat) (l : list A) i x y :
  l !! i = Some x →
  sum_list_with w (<[i := y]> l) + w x = sum_list_with w l + w y.
Proof.
  revert i. induction l as [|a l IH]; intros [|i] Hi; simplify_eq/=; [lia|].
  specialize (IH i Hi). lia.
Qed.

Lemma sum_list_with_pos {A} (w : A → nat) (l : list A) :
  0 < sum_list_with w l → ∃ i x, l !! i = Some x ∧ 0 < w x.
Proof.
  induction l as [|a l IH]; simpl; [lia|].
  destruct (w a) eqn:E.
  - intros H. destruct IH as (i & x & Hi & Hx); [lia|]. by exists (S i), x.
  - intros _. exists 0, a. split; [done|lia].
Qed.

Lemma sum_list_with_zero {A} (w : A → nat) (l : list A) i x :
  sum_list_with w l = 0 → l !! i = Some x → w x = 0.
Proof.
  intros H0 Hi. apply list_elem_of_lookup_2 in Hi.
  pose proof (sum_list_with_in x w l Hi). lia.
Qed.

Lemma callback_work_started client inst rs s fs s' :
  map_callbacks client inst rs s = (fs, s') →
  sum_list_with callback_work (map (pair 0) fs) ≤ 2 * length rs.
Proof.
  revert s fs s'. induction rs as [|k rs IH]; intros s fs s' H.
  - by injection H as <- <-.
  - callback_cases client inst k s H; specialize (IH _ _ _ E2);
      unfold callback_work in *; simpl in *; lia.
Qed.

Lemma callback_work_owner c c' fs :
  sum_list_with callback_work (map (pair c) fs)
  = sum_list_with callback_work (map (pair c') fs).
Proof. induction fs as [|f fs IH]; [done|]. simpl. by rewrite IH. Qed.

Lemma call_work_settle_one f call :
  call_work (set_status (settle_one f (status call)) call) = call_work call.
Proof. unfold call_work. simpl. by destruct (status call) as [|[|[|n]]| |], f. Qed.

(** A settled client promise stays as it is. *)
Lemma step_promise_kept s ev s' p :
  _userDataSyncStoreClientPromise s = Some p → (∀ st, p ≠ PromisePending st) →
  step s ev = Some s' → _userDataSyncStoreClientPromise s' = Some p.
Proof.
  intros Hp Hsettled H. destruct p as [st|oc|e].
  - by destruct (Hsettled st).
  - by eapply step_promise_settled.
  - by eapply step_promise_rejected.
Qed.

(** While work is left and the client promise is settled, some transition
    is enabled that leaves less of it. *)
Lemma work_can_be_done s p :
  _userDataSyncStoreClientPromise s = Some p → (∀ st, p ≠ PromisePending st) →
  0 < work s →
  ∃ ev s', step s ev = Some s' ∧ work s' < work s.
Proof.
  intros Hp Hsettled Hw. unfold work in Hw.
  destruct (sum_list_with call_work (calls s)) eqn:Ecalls.
  - (* a callback is pending *)
    destruct (sum_list_with_pos callback_work (callbacks s)) as (i & [c f] & Hi & Hf); [lia|].
    assert (sum_list_with call_work
              (match calls s !! c with
               | Some call => <[c := set_status (settle_one
                                   match f with CbAwaitsRead k _ => CbAwaitsApply k
                                              | _ => CbFulfilled end (status call)) call]>
                                (calls s)
               | None => calls s
               end) = 0) as Hcalls.
    { destruct (calls s !! c) as [call|] eqn:Ec; [|done].
      pose proof (sum_list_with_insert call_work _ _ _
                    (set_status (settle_one match f with CbAwaitsRead k _ => CbAwaitsApply k
                                                       | _ => CbFulfilled end (status call)) call)
                    Ec) as Hx.
      rewrite call_work_settle_one in Hx. lia. }
    destruct f as [k ini|k| |e]; unfold callback_work in Hf; simpl in Hf; try lia.
    + exists (ReadSettles i (Resolves some_data)). eexists. split.
      { simpl. rewrite Hi. reflexivity. }
      unfold work. simpl.
      pose proof (sum_list_with_insert callback_work _ _ _ (c, CbAwaitsApply k) Hi) as Hx.
      unfold callback_work at 2 4 in Hx. simpl in Hx. rewrite Hcalls. lia.
    + exists (ApplySettles i (Resolves tt)). eexists. split.
      { simpl. rewrite Hi. reflexivity. }
      unfold work. simpl.
      pose proof (sum_list_with_insert callback_work _ _ _ (c, CbFulfilled) Hi) as Hx.
      unfold callback_work at 2 4 in Hx. simpl in Hx. rewrite Hcalls. lia.
  - (* a call is suspended *)
    destruct (sum_list_with_pos call_work (calls s)) as (c & call & Hc & Hcw); [lia|].
    assert (status call = AwaitingClient) as Hst.
    { unfold call_work in Hcw. destruct (status call); (done || lia). }
    assert (call_work call = 1 + 2 * length (syncResources call)) as Hcw'.
    { unfold call_work. by rewrite Hst. }
    exists (ClientResume c). simpl. rewrite Hc, Hp, Hst. simpl.
    destruct p as [st|[client|]|e]; [by destruct (Hsettled st)| | |]; simpl.
    + destruct (map_callbacks client (instantiationService call) (syncResources call) s)
        as [fs s1] eqn:E.
      eexists. split; [reflexivity|]. unfold work. simpl.
      destruct (map_callbacks_fields _ _ _ _ _ _ E) as (_ & _ & Hcs & Hcb & _).
      pose proof (callback_work_started _ _ _ _ _ _ E) as Hfs.
      rewrite (callback_work_owner 0 c) in Hfs.
      rewrite Hcs, Hcb, sum_list_with_app.
      pose proof (sum_list_with_insert call_work _ _ _
                    (set_status (promise_all fs) call) Hc) as Hx.
      assert (call_work (set_status (promise_all fs) call) = 0) as Hz.
      { unfold call_work. simpl. pose proof (promise_all_dispatched fs).
        by destruct (promise_all fs). }
      lia.
    + eexists. split; [reflexivity|]. unfold work. simpl.
      pose proof (sum_list_with_insert call_work _ _ _ (set_status Returned call) Hc) as Hx.
      assert (call_work (set_status Returned call) = 0) as Hz by done.
      lia.
    + eexists. split; [reflexivity|]. unfold work. simpl.
      pose proof (sum_list_with_insert call_work _ _ _ (set_status (Raised e) call) Hc)
        as Hx.
      assert (call_work (set_status (Raised e) call) = 0) as Hz by done.
      lia.
Qed.

Lemma work_runs_out n s p :
  _userDataSyncStoreClientPromise s = Some p → (∀ st, p ≠ PromisePending st) →
  work s ≤ n →
  ∃ evs s', run s evs = Some s' ∧ work s' = 0 ∧
            _userDataSyncStoreClientPromise s' = Some p.
Proof.
  revert s. induction n as [|n IH]; intros s Hp Hsettled Hn.
  - exists [], s. split; [done|]. split; [lia|done].
  - destruct (work s) eqn:E; [by exists [], s|].
    destruct (work_can_be_done s p Hp Hsettled) as (ev & s1 & Hs & Hlt); [lia|].
    destruct (IH s1) as (evs & s' & Hrun & Hz & Hp');
      [by eapply step_promise_kept|done|lia|].
    exists (ev :: evs), s'. simpl. by rewrite Hs.
Qed.

(** X9: the service cannot get stuck.  From every reachable state some run
    leads to rest: every callback has finished and every call made so far
    has been answered.  The answer is a return, unless the client promise
    was rejected in that state already: those calls are rejected with its
    error. *)
Theorem every_call_can_settle s :
  reachable s →
  ∃ evs s', run s evs = Some s' ∧
    (∀ c call, calls s' !! c = Some call →
       status call = Returned ∨
       ∃ e, status call = Raised e ∧
            _userDataSyncStoreClientPromise s = Some (PromiseRejected e)) ∧
    (∀ i c f, callbacks s' !! i = Some (c, f) → f = CbFulfilled).
Proof.
  intros Hreach.
  assert (∃ evs0 s0 p, run s evs0 = Some s0 ∧
            _userDataSyncStoreClientPromise s0 = Some p ∧
            (∀ st, p ≠ PromisePending st) ∧
            (∀ e, p = PromiseRejected e →
                  _userDataSyncStoreClientPromise s = Some (PromiseRejected e)))
    as (evs0 & s0 & p & Hrun0 & Hp0 & Hsettled & Hback).
  { destruct (_userDataSyncStoreClientPromise s) as [[st|oc|e]|] eqn:Hp.
    - exists [AuthSettles (Resolves None)]. eexists. exists (PromiseFulfilled None).
      simpl. rewrite Hp. done.
    - exists [], s, (PromiseFulfilled oc). done.
    - exists [], s, (PromiseRejected e). split_and!; [done|done|done|].
      by intros e' [= ->].
    - pose proof (builder_start_chain s) as Hb.
      destruct (first_failing (services s)) as [reason|] eqn:Ef.
      + exists [CallRequired]. eexists. exists (PromiseFulfilled None).
        split; [reflexivity|].
        unfold initializeRequiredResources, initialize, createUserDataSyncStoreClient.
        rewrite Hp, Hb. done.
      + destruct Hb as (st & _ & Hb).
        assert (_userDataSyncStoreClientPromise (initializeRequiredResources s)
                = Some (PromisePending st)) as Hpend.
        { unfold initializeRequiredResources, initialize, createUserDataSyncStoreClient.
          rewrite Hp, Hb. done. }
        exists [CallRequired; AuthSettles (Resolves None)]. eexists.
        exists (PromiseFulfilled None).
        split; [cbn [run step]; rewrite Hpend; reflexivity|done]. }
  destruct (work_runs_out (work s0) s0 p Hp0 Hsettled) as (evs & s' & Hrun & Hz & Hp');
    [done|].
  exists (evs0 ++ evs), s'. split; [by rewrite run_app, Hrun0|].
  assert (reachable s') as Hreach' by eauto using reachable_run.
  pose proof (reachable_Inv _ Hreach') as HI.
  pose proof (reachable_Accounted _ Hreach') as HA.
  unfold work in Hz.
  assert (∀ i c f, callbacks s' !! i = Some (c, f) → f = CbFulfilled) as Hdone.
  { intros i c f Hl.
    pose proof (sum_list_with_zero callback_work (callbacks s') i (c, f) ltac:(lia) Hl)
      as Hx.
    unfold callback_work in Hx. simpl in Hx.
    destruct f as [| | |e]; [lia..|done|].
    by destruct (inv_callbacks s' HI i c e). }
  split; [|done].
  intros c call Hc.
  pose proof (sum_list_with_zero call_work (calls s') c call ltac:(lia) Hc) as Hx.
  pose proof (acc_all s' HA _ _ Hc) as Hall.
  unfold call_work in Hx.
  destruct (status call) as [|n| |e] eqn:Est; [lia| |by left|].
  - destruct Hall as [-> Hpos]. exfalso.
    destruct (count_pos_exists (owned_pending c) (callbacks s')) as ([c' f] & Hin & Hpx);
      [done|].
    apply list_elem_of_lookup in Hin as [i Hi]. rewrite (Hdone _ _ _ Hi) in Hpx.
    unfold owned_pending in Hpx. simpl in Hpx. by rewrite andb_false_r in Hpx.
  - right. exists e. split; [done|]. apply Hback.
    pose proof (inv_calls s' HI c call e Hc Est). congruence.
Qed.

Lemma every_call_can_settle_witness :
  ∃ evs s', run reading_other evs = Some s' ∧
    (∀ c call, calls s' !! c = Some call →
       status call = Returned ∨
       ∃ e, status call = Raised e ∧
            _userDataSyncStoreClientPromise reading_other = Some (PromiseRejected e)) ∧
    (∀ i c f, callbacks s' !! i = Some (c, f) → f = CbFulfilled).
Proof. exact (every_call_can_settle reading_other reading_other_reachable). Defined.

(** * Beyond the claims: BulkCellEdits *)

(** A synchronous call throws and ends [apply], or returns and [apply] goes
    on. *)
Lemma call_cases throws n c then_ :
  (∃ e, throws n c = Some e ∧ BulkCellEdits.call throws n c then_ = (BulkCellEdits.Failed e, [c]))
  ∨ (throws n c = None ∧ BulkCellEdits.call throws n c then_ = (then_.1, c :: then_.2)).
Proof. unfold BulkCellEdits.call. destruct (throws n c) as [e|]; eauto. Qed.

(** Case analysis on the three calls of an iteration that found its
    notebook unchanged. *)
Ltac iteration_cases throws n :=
  let Ea := fresh "Ea" in let Ed := fresh "Ed" in let Er := fresh "Er" in
  unfold BulkCellEdits.call;
  destruct (throws n (BulkCellEdits.ApplyEdit _ _ _)) as [?|] eqn:Ea;
  [|destruct (throws n (BulkCellEdits.Dispose _)) as [?|] eqn:Ed;
    [|destruct (throws n BulkCellEdits.Report) as [?|] eqn:Er]].

Lemma apply_groups_bracketed resolve throws n groups :
  (BulkCellEdits.well_bracketed None (BulkCellEdits.apply_groups resolve throws n groups).2
   = true ↔
   ∀ uri v es, last (BulkCellEdits.apply_groups resolve throws n groups).2
               ≠ Some (BulkCellEdits.ApplyEdit uri v es)) ∧
  (∀ uri v es,
     last (BulkCellEdits.apply_groups resolve throws n groups).2
     = Some (BulkCellEdits.ApplyEdit uri v es) →
     ∃ m e, throws m (BulkCellEdits.ApplyEdit uri v es) = Some e ∧
            (BulkCellEdits.apply_groups resolve throws n groups).1 = BulkCellEdits.Failed e).
Proof.
  revert n. induction groups as [|[|first rest] groups IH]; intros n; simpl; [done..|].
  destruct (resolve n _) as [v|e]; [|done].
  destruct (BulkCellEdits.changed first v).
  - unfold BulkCellEdits.call. destruct (throws n (BulkCellEdits.Dispose _));
      simpl; rewrite bool_decide_eq_true_2 by done; done.
  - iteration_cases throws n; simpl;
      rewrite ?bool_decide_eq_true_2, ?Nat.eqb_refl by done; simpl.
    + split.
      * split; [done|]. intros H. by destruct (H (BulkCellEdits.resource first) v
                                                 (map BulkCellEdits.cellEdit (first :: rest))).
      * intros uri v' es [= <- <- <-]. eauto.
    + done.
    + done.
    + destruct (IH (S n)) as [IH1 IH2].
      destruct (BulkCellEdits.apply_groups resolve throws (S n) groups) as [outcome effects].
      simpl in *.
      assert (∀ c, last (BulkCellEdits.Resolved (BulkCellEdits.resource first) v
                          :: BulkCellEdits.ApplyEdit (BulkCellEdits.resource first) v
                               (BulkCellEdits.cellEdit first
                                  :: map BulkCellEdits.cellEdit rest)
                          :: BulkCellEdits.Dispose (BulkCellEdits.resource first)
                          :: BulkCellEdits.Report :: effects) = Some c →
                   BulkCellEdits.is_applyEdit c = true → last effects = Some c) as Hlast.
      { intros c. rewrite !last_cons. destruct (last effects); [done|].
        by intros [= <-]. }
      assert (∀ c, last effects = Some c →
                   last (BulkCellEdits.Resolved (BulkCellEdits.resource first) v
                          :: BulkCellEdits.ApplyEdit (BulkCellEdits.resource first) v
                               (BulkCellEdits.cellEdit first
                                  :: map BulkCellEdits.cellEdit rest)
                          :: BulkCellEdits.Dispose (BulkCellEdits.resource first)
                          :: BulkCellEdits.Report :: effects) = Some c) as Hlast'.
      { intros c Hc. by rewrite !last_cons, Hc. }
      split.
      * rewrite IH1. split; intros H uri v' es Hl.
        -- apply Hlast in Hl; [|done]. by apply (H uri v' es).
        -- apply Hlast' in Hl. by apply (H uri v' es).
      * intros uri v' es Hl. apply IH2. by apply Hlast.
Qed.

(** X10: over the calls it makes, [apply] keeps the protocol of notebook
    references (at most one held at a time, edits only to the reference held
    and with the version it was resolved at, [dispose] called once on every
    reference) in every case but one: when [notebook.applyEdit] throws.
    There is no [finally] around it, so that call is the last thing [apply]
    does, its exception is what [apply] rejects with, and the reference is
    never disposed.  On the refusal path ("has changed in the meantime") the
    reference is disposed like on the success path. *)
Theorem apply_disposes_unless_applyEdit_throws groupBy compare edits resolve throws :
  let result := BulkCellEdits.apply groupBy compare edits resolve throws in
  (BulkCellEdits.well_bracketed None result.2 = true ↔
   ∀ uri v es, last result.2 ≠ Some (BulkCellEdits.ApplyEdit uri v es)) ∧
  (∀ uri v es, last result.2 = Some (BulkCellEdits.ApplyEdit uri v es) →
     ∃ m e, throws m (BulkCellEdits.ApplyEdit uri v es) = Some e ∧
            result.1 = BulkCellEdits.Failed e) ∧
  ((∀ m uri v es, throws m (BulkCellEdits.ApplyEdit uri v es) = None) →
   BulkCellEdits.well_bracketed None result.2 = true).
Proof.
  intros result. unfold result, BulkCellEdits.apply.
  destruct (apply_groups_bracketed resolve throws 0
              (groupBy (λ a b, compare (BulkCellEdits.resource a) (BulkCellEdits.resource b))
                       edits)) as [H1 H2].
  split_and!; [done|done|].
  intros Hnever. apply H1. intros uri v es Hl.
  destruct (H2 uri v es Hl) as (m & e & Hm & _). by rewrite Hnever in Hm.
Qed.

Lemma apply_groups_prefix resolve throws n groups :
  BulkCellEdits.applied (BulkCellEdits.apply_groups resolve throws n groups).2
    `prefix_of` omap BulkCellEdits.request groups ∧
  BulkCellEdits.reports (BulkCellEdits.apply_groups resolve throws n groups).2
  ≤ length (BulkCellEdits.applied (BulkCellEdits.apply_groups resolve throws n groups).2) ∧
  length (BulkCellEdits.applied (BulkCellEdits.apply_groups resolve throws n groups).2)
  ≤ BulkCellEdits.reports (BulkCellEdits.apply_groups resolve throws n groups).2 + 1 ∧
  ((BulkCellEdits.apply_groups resolve throws n groups).1 = BulkCellEdits.Done →
   BulkCellEdits.applied (BulkCellEdits.apply_groups resolve throws n groups).2
   = omap BulkCellEdits.request groups ∧
   BulkCellEdits.reports (BulkCellEdits.apply_groups resolve throws n groups).2
   = length groups).
Proof.
  revert n. induction groups as [|[|first rest] groups IH]; intros n; simpl.
  - split_and!; [done|done|by constructor|done].
  - split_and!; [apply prefix_nil|done|by constructor|done].
  - destruct (resolve n _) as [v|e];
      [|split_and!; [apply prefix_nil|done|by constructor|done]].
    destruct (BulkCellEdits.changed first v).
    { unfold BulkCellEdits.call. destruct (throws n (BulkCellEdits.Dispose _)); simpl;
        (split_and!; [apply prefix_nil|done|by constructor|done]). }
    iteration_cases throws n; simpl;
      try (split_and!; [by apply prefix_cons, prefix_nil
                       |unfold BulkCellEdits.reports, count; simpl; lia..|done]).
    destruct (IH (S n)) as (Hpre & Hle & Hge & Hdone).
    destruct (BulkCellEdits.apply_groups resolve throws (S n) groups) as [outcome effects].
    simpl in *. unfold BulkCellEdits.reports in *. rewrite !count_cons. simpl.
    split_and!.
    + by apply prefix_cons.
    + unfold count in *. lia.
    + unfold count in *. lia.
    + intros Hd. destruct (Hdone Hd) as [-> ->]. done.
Qed.

(** X11: [apply] goes through the groups in order and stops at the first one
    it cannot finish.  The notebooks that were handed edits are a prefix of
    the groups, each with all the cell edits of its group in one call; they
    are not rolled back when a later group fails.  Progress is reported once
    per notebook that was handed edits, except that the last of them gets no
    report when its [applyEdit] or [dispose] throws; and when [apply]
    succeeds every group was applied and reported. *)
Theorem apply_stops_at_first_failure groupBy compare edits resolve throws :
  let groups := groupBy (λ a b, compare (BulkCellEdits.resource a) (BulkCellEdits.resource b))
                        edits in
  let result := BulkCellEdits.apply groupBy compare edits resolve throws in
  BulkCellEdits.applied result.2 `prefix_of` omap BulkCellEdits.request groups ∧
  BulkCellEdits.reports result.2 ≤ length (BulkCellEdits.applied result.2) ∧
  length (BulkCellEdits.applied result.2) ≤ BulkCellEdits.reports result.2 + 1 ∧
  (result.1 = BulkCellEdits.Done →
   BulkCellEdits.applied result.2 = omap BulkCellEdits.request groups ∧
   BulkCellEdits.reports result.2 = length groups).
Proof. apply apply_groups_prefix. Qed.

(** X12: the loop of [apply] succeeds exactly when, for every group, the
    group is not empty, its notebook resolves, the [versionId] of its first
    edit is absent or equal to the version of the resolved notebook, and
    none of [applyEdit], [dispose] and [report] throws. *)
Theorem apply_succeeds_iff_every_group_is_applicable resolve throws n groups :
  (BulkCellEdits.apply_groups resolve throws n groups).1 = BulkCellEdits.Done ↔
  ∀ i group, groups !! i = Some group →
             BulkCellEdits.applicable resolve throws (n + i) group.
Proof.
  revert n. induction groups as [|group groups IH]; intros n.
  - split; [by intros _ i group ?|done].
  - assert (∀ first v, BulkCellEdits.changed first v = false ↔
              (BulkCellEdits.versionId first = None ∨ BulkCellEdits.versionId first = Some v))
      as Hchanged.
    { intros first v. unfold BulkCellEdits.changed.
      destruct (BulkCellEdits.versionId first) as [v'|]; [|split; [by left|done]].
      rewrite negb_false_iff, Nat.eqb_eq.
      split; [intros ->; by right|intros [?|[= ->]]; done]. }
    assert (∀ first rest,
              group = first :: rest →
              (BulkCellEdits.apply_groups resolve throws n (group :: groups)).1
              = BulkCellEdits.Done ↔
              (∃ v, resolve n (BulkCellEdits.resource first) = Resolves v ∧
                    BulkCellEdits.changed first v = false ∧
                    throws n (BulkCellEdits.ApplyEdit (BulkCellEdits.resource first) v
                                (map BulkCellEdits.cellEdit group)) = None ∧
                    throws n (BulkCellEdits.Dispose (BulkCellEdits.resource first)) = None ∧
                    throws n BulkCellEdits.Report = None) ∧
              (BulkCellEdits.apply_groups resolve throws (S n) groups).1
              = BulkCellEdits.Done) as Hhead.
    { intros first rest ->. simpl.
      destruct (resolve n _) as [v|e];
        [|split; [done|by intros [(v & ? & _) _]]].
      destruct (BulkCellEdits.changed first v) eqn:Ec.
      { unfold BulkCellEdits.call. destruct (throws n (BulkCellEdits.Dispose _)); simpl;
          (split; [done|]); intros [(v' & [= <-] & ? & _) _]; congruence. }
      iteration_cases throws n; simpl;
        try (split; [done|]; intros [(v' & [= <-] & _ & ? & ? & ?) _]; congruence).
      split; [|by intros [_ ?]].
      intros Hd. split; [|done]. by exists v. }
    split.
    + intros Hd. destruct group as [|first rest]; [done|].
      apply (Hhead first rest eq_refl) in Hd as [(v & Hr & Hc & Ha & Hdi & Hre) Hrest].
      intros [|i] g Hg; simplify_eq/=.
      * exists first, rest, v. rewrite Nat.add_0_r. by rewrite <- Hchanged.
      * replace (n + S i) with (S n + i) by lia. by apply (IH (S n)).
    + intros Hall.
      destruct (Hall 0 group eq_refl) as (first & rest & v & -> & Hr & Hv & Ha & Hdi & Hre).
      rewrite Nat.add_0_r in *. apply (Hhead first rest eq_refl). split.
      * exists v. by rewrite Hchanged.
      * apply IH. intros i g Hg.
        replace (S n + i) with (n + S i) by lia. by apply (Hall (S i)).
Qed.

(** X13: of each group [apply] looks at the first edit only.  Two lists of
    groups whose groups agree on their first edit and on their cell edits
    are treated alike: the [versionId] and the resource of any other edit
    are never read, so a stale [versionId] further down a group goes
    unnoticed. *)
Theorem only_the_first_edit_is_checked resolve throws n groups groups' :
  Forall2 (λ g g', head g = head g' ∧
                   map BulkCellEdits.cellEdit g = map BulkCellEdits.cellEdit g')
          groups groups' →
  BulkCellEdits.apply_groups resolve throws n groups
  = BulkCellEdits.apply_groups resolve throws n groups'.
Proof.
  intros H. revert n. induction H as [|g g' groups groups' [Hh Hm] _ IH]; intros n; [done|].
  destruct g as [|first rest], g' as [|first' rest']; simplify_eq/=; [done|].
  destruct (resolve n _) as [v|e]; [|done].
  destruct (BulkCellEdits.changed first' v); [done|].
  by rewrite (IH (S n)), Hm.
Qed.

Lemma only_the_first_edit_is_checked_witness :
  BulkCellEdits.apply_groups BulkCellEdits.all_at_version_3 BulkCellEdits.never_throws 0
    [[BulkCellEdits.edit_a; BulkCellEdits.edit_a_stale]; [BulkCellEdits.edit_b]]
  = BulkCellEdits.apply_groups BulkCellEdits.all_at_version_3 BulkCellEdits.never_throws 0
      [[BulkCellEdits.edit_a; BulkCellEdits.edit_a_unversioned]; [BulkCellEdits.edit_b]].
Proof.
  apply only_the_first_edit_is_checked.
  repeat constructor.
Defined.

Lemma apply_succeeds_iff_every_group_is_applicable_witness :
  (BulkCellEdits.apply_groups BulkCellEdits.all_at_version_3 BulkCellEdits.never_throws 0
     [[BulkCellEdits.edit_a; BulkCellEdits.edit_a_stale]]).1 = BulkCellEdits.Done.
Proof.
  apply apply_succeeds_iff_every_group_is_applicable.
  intros [|i] group Hg; [|discriminate Hg].
  injection Hg as <-.
  exists BulkCellEdits.edit_a, [BulkCellEdits.edit_a_stale], 3.
  split; [reflexivity|]. split; [reflexivity|]. split; [right; reflexivity|].
  split_and!; reflexivity.
Defined.

(** The stale edit of the first notebook is applied, the second notebook is
    refused, and the first is not rolled back. *)
Example stale_second_notebook :
  BulkCellEdits.apply_groups BulkCellEdits.all_at_version_3 BulkCellEdits.never_throws 0
    [[BulkCellEdits.edit_a; BulkCellEdits.edit_a_stale]; [BulkCellEdits.edit_b]]
  = (BulkCellEdits.Failed
       (Error "Notebook 'file:///b.ipynb' has changed in the meantime"),
     [ BulkCellEdits.Resolved "file:///a.ipynb" 3;
       BulkCellEdits.ApplyEdit "file:///a.ipynb" 3
         [BulkCellEdits.CellEditOperation 1; BulkCellEdits.CellEditOperation 2];
       BulkCellEdits.Dispose "file:///a.ipynb";
       BulkCellEdits.Report;
       BulkCellEdits.Resolved "file:///b.ipynb" 3;
       BulkCellEdits.Dispose "file:///b.ipynb" ]).
Proof. reflexivity. Qed.

(** Both groups are applicable as far as versions go, but the second
    notebook throws on its edits: [apply] rejects with that exception, the
    second reference is left undisposed and gets no progress report. *)
Example second_notebook_throws :
  BulkCellEdits.apply_groups BulkCellEdits.all_at_version_3
    BulkCellEdits.second_applyEdit_throws 0
    [[BulkCellEdits.edit_a]; [BulkCellEdits.edit_a_unversioned]]
  = (BulkCellEdits.Failed (Error "Invalid cell range"),
     [ BulkCellEdits.Resolved "file:///a.ipynb" 3;
       BulkCellEdits.ApplyEdit "file:///a.ipynb" 3 [BulkCellEdits.CellEditOperation 1];
       BulkCellEdits.Dispose "file:///a.ipynb";
       BulkCellEdits.Report;
       BulkCellEdits.Resolved "file:///a.ipynb" 3;
       BulkCellEdits.ApplyEdit "file:///a.ipynb" 3 [BulkCellEdits.CellEditOperation 2] ]).
Proof. reflexivity. Qed.

(** * Beyond the claims: ConfigBasedRecommendations *)

Module CBR := ConfigBasedRecommendations.

Lemma Map_set_keys key value (m : CBR.TipMap) k :
  k ∈ (CBR.Map_set key value m).*1 ↔ k = key ∨ k ∈ m.*1.
Proof.
  induction m as [|[k0 v0] m IH]; simpl.
  - rewrite list_elem_of_singleton, elem_of_nil. tauto.
  - destruct (decide (k0 = key)) as [->|Hne]; simpl; rewrite !elem_of_cons.
    + tauto.
    + rewrite IH. tauto.
Qed.

Lemma Map_set_elements key value (m : CBR.TipMap) k v :
  (k, v) ∈ CBR.Map_set key value m → (k = key ∧ v = value) ∨ (k, v) ∈ m.
Proof.
  induction m as [|[k0 v0] m IH]; simpl.
  - rewrite list_elem_of_singleton. intros [= -> ->]. by left.
  - destruct (decide (k0 = key)) as [->|Hne]; rewrite !elem_of_cons.
    + intros [[= -> ->]|?]; auto.
    + intros [?|?]; [auto|]. destruct IH as [?|?]; auto.
Qed.

Lemma Map_set_keyed key value (m : CBR.TipMap) :
  CBR.keyed m → CBR.extensionId value = key → CBR.keyed (CBR.Map_set key value m).
Proof.
  intros [Hnd Hid] Hv. split.
  - clear Hid. induction m as [|[k0 v0] m IH]; simpl.
    + apply NoDup_singleton.
    + simpl in Hnd. apply NoDup_cons in Hnd as [Hk0 Hnd].
      destruct (decide (k0 = key)) as [->|Hne]; simpl.
      * by apply NoDup_cons.
      * apply NoDup_cons. split; [|by apply IH].
        rewrite Map_set_keys. intros [?|?]; done.
  - intros k v [[-> ->]|Hin]%Map_set_elements; [done|by apply Hid].
Qed.

Lemma keyed_nil : CBR.keyed [].
Proof. split; [apply NoDup_nil_2|by intros k v ?%elem_of_nil]. Qed.

Lemma keyed_ids (m : CBR.TipMap) :
  CBR.keyed m → map CBR.extensionId (CBR.Map_values m) = m.*1.
Proof.
  intros [_ Hid]. unfold CBR.Map_values.
  induction m as [|[k v] m IH]; [done|]. simpl. f_equal.
  - apply Hid, list_elem_of_here.
  - apply IH. intros k' v' Hin. apply Hid. by apply list_elem_of_further.
Qed.

(** What the two maps hold after the tips of one folder. *)
Lemma sort_tips_spec tips imp oth imp' oth' :
  CBR.sort_tips tips imp oth = (imp', oth') →
  CBR.keyed imp → CBR.keyed oth →
  CBR.keyed imp' ∧ CBR.keyed oth' ∧
  (∀ id, id ∈ imp'.*1 ↔
         id ∈ imp.*1 ∨ ∃ tip, tip ∈ tips ∧ CBR.extensionId tip = id ∧ CBR.important tip = true) ∧
  (∀ id, id ∈ oth'.*1 ↔
         id ∈ oth.*1 ∨ ∃ tip, tip ∈ tips ∧ CBR.extensionId tip = id ∧ CBR.important tip = false).
Proof.
  revert imp oth. induction tips as [|tip tips IH]; intros imp oth H Hi Ho; simpl in H.
  - injection H as <- <-. split_and!; [done..| |];
      intros id; split; [auto|intros [?|(tip & ?%elem_of_nil & _)]; done
                        |auto|intros [?|(tip & ?%elem_of_nil & _)]; done].
  - destruct (CBR.important tip) eqn:E.
    + destruct (IH _ _ H (Map_set_keyed _ _ _ Hi eq_refl) Ho) as (Hi' & Ho' & Himp & Hoth).
      split_and!; [done..| |].
      * intros id. rewrite Himp, Map_set_keys. split.
        -- intros [[->|?]|(t & Ht & ? & ?)]; [right; exists tip|by left|right; exists t];
             (split_and!; [|done..]); [apply list_elem_of_here|by apply list_elem_of_further].
        -- intros [?|(t & [->|Ht]%elem_of_cons & <- & ?)]; eauto 10.
      * intros id. rewrite Hoth. split.
        -- intros [?|(t & Ht & ? & ?)]; [by left|right; exists t].
           split_and!; [by apply list_elem_of_further|done..].
        -- intros [?|(t & [->|Ht]%elem_of_cons & <- & ?)]; [by left|congruence|eauto 10].
    + destruct (IH _ _ H Hi (Map_set_keyed _ _ _ Ho eq_refl)) as (Hi' & Ho' & Himp & Hoth).
      split_and!; [done..| |].
      * intros id. rewrite Himp. split.
        -- intros [?|(t & Ht & ? & ?)]; [by left|right; exists t].
           split_and!; [by apply list_elem_of_further|done..].
        -- intros [?|(t & [->|Ht]%elem_of_cons & <- & ?)]; [by left|congruence|eauto 10].
      * intros id. rewrite Hoth, Map_set_keys. split.
        -- intros [[->|?]|(t & Ht & ? & ?)]; [right; exists tip|by left|right; exists t];
             (split_and!; [|done..]); [apply list_elem_of_here|by apply list_elem_of_further].
        -- intros [?|(t & [->|Ht]%elem_of_cons & <- & ?)]; eauto 10.
Qed.

Lemma collect_spec oracle n folders imp oth imp' oth' :
  CBR.collect oracle n folders imp oth = Normal (imp', oth') →
  CBR.keyed imp → CBR.keyed oth →
  CBR.keyed imp' ∧ CBR.keyed oth' ∧
  (∀ id, id ∈ imp'.*1 ↔
         id ∈ imp.*1 ∨ ∃ tip, tip ∈ CBR.answered oracle n folders ∧
                              CBR.extensionId tip = id ∧ CBR.important tip = true) ∧
  (∀ id, id ∈ oth'.*1 ↔
         id ∈ oth.*1 ∨ ∃ tip, tip ∈ CBR.answered oracle n folders ∧
                              CBR.extensionId tip = id ∧ CBR.important tip = false).
Proof.
  revert n imp oth. induction folders as [|folder folders IH]; intros n imp oth H Hi Ho;
    simpl in *.
  - injection H as <- <-. split_and!; [done..| |];
      intros id; split; [auto|intros [?|(tip & ?%elem_of_nil & _)]; done
                        |auto|intros [?|(tip & ?%elem_of_nil & _)]; done].
  - destruct (oracle n folder) as [tips|e]; [|done].
    destruct (CBR.sort_tips tips imp oth) as [imp1 oth1] eqn:E.
    destruct (sort_tips_spec _ _ _ _ _ E Hi Ho) as (Hi1 & Ho1 & Himp1 & Hoth1).
    destruct (IH _ _ _ H Hi1 Ho1) as (Hi' & Ho' & Himp & Hoth).
    split_and!; [done..| |].
    + intros id. rewrite Himp, Himp1. setoid_rewrite elem_of_app. split.
      * intros [[?|(t & ? & ? & ?)]|(t & ? & ? & ?)]; eauto 10.
      * intros [?|(t & [?|?] & ? & ?)]; eauto 10.
    + intros id. rewrite Hoth, Hoth1. setoid_rewrite elem_of_app. split.
      * intros [[?|(t & ? & ? & ?)]|(t & ? & ? & ?)]; eauto 10.
      * intros [?|(t & [?|?] & ? & ?)]; eauto 10.
Qed.

Lemma NoDup_map_filter {A B} (f : A → B) (p : A → bool) (l : list A) :
  NoDup (map f l) → NoDup (map f (List.filter p l)).
Proof.
  induction l as [|a l IH]; simpl; [done|].
  intros [Hnot Hnd]%NoDup_cons. destruct (p a); simpl; [|by apply IH].
  apply NoDup_cons. split; [|by apply IH].
  intros Hin. apply Hnot.
  change (map f ?x) with (f <$> x) in *.
  apply list_elem_of_fmap in Hin as (x & -> & Hx).
  apply list_elem_of_fmap. exists x. split; [done|].
  apply list_elem_of_In. apply list_elem_of_In in Hx.
  by apply List.filter_In in Hx as [? _].
Qed.

Lemma recommendation_ids (l : list CBR.IConfigBasedExtensionTip) :
  map CBR.extensionId' (map CBR.toExtensionRecommendation l) = map CBR.extensionId l.
Proof. induction l as [|a l IH]; [done|]. simpl. by rewrite IH. Qed.

Lemma elem_of_map_filter {A B} (f : A → B) (p : A → bool) (l : list A) y :
  y ∈ map f (List.filter p l) ↔ ∃ x, x ∈ l ∧ p x = true ∧ f x = y.
Proof.
  change (map f ?x) with (f <$> x). rewrite list_elem_of_fmap. split.
  - intros (x & -> & Hx). apply list_elem_of_In, List.filter_In in Hx as [Hx Hp].
    exists x. by rewrite list_elem_of_In.
  - intros (x & Hx & Hp & <-). exists x. split; [done|].
    apply list_elem_of_In, List.filter_In. by rewrite <- list_elem_of_In.
Qed.

(** X14: after a fetch that succeeded no extension is recommended twice:
    the ids of [recommendations] (the important ones followed by the others)
    are pairwise distinct, however often and in however many folders the
    service named an extension. *)
Theorem recommendations_have_no_duplicates folders oracle o o' :
  CBR.fetch folders oracle o = (Normal tt, o') →
  NoDup (map CBR.extensionId' (CBR.recommendations o')).
Proof.
  unfold CBR.fetch.
  destruct (CBR.collect oracle 0 folders [] []) as [[imp oth]|e] eqn:E; [|done].
  intros [= <-].
  destruct (collect_spec _ _ _ _ _ _ _ E keyed_nil keyed_nil) as (Hi & Ho & _ & _).
  unfold CBR.recommendations. simpl. rewrite map_app, !recommendation_ids.
  apply NoDup_app. split_and!.
  - rewrite (keyed_ids _ Hi). apply Hi.
  - intros id Hid. rewrite (keyed_ids _ Hi) in Hid.
    rewrite elem_of_map_filter. intros (tip & _ & Hp & <-).
    unfold CBR.Map_has in Hp. by rewrite bool_decide_eq_true_2 in Hp.
  - apply NoDup_map_filter. rewrite (keyed_ids _ Ho). apply Ho.
Qed.

Lemma recommendations_have_no_duplicates_witness :
  NoDup (map CBR.extensionId'
           (CBR.recommendations
              (CBR.fetch ["file:///one"; "file:///two"] CBR.two_folders CBR.initial).2)).
Proof.
  apply (recommendations_have_no_duplicates
           ["file:///one"; "file:///two"] CBR.two_folders CBR.initial).
  reflexivity.
Defined.

(** X15: a fetch that succeeded sorts the extensions by what the service said
    about them in any folder: an extension is among the important
    recommendations exactly if some tip names it as important, and among the
    other recommendations exactly if some tip names it and no tip names it as
    important, whichever folder came first. *)
Theorem important_tips_win folders oracle o o' id :
  CBR.fetch folders oracle o = (Normal tt, o') →
  (id ∈ map CBR.extensionId' (CBR._importantRecommendations o') ↔
   ∃ tip, tip ∈ CBR.answered oracle 0 folders ∧
          CBR.extensionId tip = id ∧ CBR.important tip = true) ∧
  (id ∈ map CBR.extensionId' (CBR._otherRecommendations o') ↔
   (∃ tip, tip ∈ CBR.answered oracle 0 folders ∧
           CBR.extensionId tip = id ∧ CBR.important tip = false) ∧
   ¬ ∃ tip, tip ∈ CBR.answered oracle 0 folders ∧
            CBR.extensionId tip = id ∧ CBR.important tip = true).
Proof.
  unfold CBR.fetch.
  destruct (CBR.collect oracle 0 folders [] []) as [[imp oth]|e] eqn:E; [|done].
  intros [= <-].
  destruct (collect_spec _ _ _ _ _ _ _ E keyed_nil keyed_nil) as (Hi & Ho & Himp & Hoth).
  simpl. rewrite !recommendation_ids.
  assert (∀ id, id ∈ imp.*1 ↔
            ∃ tip, tip ∈ CBR.answered oracle 0 folders ∧
                   CBR.extensionId tip = id ∧ CBR.important tip = true) as Himp'.
  { intros id'. rewrite Himp. split; [intros [?%elem_of_nil|?]; done|auto]. }
  assert (∀ id, id ∈ oth.*1 ↔
            ∃ tip, tip ∈ CBR.answered oracle 0 folders ∧
                   CBR.extensionId tip = id ∧ CBR.important tip = false) as Hoth'.
  { intros id'. rewrite Hoth. split; [intros [?%elem_of_nil|?]; done|auto]. }
  split.
  - by rewrite (keyed_ids _ Hi).
  - rewrite <- Himp', <- Hoth', elem_of_map_filter. split.
    + intros (tip & Htip & Hp & <-). unfold CBR.Map_has in Hp.
      apply negb_true_iff, bool_decide_eq_false in Hp. split; [|done].
      rewrite <- (keyed_ids _ Ho). change (map ?f ?x) with (f <$> x).
      apply list_elem_of_fmap. by exists tip.
    + intros [Hin Hnot]. rewrite <- (keyed_ids _ Ho) in Hin.
      change (map ?f ?x) with (f <$> x) in Hin.
      apply list_elem_of_fmap in Hin as (tip & -> & Htip).
      exists tip. split_and!; [done| |done].
      unfold CBR.Map_has. by rewrite bool_decide_eq_false_2.
Qed.

Lemma important_tips_win_witness :
  "ms-python.python"
    ∈ map CBR.extensionId'
        (CBR._importantRecommendations
           (CBR.fetch ["file:///one"; "file:///two"] CBR.two_folders CBR.initial).2).
Proof.
  apply (important_tips_win ["file:///one"; "file:///two"] CBR.two_folders CBR.initial
           _ "ms-python.python" eq_refl).
  exists CBR.tip_python. split; [|done].
  simpl. rewrite !elem_of_cons. auto.
Defined.

Lemma collect_all_or_nothing oracle n folders imp oth :
  match CBR.collect oracle n folders imp oth with
  | Throws e =>
      ∃ i folder, folders !! i = Some folder ∧ oracle (n + i) folder = Rejects e ∧
        ∀ j f, j < i → folders !! j = Some f → ∃ tips, oracle (n + j) f = Resolves tips
  | Normal _ =>
      ∀ i folder, folders !! i = Some folder → ∃ tips, oracle (n + i) folder = Resolves tips
  end.
Proof.
  revert n imp oth. induction folders as [|folder folders IH]; intros n imp oth; simpl.
  - by intros i folder ?.
  - destruct (oracle n folder) as [tips|e] eqn:Eo.
    + destruct (CBR.sort_tips tips imp oth) as [imp1 oth1].
      specialize (IH (S n) imp1 oth1).
      destruct (CBR.collect oracle (S n) folders imp1 oth1) as [?|e].
      * intros [|i] f Hf; simplify_eq/=.
        -- rewrite Nat.add_0_r. eauto.
        -- replace (n + S i) with (S n + i) by lia. eauto.
      * destruct IH as (i & f & Hf & He & Hbefore). exists (S i), f.
        replace (n + S i) with (S n + i) by lia. split_and!; [done..|].
        intros [|j] f' Hj Hf'; simplify_eq/=.
        -- rewrite Nat.add_0_r. eauto.
        -- replace (n + S j) with (S n + j) by lia. apply Hbefore; [lia|done].
    + exists 0, folder. rewrite Nat.add_0_r. split_and!; [done..|]. intros j f ?. lia.
Qed.

(** X16: [doActivate] is all or nothing.  If the service refuses the tips of
    some folder, [doActivate] rejects with the error of the first such
    folder, every field keeps the value it had and the folder listener is
    not registered; otherwise every folder was answered and the listener is
    registered. *)
Theorem doActivate_is_all_or_nothing folders oracle o :
  match CBR.doActivate folders oracle o with
  | (Throws e, o') =>
      o' = o ∧
      ∃ i folder, folders !! i = Some folder ∧ oracle i folder = Rejects e ∧
        ∀ j f, j < i → folders !! j = Some f → ∃ tips, oracle j f = Resolves tips
  | (Normal _, o') =>
      CBR.listening o' = true ∧ CBR.fired o' = CBR.fired o ∧
      ∀ i folder, folders !! i = Some folder → ∃ tips, oracle i folder = Resolves tips
  end.
Proof.
  unfold CBR.doActivate, CBR.fetch.
  pose proof (collect_all_or_nothing oracle 0 folders [] []) as H.
  destruct (CBR.collect oracle 0 folders [] []) as [[imp oth]|e]; simpl; [done|].
  split; [done|]. exact H.
Qed.

Lemma some_new_spec (current old : list CBR.IConfigBasedExtensionTip) :
  CBR.some_new current old = true ↔
  ∃ tip, tip ∈ current ∧ ∀ o, o ∈ old → CBR.extensionId tip ≠ CBR.extensionId o.
Proof.
  unfold CBR.some_new. rewrite existsb_exists. split.
  - intros (tip & Hin & Hall). exists tip. split; [by apply list_elem_of_In|].
    intros o Ho%list_elem_of_In. rewrite forallb_forall in Hall.
    specialize (Hall o Ho). by apply negb_true_iff, bool_decide_eq_false in Hall.
  - intros (tip & Hin & Hall). exists tip. split; [by apply list_elem_of_In|].
    apply forallb_forall. intros o Ho%list_elem_of_In.
    apply negb_true_iff, bool_decide_eq_false. by apply Hall.
Qed.

(** X17: what a change of workspace folders does.  Without an added folder
    nothing is fetched and nothing changes, so removing a folder leaves the
    recommendations as they were.  If the fetch is refused the fields keep
    their values and nothing fires.  The change event fires, once, exactly
    when a folder was added, the fetch succeeded and some important tip of
    the new fetch names an extension that no important tip named before;
    new or vanished other tips never fire it. *)
Theorem folder_change_fires_only_for_a_new_important_tip event folders oracle o :
  (CBR.added event = [] →
   CBR.onWorkspaceFoldersChanged event folders oracle o = (Normal tt, o)) ∧
  (∀ e, (CBR.onWorkspaceFoldersChanged event folders oracle o).1 = Throws e →
        (CBR.onWorkspaceFoldersChanged event folders oracle o).2 = o) ∧
  (CBR.fired (CBR.onWorkspaceFoldersChanged event folders oracle o).2 = S (CBR.fired o) ↔
   CBR.added event ≠ [] ∧
   (CBR.onWorkspaceFoldersChanged event folders oracle o).1 = Normal tt ∧
   ∃ tip, tip ∈ CBR.importantTips (CBR.onWorkspaceFoldersChanged event folders oracle o).2 ∧
          ∀ old, old ∈ CBR.importantTips o → CBR.extensionId tip ≠ CBR.extensionId old) ∧
  (CBR.fired (CBR.onWorkspaceFoldersChanged event folders oracle o).2 = CBR.fired o ∨
   CBR.fired (CBR.onWorkspaceFoldersChanged event folders oracle o).2 = S (CBR.fired o)).
Proof.
  unfold CBR.onWorkspaceFoldersChanged.
  destruct (CBR.added event) as [|folder added]; simpl.
  { split_and!; [done|done| |by left]. split; [lia|by intros [? _]]. }
  assert (match CBR.fetch folders oracle o with
          | (Throws _, o1) => o1 = o
          | (Normal _, o1) => CBR.fired o1 = CBR.fired o
          end) as Hfetch.
  { unfold CBR.fetch. by destruct (CBR.collect oracle 0 folders [] []) as [[? ?]|?]. }
  destruct (CBR.fetch folders oracle o) as [[[]|e] o1]; simpl.
  - pose proof (some_new_spec (CBR.importantTips o1) (CBR.importantTips o)) as Hsome.
    destruct (CBR.some_new (CBR.importantTips o1) (CBR.importantTips o)); simpl.
    + split_and!; [done|done| |right; by rewrite Hfetch].
      rewrite Hfetch. split; [intros _|done].
      split_and!; [done|done|by apply Hsome].
    + split_and!; [done|done| |by left].
      rewrite Hfetch. split; [lia|]. intros (_ & _ & Hex). apply Hsome in Hex. done.
  - subst o1. split_and!; [done|done| |by left]. split; [lia|by intros (_ & ? & _)].
Qed.

Lemma folder_change_fires_only_for_a_new_important_tip_witness :
  CBR.onWorkspaceFoldersChanged
    {| CBR.added := []; CBR.removed := ["file:///one"]; CBR.changed := [] |}
    ["file:///two"] CBR.two_folders
    (CBR.fetch ["file:///one"; "file:///two"] CBR.two_folders CBR.initial).2
  = (Normal tt, (CBR.fetch ["file:///one"; "file:///two"] CBR.two_folders CBR.initial).2).
Proof.
  apply (proj1 (folder_change_fires_only_for_a_new_important_tip
                  {| CBR.added := []; CBR.removed := ["file:///one"]; CBR.changed := [] |}
                  ["file:///two"] CBR.two_folders _)).
  reflexivity.
Defined.

(** * Beyond the claims: what a resumed call does, and where it all ends *)

Lemma filter_unmarked_fresh (s1 s : State) k rs :
  k ∉ rs → initialized s1 = initialized s ++ [k] →
  List.filter (unmarked s1) rs = List.filter (unmarked s) rs.
Proof.
  intros Hk Hi. induction rs as [|k' rs IH]; [done|].
  apply not_elem_of_cons in Hk as [Hne Hk]. simpl. rewrite (IH Hk).
  assert (unmarked s1 k' = unmarked s k') as ->; [|done].
  unfold unmarked. rewrite Hi. f_equal. apply bool_decide_ext.
  rewrite elem_of_app, list_elem_of_singleton. split; [intros [?|?]; [done|congruence]|auto].
Qed.

Lemma filter_unmarked_same (s1 s : State) rs :
  initialized s1 = initialized s →
  List.filter (unmarked s1) rs = List.filter (unmarked s) rs.
Proof. intros Hi. unfold unmarked. by rewrite Hi. Qed.

Lemma map_callbacks_in_order client inst rs s fs s' :
  map_callbacks client inst rs s = (fs, s') → NoDup rs →
  ∃ os, out s' = out s ++ os ∧
    initialized s' = initialized s ++ List.filter (unmarked s) rs ∧
    read_kinds os = List.filter (constructible inst) (List.filter (unmarked s) rs).
Proof.
  revert s fs s'. induction rs as [|k rs IH]; intros s fs s' H Hnd.
  - injection H as <- <-. exists []. by rewrite !app_nil_r.
  - apply NoDup_cons in Hnd as [Hk Hnd].
    callback_cases client inst k s H;
      destruct (IH _ _ _ E2 Hnd) as (os & Ho & Hi & Hr); cbn [List.filter].
    + assert (unmarked s k = false) as ->.
      { unfold unmarked. by rewrite bool_decide_eq_true_2. }
      rewrite (filter_unmarked_same _ s) in Hi, Hr by done.
      exists (LogInfo (Area "" k " initialized already.") :: os).
      simpl in Ho, Hi. rewrite Ho, Hi, <- app_assoc. done.
    + assert (unmarked s k = true) as ->.
      { unfold unmarked. by rewrite bool_decide_eq_false_2. }
      rewrite (filter_unmarked_fresh _ s k) in Hi, Hr by done.
      exists (LogTrace (Area "Initializing " k "") :: RemoteRead client k :: os).
      simpl in Ho, Hi. rewrite Ho, Hi, <- !app_assoc.
      assert (constructible inst k = true) as Hc.
      { destruct k; try done. destruct inst; [done|]. by destruct Hok. }
      cbn [List.filter]. rewrite Hc. simpl. by rewrite Hr.
    + assert (unmarked s Extensions = true) as ->.
      { unfold unmarked. by rewrite bool_decide_eq_false_2. }
      rewrite (filter_unmarked_fresh _ s Extensions) in Hi, Hr by done.
      exists (LogTrace (Area "Initializing " Extensions "")
                :: LogInfo (Area "Error while initializing " Extensions "")
                :: LogError missing_service_error :: os).
      simpl in Ho, Hi. rewrite Ho, Hi, <- !app_assoc. done.
Qed.

(** X18: which kinds a resumed call fetches.  A call asking for distinct
    kinds marks exactly those of them that are not in [initialized] yet, in
    the order of its argument, and issues a read for each of those whose
    initializer can be built, in the same order. *)
Theorem resumed_call_reads_unmarked_kinds_in_order s c call client :
  calls s !! c = Some call → status call = AwaitingClient →
  _userDataSyncStoreClientPromise s = Some (PromiseFulfilled (Some client)) →
  NoDup (syncResources call) →
  ∃ s' os, step s (ClientResume c) = Some s' ∧ out s' = out s ++ os ∧
    initialized s' = initialized s ++ List.filter (unmarked s) (syncResources call) ∧
    read_kinds os
    = List.filter (constructible (instantiationService call))
                  (List.filter (unmarked s) (syncResources call)).
Proof.
  intros Hc Hst Hp Hnd.
  destruct (map_callbacks client (instantiationService call) (syncResources call) s)
    as [fs s1] eqn:E.
  destruct (map_callbacks_in_order _ _ _ _ _ _ E Hnd) as (os & Ho & Hi & Hr).
  eexists. exists os. split.
  { simpl. rewrite Hc, Hp, Hst. simpl. rewrite E. reflexivity. }
  done.
Qed.

Lemma resumed_call_reads_unmarked_kinds_in_order_witness :
  ∃ s' os, step awaiting_other (ClientResume 0) = Some s' ∧
    out s' = out awaiting_other ++ os ∧
    initialized s' = [Keybindings; Snippets] ∧
    read_kinds os = [Keybindings; Snippets].
Proof.
  destruct (resumed_call_reads_unmarked_kinds_in_order awaiting_other 0
              (suspended_call [Keybindings; Snippets] None) a_client
              eq_refl eq_refl eq_refl)
    as (s' & os & Hs & Ho & Hi & Hr).
  - apply NoDup_cons. split; [by intros ?%list_elem_of_singleton|apply NoDup_singleton].
  - exists s', os. split_and!; assumption.
Defined.

(** X19: the order of calls and resumptions does not change what ends up
    marked.  In a reachable state with a client in which every call has
    resumed, a kind is in [initialized] exactly if some call asked for it. *)
Theorem marked_kinds_are_the_requested_kinds s k :
  reachable s → settled_with_client s →
  (∀ c call, calls s !! c = Some call → status call ≠ AwaitingClient) →
  (k ∈ initialized s ↔ ∃ c call, calls s !! c = Some call ∧ k ∈ syncResources call).
Proof.
  intros Hreach [client Hp] Hdone. pose proof (reachable_Inv _ Hreach) as HI. split.
  - apply (inv_origin s HI).
  - intros (c & call & Hc & Hk).
    destruct (inv_dispatched s HI _ _ Hc (Hdone _ _ Hc)) as [E|[[e E]|[_ Hsub]]];
      [congruence..|].
    by apply Hsub.
Qed.

Lemma marked_kinds_are_the_requested_kinds_witness :
  Snippets ∈ initialized reading_other ↔
  ∃ c call, calls reading_other !! c = Some call ∧ Snippets ∈ syncResources call.
Proof.
  apply (marked_kinds_are_the_requested_kinds reading_other Snippets
           reading_other_reachable).
  - exists a_client. reflexivity.
  - intros [|c] call Hc.
    + injection Hc as <-. discriminate.
    + discriminate Hc.
Defined.
